(** * go-sipantau: the crawler of [main.go], embedded and verified

    The program crawls a remote hierarchy of locations, fetches one result
    document per polling station (TPS) and hands accepted documents over a
    channel to a single goroutine that inserts them into MongoDB.

    Layout of this file:
    - [GoStrings]: the functions of Go's [strings] and [strconv] packages that
      [main.go] calls, on byte strings;
    - the data model ([Location], [TPSData], [Administrasi]) and the decoding
      of response bodies into it ([Decode]);
    - a command-tree monad [prog] in which every function of [main.go] is
      written, statement for statement;
    - a small-step semantics of goroutines, channels, wait groups and the
      collection: [step] moves one goroutine, [exec] follows a schedule,
      [run] takes a goroutine to its end;
    - the notions the properties are stated with, and small sources and
      worlds to run the program on;
    - the properties: of the library functions, of the semantics, of the
      crawl run in order, the invariants of the process, and the claims
      C1 to C10;
    - further properties, X1 to X19: the wait group with a limit, the URLs
      that are requested, the bounds of the buffers, the failures of the
      environment and of single fetches, the absence of panics, the whole
      program in order, the decoding of bodies in the format of the
      structs, and the filter of the leaf goroutine. *)

From Stdlib Require Import ZArith Lia Bool Ascii.
From stdpp Require Import base tactics option list strings gmap.

Local Open Scope Z_scope.
Set Warnings "-register-all".

(* ===================================================================== *)
(** * Go's [strings] and [strconv] functions used by [main.go]            *)
(* ===================================================================== *)

Module GoStrings.

(** Go strings are byte sequences, here [string] (a list of [ascii]). *)

Definition in_cutset (cutset : string) (c : ascii) : bool :=
  existsb (Ascii.eqb c) (String.list_ascii_of_string cutset).

(** [strings.TrimRight(s, cutset)] for an ASCII [cutset]: drops the longest
    suffix of [s] made only of bytes that occur in [cutset]. *)
Fixpoint TrimRight (s cutset : string) : string :=
  match s with
  | EmptyString => EmptyString
  | String c s' =>
      match TrimRight s' cutset with
      | EmptyString => if in_cutset cutset c then EmptyString else String c EmptyString
      | t => String c t
      end
  end.

(** [strings.TrimSuffix(s, suffix)]: what "remove the trailing suffix"
    means; not called by [main.go], used to state what it is compared to. *)
Fixpoint TrimSuffix (s suffix : string) : string :=
  match s with
  | EmptyString => EmptyString
  | String c s' => if String.eqb s suffix then EmptyString else String c (TrimSuffix s' suffix)
  end.

(** [strings.ReplaceAll(s, old, new)] for a non-empty [old]: replaces the
    non-overlapping occurrences of [old], found from left to right.
    [skip] counts the bytes of a match still to be passed over. *)
Fixpoint replace_from (skip : nat) (s old new : string) : string :=
  match s with
  | EmptyString => EmptyString
  | String c s' =>
      match skip with
      | S n => replace_from n s' old new
      | O =>
          if String.prefix old s
          then new +:+ replace_from (String.length old - 1) s' old new
          else String c (replace_from 0 s' old new)
      end
  end.

Definition ReplaceAll (s old new : string) : string :=
  if String.eqb old EmptyString then s else replace_from 0 s old new.

(** ** [strconv.ParseInt(s, 10, 64)] *)

Inductive NumErrKind := ErrSyntax | ErrRange.

Definition maxUint64 : Z := 2 ^ 64 - 1.

Definition digit_of (c : ascii) : option Z :=
  let n := Z.of_nat (nat_of_ascii c) in
  if (48 <=? n) && (n <=? 57) then Some (n - 48) else None.

(** The loop of [strconv.ParseUint] in base 10 with [bitSize] 64.  A byte
    that is no decimal digit is a syntax error (value 0); an overflow is a
    range error, reported where it is met, with the value [maxUint64]. *)
Fixpoint parseUint_loop (s : string) (n : Z) : Z * option NumErrKind :=
  match s with
  | EmptyString => (n, None)
  | String c s' =>
      match digit_of c with
      | None => (0, Some ErrSyntax)
      | Some d =>
          let cutoff := maxUint64 / 10 + 1 in
          if cutoff <=? n then (maxUint64, Some ErrRange)
          else
            let n10 := (n * 10) mod 2 ^ 64 in
            let n1 := (n10 + d) mod 2 ^ 64 in
            if (n1 <? n10) || (maxUint64 <? n1) then (maxUint64, Some ErrRange)
            else parseUint_loop s' n1
      end
  end.

Definition ParseUint (s : string) : Z * option NumErrKind :=
  match s with
  | EmptyString => (0, Some ErrSyntax)
  | _ => parseUint_loop s 0
  end.

Definition ParseInt (s : string) : Z * option NumErrKind :=
  match s with
  | EmptyString => (0, Some ErrSyntax)
  | String c s' =>
      let neg := Ascii.eqb c "-"%char in
      let s1 := if Ascii.eqb c "+"%char || neg then s' else s in
      match ParseUint s1 with
      | (_, Some ErrSyntax) => (0, Some ErrSyntax)
      | (un, _) =>
          let cutoff := 2 ^ 63 in
          if negb neg && (cutoff <=? un) then (cutoff - 1, Some ErrRange)
          else if neg && (cutoff <? un) then (- cutoff, Some ErrRange)
          else (if neg then - un else un, None)
      end
  end.

End GoStrings.

Import GoStrings.

(* ===================================================================== *)
(** * Data model                                                          *)
(* ===================================================================== *)

(** ** Errors

    Go's [error] interface value is [option err], [None] being [nil]. *)

Inductive jkind := KNumber | KString | KBool | KArray | KObject.

Inductive err :=
| ErrGet                      (* http.Get failed *)
| ErrRead                     (* ioutil.ReadAll failed *)
| ErrJSONSyntax               (* json.SyntaxError: the body is no JSON text *)
| ErrUnmarshalType (v : jkind)  (* json.UnmarshalTypeError: a value of kind v met a field of another type *)
| ErrEnv                      (* godotenv.Load failed *)
| ErrConnect                  (* mongo.Connect failed *)
| ErrIndex                    (* Indexes().CreateOne failed *)
| ErrDuplicateKey             (* InsertOne: the unique index on id rejects the document *)
| Errorf (msg : string) (cause : err).   (* fmt.Errorf(msg, cause) *)

Abbreviation error := (option err).
Abbreviation nil_error := (@None err).

(** ** [Location] *)

Record Location := mkLocation {
  Nama : string;
  ID : Z;
  Kode : string;
  Tingkat : Z
}.

Definition zero_Location : Location := mkLocation "" 0 "" 0.

(** ** [Administrasi] *)

Record Administrasi := mkAdministrasi {
  SuaraSah : Z;
  SuaraTotal : Z;
  PemilihDPTJ : Z;
  PemilihDPTL : Z;
  PemilihDPTP : Z;
  PenggunaDPTJ : Z;
  PenggunaDPTL : Z;
  PenggunaDPTP : Z;
  PenggunaDPTBJ : Z;
  PenggunaDPTBL : Z;
  PenggunaDPTBP : Z;
  SuaraTidakSah : Z;
  PenggunaTotalJ : Z;
  PenggunaTotalL : Z;
  PenggunaTotalP : Z;
  PenggunaNonDPTJ : Z;
  PenggunaNonDPTL : Z;
  PenggunaNonDPTP : Z
}.

(** The fields of [Administrasi], to address them by their JSON tag. *)
Inductive adm_field :=
| FSuaraSah
| FSuaraTotal
| FPemilihDPTJ
| FPemilihDPTL
| FPemilihDPTP
| FPenggunaDPTJ
| FPenggunaDPTL
| FPenggunaDPTP
| FPenggunaDPTBJ
| FPenggunaDPTBL
| FPenggunaDPTBP
| FSuaraTidakSah
| FPenggunaTotalJ
| FPenggunaTotalL
| FPenggunaTotalP
| FPenggunaNonDPTJ
| FPenggunaNonDPTL
| FPenggunaNonDPTP.

Definition adm_fields : list adm_field :=
  [FSuaraSah;
   FSuaraTotal;
   FPemilihDPTJ;
   FPemilihDPTL;
   FPemilihDPTP;
   FPenggunaDPTJ;
   FPenggunaDPTL;
   FPenggunaDPTP;
   FPenggunaDPTBJ;
   FPenggunaDPTBL;
   FPenggunaDPTBP;
   FSuaraTidakSah;
   FPenggunaTotalJ;
   FPenggunaTotalL;
   FPenggunaTotalP;
   FPenggunaNonDPTJ;
   FPenggunaNonDPTL;
   FPenggunaNonDPTP].

Definition adm_tag (f : adm_field) : string :=
  match f with
  | FSuaraSah => "suara_sah"
  | FSuaraTotal => "suara_total"
  | FPemilihDPTJ => "pemilih_dpt_j"
  | FPemilihDPTL => "pemilih_dpt_l"
  | FPemilihDPTP => "pemilih_dpt_p"
  | FPenggunaDPTJ => "pengguna_dpt_j"
  | FPenggunaDPTL => "pengguna_dpt_l"
  | FPenggunaDPTP => "pengguna_dpt_p"
  | FPenggunaDPTBJ => "pengguna_dptb_j"
  | FPenggunaDPTBL => "pengguna_dptb_l"
  | FPenggunaDPTBP => "pengguna_dptb_p"
  | FSuaraTidakSah => "suara_tidak_sah"
  | FPenggunaTotalJ => "pengguna_total_j"
  | FPenggunaTotalL => "pengguna_total_l"
  | FPenggunaTotalP => "pengguna_total_p"
  | FPenggunaNonDPTJ => "pengguna_non_dpt_j"
  | FPenggunaNonDPTL => "pengguna_non_dpt_l"
  | FPenggunaNonDPTP => "pengguna_non_dpt_p"
  end.

Definition adm_get (f : adm_field) (a : Administrasi) : Z :=
  match f with
  | FSuaraSah => SuaraSah a
  | FSuaraTotal => SuaraTotal a
  | FPemilihDPTJ => PemilihDPTJ a
  | FPemilihDPTL => PemilihDPTL a
  | FPemilihDPTP => PemilihDPTP a
  | FPenggunaDPTJ => PenggunaDPTJ a
  | FPenggunaDPTL => PenggunaDPTL a
  | FPenggunaDPTP => PenggunaDPTP a
  | FPenggunaDPTBJ => PenggunaDPTBJ a
  | FPenggunaDPTBL => PenggunaDPTBL a
  | FPenggunaDPTBP => PenggunaDPTBP a
  | FSuaraTidakSah => SuaraTidakSah a
  | FPenggunaTotalJ => PenggunaTotalJ a
  | FPenggunaTotalL => PenggunaTotalL a
  | FPenggunaTotalP => PenggunaTotalP a
  | FPenggunaNonDPTJ => PenggunaNonDPTJ a
  | FPenggunaNonDPTL => PenggunaNonDPTL a
  | FPenggunaNonDPTP => PenggunaNonDPTP a
  end.

Definition adm_set (f : adm_field) (z : Z) (a : Administrasi) : Administrasi :=
  let '(mkAdministrasi x0 x1 x2 x3 x4 x5 x6 x7 x8 x9 x10 x11 x12 x13 x14 x15 x16 x17) := a in
  match f with
  | FSuaraSah => mkAdministrasi z x1 x2 x3 x4 x5 x6 x7 x8 x9 x10 x11 x12 x13 x14 x15 x16 x17
  | FSuaraTotal => mkAdministrasi x0 z x2 x3 x4 x5 x6 x7 x8 x9 x10 x11 x12 x13 x14 x15 x16 x17
  | FPemilihDPTJ => mkAdministrasi x0 x1 z x3 x4 x5 x6 x7 x8 x9 x10 x11 x12 x13 x14 x15 x16 x17
  | FPemilihDPTL => mkAdministrasi x0 x1 x2 z x4 x5 x6 x7 x8 x9 x10 x11 x12 x13 x14 x15 x16 x17
  | FPemilihDPTP => mkAdministrasi x0 x1 x2 x3 z x5 x6 x7 x8 x9 x10 x11 x12 x13 x14 x15 x16 x17
  | FPenggunaDPTJ => mkAdministrasi x0 x1 x2 x3 x4 z x6 x7 x8 x9 x10 x11 x12 x13 x14 x15 x16 x17
  | FPenggunaDPTL => mkAdministrasi x0 x1 x2 x3 x4 x5 z x7 x8 x9 x10 x11 x12 x13 x14 x15 x16 x17
  | FPenggunaDPTP => mkAdministrasi x0 x1 x2 x3 x4 x5 x6 z x8 x9 x10 x11 x12 x13 x14 x15 x16 x17
  | FPenggunaDPTBJ => mkAdministrasi x0 x1 x2 x3 x4 x5 x6 x7 z x9 x10 x11 x12 x13 x14 x15 x16 x17
  | FPenggunaDPTBL => mkAdministrasi x0 x1 x2 x3 x4 x5 x6 x7 x8 z x10 x11 x12 x13 x14 x15 x16 x17
  | FPenggunaDPTBP => mkAdministrasi x0 x1 x2 x3 x4 x5 x6 x7 x8 x9 z x11 x12 x13 x14 x15 x16 x17
  | FSuaraTidakSah => mkAdministrasi x0 x1 x2 x3 x4 x5 x6 x7 x8 x9 x10 z x12 x13 x14 x15 x16 x17
  | FPenggunaTotalJ => mkAdministrasi x0 x1 x2 x3 x4 x5 x6 x7 x8 x9 x10 x11 z x13 x14 x15 x16 x17
  | FPenggunaTotalL => mkAdministrasi x0 x1 x2 x3 x4 x5 x6 x7 x8 x9 x10 x11 x12 z x14 x15 x16 x17
  | FPenggunaTotalP => mkAdministrasi x0 x1 x2 x3 x4 x5 x6 x7 x8 x9 x10 x11 x12 x13 z x15 x16 x17
  | FPenggunaNonDPTJ => mkAdministrasi x0 x1 x2 x3 x4 x5 x6 x7 x8 x9 x10 x11 x12 x13 x14 z x16 x17
  | FPenggunaNonDPTL => mkAdministrasi x0 x1 x2 x3 x4 x5 x6 x7 x8 x9 x10 x11 x12 x13 x14 x15 z x17
  | FPenggunaNonDPTP => mkAdministrasi x0 x1 x2 x3 x4 x5 x6 x7 x8 x9 x10 x11 x12 x13 x14 x15 x16 z
  end.

Definition zero_Administrasi : Administrasi :=
  mkAdministrasi 0 0 0 0 0 0 0 0 0 0 0 0 0 0 0 0 0 0.

(** ** JSON documents

    A response body that is a JSON text, after parsing.  A number keeps the
    one distinction the decoder makes: an integer literal, or a literal with
    a fraction or an exponent. *)

Inductive number :=
| NInt (z : Z)
| NFrac (literal : string).

Inductive json :=
| JNull
| JBool (b : bool)
| JNum (n : number)
| JStr (s : string)
| JArr (l : list json)
| JObj (members : list (string * json)).

Definition kind_of (j : json) : option jkind :=
  match j with
  | JNull => None
  | JBool _ => Some KBool
  | JNum _ => Some KNumber
  | JStr _ => Some KString
  | JArr _ => Some KArray
  | JObj _ => Some KObject
  end.

(** ** [TPSData]

    [Chart] is a Go map ([None] is the nil map), [Images] a slice ([None] is
    the nil slice), [PSU] an [interface{}]: it holds whatever JSON value the
    body has under "psu" ([JNull] is the nil interface). *)

Record TPSData := mkTPSData {
  Id : Z;
  Mode : string;
  Chart : option (gmap string Z);
  Images : option (list string);
  Administrasi_ : Administrasi;
  PSU : json;
  TS : string;
  StatusSuara : bool;
  StatusAdm : bool
}.

Definition zero_TPSData : TPSData :=
  mkTPSData 0 "" None None zero_Administrasi JNull "" false false.

Definition set_Id (z : Z) (d : TPSData) : TPSData :=
  mkTPSData z (Mode d) (Chart d) (Images d) (Administrasi_ d) (PSU d) (TS d) (StatusSuara d) (StatusAdm d).
Definition set_Mode (s : string) (d : TPSData) : TPSData :=
  mkTPSData (Id d) s (Chart d) (Images d) (Administrasi_ d) (PSU d) (TS d) (StatusSuara d) (StatusAdm d).
Definition set_Chart (c : option (gmap string Z)) (d : TPSData) : TPSData :=
  mkTPSData (Id d) (Mode d) c (Images d) (Administrasi_ d) (PSU d) (TS d) (StatusSuara d) (StatusAdm d).
Definition set_Images (i : option (list string)) (d : TPSData) : TPSData :=
  mkTPSData (Id d) (Mode d) (Chart d) i (Administrasi_ d) (PSU d) (TS d) (StatusSuara d) (StatusAdm d).
Definition set_Administrasi (a : Administrasi) (d : TPSData) : TPSData :=
  mkTPSData (Id d) (Mode d) (Chart d) (Images d) a (PSU d) (TS d) (StatusSuara d) (StatusAdm d).
Definition set_PSU (j : json) (d : TPSData) : TPSData :=
  mkTPSData (Id d) (Mode d) (Chart d) (Images d) (Administrasi_ d) j (TS d) (StatusSuara d) (StatusAdm d).
Definition set_TS (s : string) (d : TPSData) : TPSData :=
  mkTPSData (Id d) (Mode d) (Chart d) (Images d) (Administrasi_ d) (PSU d) s (StatusSuara d) (StatusAdm d).
Definition set_StatusSuara (b : bool) (d : TPSData) : TPSData :=
  mkTPSData (Id d) (Mode d) (Chart d) (Images d) (Administrasi_ d) (PSU d) (TS d) b (StatusAdm d).
Definition set_StatusAdm (b : bool) (d : TPSData) : TPSData :=
  mkTPSData (Id d) (Mode d) (Chart d) (Images d) (Administrasi_ d) (PSU d) (TS d) (StatusSuara d) b.

(* ===================================================================== *)
(** * Decoding response bodies ([json.Unmarshal])                         *)
(* ===================================================================== *)

(** [json.Unmarshal] first checks that the body is a JSON text, then stores
    it into the target.  A value that does not fit a field leaves the field
    as it was, the first such mismatch is remembered, and decoding goes on;
    the remembered error is returned at the end.  An object member whose
    name matches no field of the target struct is skipped.

    Three things are kept simpler than in the library: member names are
    compared up to the case of ASCII letters only; a slice that is decoded
    a second time reuses its old elements but not its spare capacity; and
    the value stored in an [interface{}] is the JSON value itself. *)

Module Decode.

Definition first_err (e1 e2 : error) : error :=
  match e1 with Some _ => e1 | None => e2 end.

Definition mismatch (j : json) : error := ErrUnmarshalType <$> kind_of j.

Definition in_int64 (z : Z) : bool := (- 2 ^ 63 <=? z) && (z <? 2 ^ 63).

Definition store_int (j : json) (old : Z) : Z * error :=
  match j with
  | JNull => (old, None)
  | JNum (NInt z) => if in_int64 z then (z, None) else (old, Some (ErrUnmarshalType KNumber))
  | _ => (old, mismatch j)
  end.

Definition store_string (j : json) (old : string) : string * error :=
  match j with
  | JNull => (old, None)
  | JStr s => (s, None)
  | _ => (old, mismatch j)
  end.

Definition store_bool (j : json) (old : bool) : bool * error :=
  match j with
  | JNull => (old, None)
  | JBool b => (b, None)
  | _ => (old, mismatch j)
  end.

(** A slice of strings: element [i] is stored over the old element [i] when
    there is one, over the empty string otherwise. *)
Fixpoint store_elems (l : list json) (old : list string) : list string * error :=
  match l with
  | [] => ([], None)
  | j :: l' =>
      let '(s, e) := store_string j (hd EmptyString old) in
      let '(r, e') := store_elems l' (tl old) in
      (s :: r, first_err e e')
  end.

Definition store_strings (j : json) (old : option (list string)) : option (list string) * error :=
  match j with
  | JNull => (None, None)
  | JArr l => let '(r, e) := store_elems l (default [] old) in (Some r, e)
  | _ => (old, mismatch j)
  end.

(** A map from strings to ints: every member is stored under its name, from
    a zero element; the entries the map already has are kept. *)
Fixpoint store_entries (kvs : list (string * json)) (m : gmap string Z) (e : error)
  : gmap string Z * error :=
  match kvs with
  | [] => (m, e)
  | (k, v) :: kvs' =>
      let '(z, e') := store_int v 0 in
      store_entries kvs' (<[k := z]> m) (first_err e e')
  end.

Definition store_map (j : json) (old : option (gmap string Z)) : option (gmap string Z) * error :=
  match j with
  | JNull => (None, None)
  | JObj kvs => let '(m, e) := store_entries kvs (default ∅ old) None in (Some m, e)
  | _ => (old, mismatch j)
  end.

(** Field lookup: the exact tag first, else the tag that equals the member
    name up to the case of ASCII letters. *)
Definition to_upper (c : ascii) : ascii :=
  let n := nat_of_ascii c in
  if ((97 <=? n) && (n <=? 122))%nat then ascii_of_nat (n - 32) else c.

Fixpoint foldName (s : string) : string :=
  match s with
  | EmptyString => EmptyString
  | String c s' => String (to_upper c) (foldName s')
  end.

Section Struct.
Context {F T : Type}.
Variable tag : F -> string.
Variable fields : list F.
Variable store : F -> json -> T -> T * error.

Definition lookup_field (key : string) : option F :=
  match List.find (fun f => String.eqb (tag f) key) fields with
  | Some f => Some f
  | None => List.find (fun f => String.eqb (foldName (tag f)) (foldName key)) fields
  end.

Fixpoint store_members (kvs : list (string * json)) (t : T) (e : error) : T * error :=
  match kvs with
  | [] => (t, e)
  | (k, v) :: kvs' =>
      match lookup_field k with
      | None => store_members kvs' t e
      | Some f => let '(t', e') := store f v t in store_members kvs' t' (first_err e e')
      end
  end.

Definition store_struct (j : json) (t : T) : T * error :=
  match j with
  | JNull => (t, None)
  | JObj kvs => store_members kvs t None
  | _ => (t, mismatch j)
  end.
End Struct.

(** *** [Administrasi] *)

Definition store_adm_field (f : adm_field) (j : json) (a : Administrasi) : Administrasi * error :=
  let '(z, e) := store_int j (adm_get f a) in (adm_set f z a, e).

Definition store_Administrasi : json -> Administrasi -> Administrasi * error :=
  store_struct adm_tag adm_fields store_adm_field.

(** *** [TPSData] *)

Inductive tps_field :=
| FId | FMode | FChart | FImages | FAdministrasi | FPSU | FTS | FStatusSuara | FStatusAdm.

Definition tps_fields : list tps_field :=
  [FId; FMode; FChart; FImages; FAdministrasi; FPSU; FTS; FStatusSuara; FStatusAdm].

Definition tps_tag (f : tps_field) : string :=
  match f with
  | FId => "id"
  | FMode => "mode"
  | FChart => "chart"
  | FImages => "images"
  | FAdministrasi => "administrasi"
  | FPSU => "psu"
  | FTS => "ts"
  | FStatusSuara => "status_suara"
  | FStatusAdm => "status_adm"
  end.

Definition store_tps_field (f : tps_field) (j : json) (d : TPSData) : TPSData * error :=
  match f with
  | FId => let '(z, e) := store_int j (Id d) in (set_Id z d, e)
  | FMode => let '(s, e) := store_string j (Mode d) in (set_Mode s d, e)
  | FChart => let '(c, e) := store_map j (Chart d) in (set_Chart c d, e)
  | FImages => let '(i, e) := store_strings j (Images d) in (set_Images i d, e)
  | FAdministrasi =>
      let '(a, e) := store_Administrasi j (Administrasi_ d) in (set_Administrasi a d, e)
  | FPSU => (set_PSU j d, None)
  | FTS => let '(s, e) := store_string j (TS d) in (set_TS s d, e)
  | FStatusSuara => let '(b, e) := store_bool j (StatusSuara d) in (set_StatusSuara b d, e)
  | FStatusAdm => let '(b, e) := store_bool j (StatusAdm d) in (set_StatusAdm b d, e)
  end.

Definition store_TPSData : json -> TPSData -> TPSData * error :=
  store_struct tps_tag tps_fields store_tps_field.

(** *** [Location] and [[]Location] *)

Inductive loc_field := FNama | FID | FKode | FTingkat.

Definition loc_fields : list loc_field := [FNama; FID; FKode; FTingkat].

Definition loc_tag (f : loc_field) : string :=
  match f with
  | FNama => "nama"
  | FID => "id"
  | FKode => "kode"
  | FTingkat => "tingkat"
  end.

Definition store_loc_field (f : loc_field) (j : json) (l : Location) : Location * error :=
  match f with
  | FNama => let '(s, e) := store_string j (Nama l) in (mkLocation s (ID l) (Kode l) (Tingkat l), e)
  | FID => let '(z, e) := store_int j (ID l) in (mkLocation (Nama l) z (Kode l) (Tingkat l), e)
  | FKode => let '(s, e) := store_string j (Kode l) in (mkLocation (Nama l) (ID l) s (Tingkat l), e)
  | FTingkat => let '(z, e) := store_int j (Tingkat l) in (mkLocation (Nama l) (ID l) (Kode l) z, e)
  end.

Definition store_Location : json -> Location -> Location * error :=
  store_struct loc_tag loc_fields store_loc_field.

Fixpoint store_Location_elems (l : list json) (old : list Location) : list Location * error :=
  match l with
  | [] => ([], None)
  | j :: l' =>
      let '(x, e) := store_Location j (hd zero_Location old) in
      let '(r, e') := store_Location_elems l' (tl old) in
      (x :: r, first_err e e')
  end.

Definition store_Locations (j : json) (old : list Location) : list Location * error :=
  match j with
  | JNull => ([], None)
  | JArr l => store_Location_elems l old
  | _ => (old, mismatch j)
  end.

(** *** [json.Unmarshal(body, &target)]

    A body is [None] when its bytes are no JSON text. *)

Definition body := option json.

Definition Unmarshal {T : Type} (store : json -> T -> T * error) (b : body) (t : T) : T * error :=
  match b with
  | None => (t, Some ErrJSONSyntax)
  | Some j => store j t
  end.

End Decode.

Import Decode.

(* ===================================================================== *)
(** * Programs: command trees                                             *)
(* ===================================================================== *)

(** A Go function is written as a tree of the runtime operations it
    performs: at each node one operation, and a continuation for each
    answer the runtime can give.  [Go child k] is the statement
    [go child()] followed by [k]. *)

Abbreviation wgref := nat.    (* a sync.WaitGroup *)
Abbreviation semref := nat.   (* a chan struct{} *)
Abbreviation chref := nat.    (* a chan TPSData *)
Abbreviation varref := nat.   (* a variable of type error captured by closures *)

(** What [http.Get(url)] followed by [ioutil.ReadAll(resp.Body)] gives. *)
Inductive http_result :=
| GetErr                       (* http.Get returns an error *)
| Resp (read : option body).   (* a response; [None]: reading its body fails *)

(** An operand of [fmt.Println] or [panic]. *)
Inductive out :=
| OStr (s : string)
| OErr (e : err).

Inductive event : Type -> Type :=
| EvLoadEnv : event error                         (* godotenv.Load() *)
| EvGetenv (key : string) : event string          (* os.Getenv(key) *)
| EvHttpGet (url : string) : event http_result
| EvPrintln (args : list out) : event unit
| EvPrintf (s : string) : event unit
| EvNewWaitGroup : event wgref                    (* sync.WaitGroup{} *)
| EvWgAdd (w : wgref) (delta : Z) : event unit
| EvWgDone (w : wgref) : event unit
| EvWgWait (w : wgref) : event unit
| EvMakeSem (cap : Z) : event semref              (* make(chan struct{}, cap) *)
| EvSemSend (c : semref) : event unit             (* c <- struct{}{} *)
| EvSemRecv (c : semref) : event unit             (* <-c *)
| EvMakeChan (cap : Z) : event chref              (* make(chan TPSData, cap) *)
| EvSend (c : chref) (d : TPSData) : event unit   (* c <- d *)
| EvRecv (c : chref) : event (option TPSData)     (* one round of range c; None: closed and drained *)
| EvClose (c : chref) : event unit                (* close(c) *)
| EvNewVar (v : error) : event varref
| EvSetVar (x : varref) (v : error) : event unit
| EvGetVar (x : varref) : event error
| EvMongoConnect (uri : string) : event error     (* mongo.Connect *)
| EvCreateIndex : event error                     (* collection.Indexes().CreateOne: unique index on id *)
| EvInsertOne (d : TPSData) : event error         (* collection.InsertOne *)
| EvDisconnect : event unit                       (* client.Disconnect *)
| EvPanic (v : out) : event Empty_set             (* panic(v) *)
| EvOutOfFuel : event Empty_set.                  (* the model's bound on loops and recursion is used up *)

Inductive prog (R : Type) : Type :=
| Ret (r : R)
| Vis {X : Type} (e : event X) (k : X -> prog R)
| Go (child : prog unit) (k : prog R).

Arguments Ret {R} r.
Arguments Vis {R X} e k.
Arguments Go {R} child k.

Fixpoint bind {R S : Type} (p : prog R) (f : R -> prog S) : prog S :=
  match p with
  | Ret r => f r
  | Vis e k => Vis e (fun x => bind (k x) f)
  | Go c k => Go c (bind k f)
  end.

#[global] Instance prog_ret : MRet prog := @Ret.
#[global] Instance prog_bind : MBind prog := fun _ _ f p => bind p f.

Definition trigger {X : Type} (e : event X) : prog X := Vis e Ret.

Definition panic {R : Type} (v : out) : prog R :=
  Vis (EvPanic v) (fun x : Empty_set => match x with end).

Definition out_of_fuel {R : Type} : prog R :=
  Vis EvOutOfFuel (fun x : Empty_set => match x with end).

(** [go f()] as a statement. *)
Definition go_ (child : prog unit) : prog unit := Go child (Ret tt).

(** [for _, x := range l { body }] over a slice. *)
Fixpoint for_range {A : Type} (l : list A) (body : A -> prog unit) : prog unit :=
  match l with
  | [] => mret tt
  | x :: l' => body x;; for_range l' body
  end.

(** [if err != nil { body }]. *)
Definition if_err (e : error) (body : err -> prog unit) : prog unit :=
  match e with
  | Some e' => body e'
  | None => mret tt
  end.

(* ===================================================================== *)
(** * The program of [main.go]                                            *)
(* ===================================================================== *)

(** ** [LimitedWaitGroup] *)

Record LimitedWaitGroup := mkLimitedWaitGroup {
  wg : wgref;
  limit : Z;
  sem : semref
}.

Definition NewLimitedWaitGroup (limit : Z) : prog LimitedWaitGroup :=
  w ← trigger EvNewWaitGroup;
  s ← trigger (EvMakeSem limit);
  mret (mkLimitedWaitGroup w limit s).

Module LWG.

(** [for i := 0; i < delta; i++ { lwg.sem <- struct{}{} }] *)
Fixpoint acquire (n : nat) (s : semref) : prog unit :=
  match n with
  | O => mret tt
  | S n' => trigger (EvSemSend s);; acquire n' s
  end.

Definition Add (lwg : LimitedWaitGroup) (delta : Z) : prog unit :=
  if limit lwg <? delta then panic (OStr "delta larger than limit")
  else
    trigger (EvWgAdd (wg lwg) delta);;
    acquire (Z.to_nat delta) (sem lwg).

Definition Done (lwg : LimitedWaitGroup) : prog unit :=
  trigger (EvSemRecv (sem lwg));;
  trigger (EvWgDone (wg lwg)).

Definition Wait (lwg : LimitedWaitGroup) : prog unit :=
  trigger (EvWgWait (wg lwg)).

End LWG.

Definition baseURL : string := "https://sirekap-obj-data.kpu.go.id/wilayah/pemilu/ppwp/".

Inductive context := Background.

(** ** [fetchLocations] and [fetchDataTPS]

    Each is [http.Get], then the rest of the function, which has no effect
    on the process: [decodeLocations] and [decodeTPS] are that rest, applied
    to what the retrieval gave. *)

Definition decodeLocations (r : http_result) : list Location * error :=
  match r with
  | GetErr => ([], Some ErrGet)
  | Resp None => ([], Some ErrRead)
  | Resp (Some b) =>
      let '(locations, e) := Unmarshal store_Locations b [] in
      match e with
      | Some _ => ([], e)
      | None => (locations, None)
      end
  end.

Definition fetchLocations (url : string) : prog (list Location * error) :=
  r ← trigger (EvHttpGet url);
  mret (decodeLocations r).

(** The results [data] and [err] are named: every [return] hands back the
    [data] built so far, also next to a non-nil [err]. *)
Definition decodeTPS (r : http_result) : TPSData * error :=
  match r with
  | GetErr => (zero_TPSData, Some ErrGet)
  | Resp None => (zero_TPSData, Some ErrRead)
  | Resp (Some b) => Unmarshal store_TPSData b zero_TPSData
  end.

Definition fetchDataTPS (url : string) : prog (TPSData * error) :=
  trigger (EvPrintln [OStr "Fetching data TPS : "; OStr url]);;
  r ← trigger (EvHttpGet url);
  mret (decodeTPS r).

(** ** [insertData] *)

(** [for data := range dataChannel { ... }]; [fuel] bounds the rounds. *)
Fixpoint insertData_range (fuel : nat) (ctx : context) (dataChannel : chref) : prog error :=
  match fuel with
  | O => out_of_fuel
  | S n =>
      m ← trigger (EvRecv dataChannel);
      match m with
      | None =>
          trigger (EvPrintf "Ended");;
          mret None
      | Some data =>
          e ← trigger (EvInsertOne data);
          match e with
          | Some e' => mret (Some (Errorf "error inserting document: %v" e'))
          | None => insertData_range n ctx dataChannel
          end
      end
  end.

Definition insertData (fuel : nat) (ctx : context) (dataChannel : chref) : prog error :=
  uri ← trigger (EvGetenv "MONGO_DB_URL");
  e ← trigger (EvMongoConnect uri);
  match e with
  | Some e' =>
      trigger (EvPrintln [OStr "Error connecting to MongoDB:"; OErr e']);;
      mret (Some (Errorf "failed to connect to MongoDB: %w" e'))
  | None =>
      (* defer client.Disconnect(...) runs at every exit below *)
      e ← trigger EvCreateIndex;
      match e with
      | Some e' => trigger EvDisconnect;; panic (OErr e')
      | None =>
          r ← insertData_range fuel ctx dataChannel;
          trigger EvDisconnect;;
          mret r
      end
  end.

(** ** [fetchAndStoreTPS] *)

Definition tpsURL (url kode : string) : string :=
  TrimRight (ReplaceAll url "wilayah/pemilu/ppwp" "pemilu/hhcw/ppwp") ".json"
  +:+ "/" +:+ kode +:+ ".json".

(** The goroutine started for each sub-location. *)
Definition fetchAndStoreTPS_go (wg2 : LimitedWaitGroup) (url : string)
    (dataChannel : chref) (subLoc : Location) : prog unit :=
  (* defer wg2.Done() *)
  '(data, err) ← fetchDataTPS (tpsURL url (Kode subLoc));
  if_err err (fun e =>
    trigger (EvPrintln [OStr "Error processing TPS:"; OStr (Kode subLoc); OErr e]));;
  let data := set_Id (fst (ParseInt (Kode subLoc))) data in
  (if StatusSuara data then trigger (EvSend dataChannel data) else mret tt);;
  LWG.Done wg2.

Definition fetchAndStoreTPS (ctx : context) (burl : string) (loc : Location)
    (dataChannel : chref) : prog error :=
  let url := burl +:+ Kode loc +:+ ".json" in
  '(subLocations, err) ← fetchLocations url;
  match err with
  | Some _ => mret err
  | None =>
      wg2 ← NewLimitedWaitGroup 1;
      for_range subLocations (fun subLoc =>
        LWG.Add wg2 1;;
        go_ (fetchAndStoreTPS_go wg2 url dataChannel subLoc));;
      mret None
  end.

(** ** [processAndStoreLocation]

    [fuel] bounds the depth of the recursion.  The variable [err] of the
    function is captured by the goroutines, which assign to it: it is the
    shared cell [errv]. *)

Fixpoint processAndStoreLocation (fuel : nat) (ctx : context) (burl : string)
    (loc : Location) (dataChannel : chref) {struct fuel} : prog error :=
  let url := burl +:+ Kode loc +:+ ".json" in
  '(subLocations, err) ← fetchLocations url;
  match err with
  | Some _ => mret err
  | None =>
      errv ← trigger (EvNewVar None);
      wg ← NewLimitedWaitGroup 1;
      for_range subLocations (fun subLoc =>
        LWG.Add wg 1;;
        go_ (
          (* defer wg.Done() *)
          trigger (EvPrintln [OStr "Processing : "; OStr url]);;
          e ← (if Tingkat subLoc =? 4
               then fetchAndStoreTPS ctx (TrimRight url ".json" +:+ "/") subLoc dataChannel
               else
                 match fuel with
                 | O => out_of_fuel
                 | S n =>
                     processAndStoreLocation n ctx (TrimRight url ".json" +:+ "/") subLoc dataChannel
                 end);
          trigger (EvSetVar errv e);;
          v ← trigger (EvGetVar errv);
          if_err v (fun e' =>
            trigger (EvPrintln [OStr "Error processing and storing sub-location:"; OErr e']));;
          LWG.Done wg));;
      LWG.Wait wg;;
      mret None
  end.

(** ** [main] *)

Definition main (depth fuel : nat) : prog unit :=
  e ← trigger EvLoadEnv;
  match e with
  | Some _ => panic (OStr "Error loading .env file")
  | None =>
      let initialURL := baseURL +:+ "0.json" in
      '(locations, err) ← fetchLocations initialURL;
      match err with
      | Some e' => trigger (EvPrintln [OStr "Error fetching initial locations:"; OErr e'])
      | None =>
          dataChannel ← trigger (EvMakeChan 20);
          go_ (insertData fuel Background dataChannel;; mret tt);;
          wg ← trigger EvNewWaitGroup;
          for_range locations (fun loc =>
            trigger (EvWgAdd wg 1);;
            go_ (
              (* defer wg.Done() *)
              err ← processAndStoreLocation depth Background baseURL loc dataChannel;
              if_err err (fun e' =>
                trigger (EvPrintln [OStr "Error processing and storing location:"; OErr e']));;
              trigger (EvWgDone wg)));;
          trigger (EvWgWait wg);;
          trigger (EvPrintln [OStr "All locations processed and stored successfully!"])
      end
  end.

(* ===================================================================== *)
(** * Semantics: goroutines, channels, wait groups, the store             *)
(* ===================================================================== *)

(** ** The world outside the process *)

Record env := mkEnv {
  remote : string -> http_result;   (* what the data source answers for a URL *)
  env_file_ok : bool;               (* godotenv.Load succeeds *)
  getenv : string -> string;
  mongo_up : bool                   (* mongo.Connect succeeds *)
}.

(** ** The state of the process and of the database *)

Record chan_state (A : Type) := mkChan {
  ch_cap : nat;
  ch_buf : list A;
  ch_closed : bool
}.
Arguments mkChan {A} _ _ _.
Arguments ch_cap {A} _.
Arguments ch_buf {A} _.
Arguments ch_closed {A} _.

Record store := mkStore {
  docs : list TPSData;       (* the collection data_tps *)
  connected : bool;
  attempts : list TPSData    (* every document InsertOne was called with, oldest first *)
}.

Record world := mkWorld {
  threads : list (prog unit);     (* goroutine 0 is main *)
  wgs : list Z;                   (* counters of the wait groups *)
  sems : list (chan_state unit);
  chans : list (chan_state TPSData);
  vars : list error;
  stdout : list (list out);       (* printed lines, oldest first *)
  requests : list string;         (* URLs requested, oldest first *)
  db : store;
  crashed : option out            (* a panic ended the process *)
}.

Definition with_threads (ts : list (prog unit)) (w : world) : world :=
  mkWorld ts (wgs w) (sems w) (chans w) (vars w) (stdout w) (requests w) (db w) (crashed w).
Definition with_wgs (x : list Z) (w : world) : world :=
  mkWorld (threads w) x (sems w) (chans w) (vars w) (stdout w) (requests w) (db w) (crashed w).
Definition with_sems (x : list (chan_state unit)) (w : world) : world :=
  mkWorld (threads w) (wgs w) x (chans w) (vars w) (stdout w) (requests w) (db w) (crashed w).
Definition with_chans (x : list (chan_state TPSData)) (w : world) : world :=
  mkWorld (threads w) (wgs w) (sems w) x (vars w) (stdout w) (requests w) (db w) (crashed w).
Definition with_vars (x : list error) (w : world) : world :=
  mkWorld (threads w) (wgs w) (sems w) (chans w) x (stdout w) (requests w) (db w) (crashed w).
Definition with_stdout (x : list (list out)) (w : world) : world :=
  mkWorld (threads w) (wgs w) (sems w) (chans w) (vars w) x (requests w) (db w) (crashed w).
Definition with_requests (x : list string) (w : world) : world :=
  mkWorld (threads w) (wgs w) (sems w) (chans w) (vars w) (stdout w) x (db w) (crashed w).
Definition with_db (x : store) (w : world) : world :=
  mkWorld (threads w) (wgs w) (sems w) (chans w) (vars w) (stdout w) (requests w) x (crashed w).
Definition with_crashed (x : option out) (w : world) : world :=
  mkWorld (threads w) (wgs w) (sems w) (chans w) (vars w) (stdout w) (requests w) (db w) x.

(** ** Channels

    A buffered channel: a send needs a free place in the buffer, a receive
    a buffered element or a closed channel.  (A channel of capacity 0 takes
    no send here; the program makes channels of capacity 1 and 20.) *)

Inductive outcome (X : Type) :=
| Blocked                     (* the goroutine cannot go on now *)
| Crash (v : out)             (* panic *)
| Next (x : X) (w : world).   (* the operation is done, with answer x *)
Arguments Blocked {X}.
Arguments Crash {X} v.
Arguments Next {X} x w.

Definition chan_send {A : Type} (c : chan_state A) (x : A) : option (option (chan_state A)) :=
  if ch_closed c then None      (* send on a closed channel: panic *)
  else if (length (ch_buf c) <? ch_cap c)%nat
       then Some (Some (mkChan (ch_cap c) (ch_buf c ++ [x]) false))
       else Some None.

Definition chan_recv {A : Type} (c : chan_state A) : option (option A * chan_state A) :=
  match ch_buf c with
  | x :: rest => Some (Some x, mkChan (ch_cap c) rest (ch_closed c))
  | [] => if ch_closed c then Some (None, c) else None
  end.

Definition has_id (i : Z) (ds : list TPSData) : bool :=
  existsb (fun d => Id d =? i) ds.

Fixpoint unique_ids (ds : list TPSData) : bool :=
  match ds with
  | [] => true
  | d :: ds' => negb (has_id (Id d) ds') && unique_ids ds'
  end.

Definition panic_closed : out := OStr "send on closed channel".
Definition panic_negative : out := OStr "sync: negative WaitGroup counter".
Definition panic_makechan : out := OStr "makechan: size out of range".
Definition panic_close : out := OStr "close of closed channel".

(** ** One operation *)

Definition handle (E : env) {X : Type} (e : event X) (w : world) : outcome X :=
  match e in event X return outcome X with
  | EvLoadEnv => Next (if env_file_ok E then None else Some ErrEnv) w
  | EvGetenv key => Next (getenv E key) w
  | EvHttpGet url => Next (remote E url) (with_requests (requests w ++ [url]) w)
  | EvPrintln args => Next tt (with_stdout (stdout w ++ [args]) w)
  | EvPrintf s => Next tt (with_stdout (stdout w ++ [[OStr s]]) w)
  | EvNewWaitGroup => Next (length (wgs w)) (with_wgs (wgs w ++ [0]) w)
  | EvWgAdd r delta =>
      match wgs w !! r with
      | None => Blocked
      | Some n =>
          if n + delta <? 0 then Crash panic_negative
          else Next tt (with_wgs (<[r := n + delta]> (wgs w)) w)
      end
  | EvWgDone r =>
      match wgs w !! r with
      | None => Blocked
      | Some n =>
          if n - 1 <? 0 then Crash panic_negative
          else Next tt (with_wgs (<[r := n - 1]> (wgs w)) w)
      end
  | EvWgWait r =>
      match wgs w !! r with
      | Some 0 => Next tt w
      | _ => Blocked
      end
  | EvMakeSem cap =>
      if cap <? 0 then Crash panic_makechan
      else Next (length (sems w)) (with_sems (sems w ++ [mkChan (Z.to_nat cap) [] false]) w)
  | EvSemSend r =>
      match sems w !! r with
      | None => Blocked
      | Some c =>
          match chan_send c tt with
          | None => Crash panic_closed
          | Some None => Blocked
          | Some (Some c') => Next tt (with_sems (<[r := c']> (sems w)) w)
          end
      end
  | EvSemRecv r =>
      match sems w !! r with
      | None => Blocked
      | Some c =>
          match chan_recv c with
          | None => Blocked
          | Some (_, c') => Next tt (with_sems (<[r := c']> (sems w)) w)
          end
      end
  | EvMakeChan cap =>
      if cap <? 0 then Crash panic_makechan
      else Next (length (chans w)) (with_chans (chans w ++ [mkChan (Z.to_nat cap) [] false]) w)
  | EvSend r d =>
      match chans w !! r with
      | None => Blocked
      | Some c =>
          match chan_send c d with
          | None => Crash panic_closed
          | Some None => Blocked
          | Some (Some c') => Next tt (with_chans (<[r := c']> (chans w)) w)
          end
      end
  | EvRecv r =>
      match chans w !! r with
      | None => Blocked
      | Some c =>
          match chan_recv c with
          | None => Blocked
          | Some (x, c') => Next x (with_chans (<[r := c']> (chans w)) w)
          end
      end
  | EvClose r =>
      match chans w !! r with
      | None => Crash panic_close
      | Some c =>
          if ch_closed c then Crash panic_close
          else Next tt (with_chans (<[r := mkChan (ch_cap c) (ch_buf c) true]> (chans w)) w)
      end
  | EvNewVar v => Next (length (vars w)) (with_vars (vars w ++ [v]) w)
  | EvSetVar x v => Next tt (with_vars (<[x := v]> (vars w)) w)
  | EvGetVar x => Next (default None (vars w !! x)) w
  | EvMongoConnect uri =>
      if mongo_up E
      then Next None (with_db (mkStore (docs (db w)) true (attempts (db w))) w)
      else Next (Some ErrConnect) w
  | EvCreateIndex =>
      Next (if unique_ids (docs (db w)) then None else Some ErrIndex) w
  | EvInsertOne d =>
      if has_id (Id d) (docs (db w))
      then Next (Some ErrDuplicateKey)
             (with_db (mkStore (docs (db w)) (connected (db w)) (attempts (db w) ++ [d])) w)
      else Next None
             (with_db (mkStore (docs (db w) ++ [d]) (connected (db w)) (attempts (db w) ++ [d])) w)
  | EvDisconnect =>
      Next tt (with_db (mkStore (docs (db w)) false (attempts (db w))) w)
  | EvPanic v => Crash v
  | EvOutOfFuel => Blocked
  end.

(** ** One step of one goroutine

    The process is over once a goroutine has panicked or [main] has
    returned; a goroutine that has returned takes no step. *)

Definition main_returned (w : world) : bool :=
  match threads w !! 0%nat with
  | Some (Ret _) => true
  | _ => false
  end.

Definition running (w : world) : bool :=
  match crashed w with
  | Some _ => false
  | None => negb (main_returned w)
  end.

Definition step (E : env) (t : nat) (w : world) : option world :=
  if running w then
    match threads w !! t with
    | None => None
    | Some (Ret _) => None
    | Some (Go child k) => Some (with_threads (<[t := k]> (threads w) ++ [child]) w)
    | Some (Vis e k) =>
        match handle E e w with
        | Blocked => None
        | Crash v => Some (with_crashed (Some v) w)
        | Next x w' => Some (with_threads (<[t := k x]> (threads w')) w')
        end
    end
  else None.

(** A schedule names the goroutine that moves at each step; [exec] follows
    it and fails when the named goroutine cannot move. *)
Fixpoint exec (E : env) (sched : list nat) (w : world) : option world :=
  match sched with
  | [] => Some w
  | t :: sched' =>
      match step E t w with
      | None => None
      | Some w' => exec E sched' w'
      end
  end.

(** The worlds the process can reach from [w]. *)
Definition reachable (E : env) (w w' : world) : Prop :=
  exists sched, exec E sched w = Some w'.

Definition init_store (ds : list TPSData) : store := mkStore ds false [].

(** The process at its start: [p] alone, as goroutine 0. *)
Definition init_world (ds : list TPSData) (p : prog unit) : world :=
  mkWorld [p] [] [] [] [] [] [] (init_store ds) None.

(** ** Running a goroutine to its end

    [run E p w] runs [p] from [w] without interruption, and every goroutine
    it starts at once and to its end, before the statement after the [go].
    This is one of the schedules of the process ([run_exec] below). *)

Inductive result (R : Type) :=
| Returned (r : R)
| Stuck                (* blocked for good when run this way *)
| Panicked (v : out).
Arguments Returned {R} r.
Arguments Stuck {R}.
Arguments Panicked {R} v.

Fixpoint run {R : Type} (E : env) (p : prog R) (w : world) {struct p} : result R * world :=
  match p with
  | Ret r => (Returned r, w)
  | Vis e k =>
      match handle E e w with
      | Blocked => (Stuck, w)
      | Crash v => (Panicked v, with_crashed (Some v) w)
      | Next x w' => run E (k x) w'
      end
  | Go child k =>
      match run E child w with
      | (Returned _, w') => run E k w'
      | (Stuck, w') => (Stuck, w')
      | (Panicked v, w') => (Panicked v, w')
      end
  end.

(** The records a channel holds. *)
Definition buffered (ch : chref) (w : world) : list TPSData :=
  match chans w !! ch with
  | Some c => ch_buf c
  | None => []
  end.

(** The free places of a channel of the process. *)
Definition room (ch : chref) (w : world) : nat :=
  match chans w !! ch with
  | Some c => if ch_closed c then 0%nat else (ch_cap c - length (ch_buf c))%nat
  | None => 0%nat
  end.

(** The tokens in the semaphore of a [LimitedWaitGroup]: its slots in use. *)
Definition slots_in_use (lwg : LimitedWaitGroup) (w : world) : nat :=
  match sems w !! sem lwg with
  | Some c => length (ch_buf c)
  | None => 0%nat
  end.

Definition finished (t : nat) (w : world) : bool :=
  match threads w !! t with
  | Some (Ret _) => true
  | _ => false
  end.

(* ===================================================================== *)
(** * Notions used to state the properties                                *)
(* ===================================================================== *)

(** ** Outcomes

    [outcome_map f o] is [o] with [f] applied to the world it leads to. *)

Definition outcome_map {X : Type} (f : world -> world) (o : outcome X) : outcome X :=
  match o with
  | Blocked => Blocked
  | Crash v => Crash v
  | Next x w => Next x (f w)
  end.

(** ** The operations along a path of a program

    [follows p tr r]: answering its operations as [tr] records, [p] performs
    exactly the operations of [tr] and returns [r]. *)

Inductive action :=
| Act {X : Type} (e : event X) (x : X)   (* operation e, answered x *)
| Spawn (child : prog unit).              (* go child() *)

Fixpoint follows {R : Type} (p : prog R) (tr : list action) (r : R) : Prop :=
  match p with
  | Ret r' => tr = [] /\ r' = r
  | Vis e k => exists x tr', tr = Act e x :: tr' /\ follows (k x) tr' r
  | Go child k => exists tr', tr = Spawn child :: tr' /\ follows k tr' r
  end.

(** [p] becomes [q] by one operation of its own. *)
Inductive residual : prog unit -> prog unit -> Prop :=
| residual_Vis {X : Type} (e : event X) (k : X -> prog unit) (x : X) :
    residual (Vis e k) (k x)
| residual_Go (child k : prog unit) : residual (Go child k) k.

Definition is_ret {R : Type} (p : prog R) : bool :=
  match p with
  | Ret _ => true
  | _ => false
  end.

(** ** Tame programs

    [tame p]: [p] and the goroutines it starts never close a channel, never
    print "Ended" unless a receive has found its channel closed, and send
    on a channel or hand to InsertOne only records whose [StatusSuara] flag
    is true, as long as the records they receive have a true flag. *)

Definition is_ended (line : list out) : bool :=
  match line with
  | [OStr s] => String.eqb s "Ended"
  | _ => false
  end.

Definition harmless {X : Type} (e : event X) : bool :=
  match e with
  | EvClose _ => false
  | EvPrintf s => negb (is_ended [OStr s])
  | EvPrintln args => negb (is_ended args)
  | EvSend _ d => StatusSuara d
  | EvInsertOne d => StatusSuara d
  | _ => true
  end.

(** The answers after which a program has to stay tame: all of them, but
    for a receive those that deliver a record with a true flag. *)
Definition open_answer {X : Type} (e : event X) : X -> Prop :=
  match e in event X return X -> Prop with
  | EvRecv _ => fun x =>
      match x with
      | Some d => StatusSuara d = true
      | None => False
      end
  | _ => fun _ => True
  end.

Fixpoint tame {R : Type} (p : prog R) : Prop :=
  match p with
  | Ret _ => True
  | Vis e k => harmless e = true /\ forall x, open_answer e x -> tame (k x)
  | Go child k => tame child /\ tame k
  end.

Definition all_open (w : world) : Prop :=
  Forall (fun c => ch_closed c = false) (chans w).

Definition ended_printed (w : world) : bool :=
  existsb is_ended (stdout w).

Definition confirmed (ds : list TPSData) : Prop :=
  Forall (fun d => StatusSuara d = true) ds.

(** Every record in a channel, and every record handed to InsertOne so
    far, has a true flag. *)
Definition confirmed_only (w : world) : Prop :=
  Forall (fun c => confirmed (ch_buf c)) (chans w) /\ confirmed (attempts (db w)).

(** What every step of a process of tame programs keeps. *)
Definition tame_world (w : world) : Prop :=
  all_open w /\ ended_printed w = false /\ confirmed_only w /\ Forall tame (threads w).

(** ** Channels within their capacity *)

Definition within_cap {A : Type} (c : chan_state A) : Prop :=
  (length (ch_buf c) <= ch_cap c)%nat.

(** The semaphore at index [i] has capacity [N] and holds at most [N] tokens. *)
Definition sem_ok (i : semref) (N : nat) (w : world) : Prop :=
  exists c, sems w !! i = Some c /\ ch_cap c = N /\ within_cap c.

(** ** The leaf-result URL in the words of the specification

    The listing URL with the path segment replaced, the trailing ".json"
    removed, then "/", the code and ".json" appended. *)

Definition spec_tpsURL (u k : string) : string :=
  TrimSuffix (ReplaceAll u "wilayah/pemilu/ppwp" "pemilu/hhcw/ppwp") ".json"
  +:+ "/" +:+ k +:+ ".json".

(** ** Decimal numerals

    The value of a string of decimal digits with an optional sign, without
    any bound: what "the code parsed as a base-10 integer" is. *)

Fixpoint horner (s : string) (acc : Z) : option Z :=
  match s with
  | EmptyString => Some acc
  | String c s' =>
      match digit_of c with
      | Some d => horner s' (acc * 10 + d)
      | None => None
      end
  end.

Definition unsigned_numeral (s : string) : option Z :=
  match s with
  | EmptyString => None
  | _ => horner s 0
  end.

Definition numeral (s : string) : option Z :=
  match s with
  | EmptyString => None
  | String c s' =>
      if Ascii.eqb c "-" then Z.opp <$> unsigned_numeral s'
      else if Ascii.eqb c "+" then unsigned_numeral s'
      else unsigned_numeral s
  end.

(** ** The records of a subtree

    What one leaf, one terminal-level location and one whole subtree send on
    the channel when nothing interrupts them.  [crawl_sends] is [None] when
    the hierarchy below the location is deeper than [fuel]. *)

Definition leaf_record (E : env) (url : string) (subLoc : Location) : TPSData :=
  set_Id (ParseInt (Kode subLoc)).1 (decodeTPS (remote E (tpsURL url (Kode subLoc)))).1.

Definition leaf_sends (E : env) (url : string) (subLoc : Location) : list TPSData :=
  if StatusSuara (leaf_record E url subLoc) then [leaf_record E url subLoc] else [].

Definition tps_sends (E : env) (burl : string) (loc : Location) : list TPSData :=
  let url := burl +:+ Kode loc +:+ ".json" in
  match decodeLocations (remote E url) with
  | (subLocations, None) => flat_map (leaf_sends E url) subLocations
  | (_, Some _) => []
  end.

Fixpoint collect {A : Type} (f : A -> option (list TPSData)) (l : list A)
  : option (list TPSData) :=
  match l with
  | [] => Some []
  | x :: l' =>
      match f x, collect f l' with
      | Some a, Some b => Some (a ++ b)
      | _, _ => None
      end
  end.

Fixpoint crawl_sends (E : env) (fuel : nat) (burl : string) (loc : Location)
  : option (list TPSData) :=
  let url := burl +:+ Kode loc +:+ ".json" in
  match decodeLocations (remote E url) with
  | (_, Some _) => Some []
  | (subLocations, None) =>
      collect (fun subLoc =>
        if Tingkat subLoc =? 4
        then Some (tps_sends E (TrimRight url ".json" +:+ "/") subLoc)
        else
          match fuel with
          | O => None
          | S n => crawl_sends E n (TrimRight url ".json" +:+ "/") subLoc
          end) subLocations
  end.

(** The world after [fetchDataTPS u]: one line printed, one request made. *)
Definition after_fetch (u : string) (w : world) : world :=
  with_requests (requests w ++ [u])
    (with_stdout (stdout w ++ [[OStr "Fetching data TPS : "; OStr u]]) w).

(** [w'] is [w] after [recs] were sent on [ch] and nothing else happened
    to the channels, wait groups, semaphores and database that [w] had:
    there are only new wait groups and semaphores. *)
Definition grows (ch : chref) (recs : list TPSData) (w w' : world) : Prop :=
  (exists c, chans w !! ch = Some c /\
     chans w' = <[ch := mkChan (ch_cap c) (ch_buf c ++ recs) (ch_closed c)]> (chans w)) /\
  (exists x, wgs w' = wgs w ++ x) /\
  (exists x, sems w' = sems w ++ x) /\
  db w' = db w /\
  crashed w' = crashed w.

(** ** The sink on a given supply of records

    [fresh_for ds rs]: inserting [rs] in this order into a collection that
    holds [ds] meets no duplicate id. *)
Fixpoint fresh_for (ds rs : list TPSData) : bool :=
  match rs with
  | [] => true
  | d :: rs' => negb (has_id (Id d) ds) && fresh_for (ds ++ [d]) rs'
  end.

(** The goroutine that [processAndStoreLocation] starts for a sub-location,
    with [call] for the call it makes on that sub-location. *)
Definition loc_go (call : Location -> prog error) (g : LimitedWaitGroup) (url : string)
    (errv : varref) (subLoc : Location) : prog unit :=
  trigger (EvPrintln [OStr "Processing : "; OStr url]);;
  e ← call subLoc;
  trigger (EvSetVar errv e);;
  v ← trigger (EvGetVar errv);
  if_err v (fun e' =>
    trigger (EvPrintln [OStr "Error processing and storing sub-location:"; OErr e']));;
  LWG.Done g.

(* ===================================================================== *)
(** * Fixtures: small sources and worlds to run the program on            *)
(* ===================================================================== *)

Definition descriptor (kode : string) (tingkat : Z) : json :=
  JObj [("nama", JStr kode); ("id", JNum (NInt 1)); ("kode", JStr kode);
        ("tingkat", JNum (NInt tingkat))].

Definition listing (ds : list json) : http_result := Resp (Some (Some (JArr ds))).

Definition tps_body (confirmed : bool) : json :=
  JObj [("id", JNum (NInt 7)); ("mode", JStr "hhcw"); ("status_suara", JBool confirmed)].

Definition env_of (r : string -> http_result) : env :=
  mkEnv r true (fun _ => "mongodb://localhost") true.

(** A source that answers every request with a confirmed result. *)
Definition confirmed_env : env := env_of (fun _ => Resp (Some (Some (tps_body true)))).

(** A source whose result document has a number where [mode] wants a string. *)
Definition mistyped_env : env :=
  env_of (fun _ => Resp (Some (Some
    (JObj [("status_suara", JBool true); ("mode", JNum (NInt 5))])))).

(** One province "11", one terminal-level location "1101" in it, with two
    polling stations "1" (confirmed) and "2" ([second] tells whether it is
    confirmed). *)
Definition small_source (second : bool) (url : string) : http_result :=
  if String.eqb url (baseURL +:+ "0.json") then listing [descriptor "11" 1]
  else if String.eqb url (baseURL +:+ "11.json") then listing [descriptor "1101" 4]
  else if String.eqb url (baseURL +:+ "11/1101.json")
       then listing [descriptor "1" 5; descriptor "2" 5]
  else if String.eqb url "https://sirekap-obj-data.kpu.go.id/pemilu/hhcw/ppwp/11/1101/1.json"
       then Resp (Some (Some (tps_body true)))
  else if String.eqb url "https://sirekap-obj-data.kpu.go.id/pemilu/hhcw/ppwp/11/1101/2.json"
       then Resp (Some (Some (tps_body second)))
  else GetErr.

Definition small_env (second : bool) : env := env_of (small_source second).

(** [small_source false], but the result document of station "1" has a
    number where [mode] wants a string. *)
Definition mistyped_leaf_source (url : string) : http_result :=
  if String.eqb url "https://sirekap-obj-data.kpu.go.id/pemilu/hhcw/ppwp/11/1101/1.json"
  then Resp (Some (Some (JObj [("status_suara", JBool true); ("mode", JNum (NInt 5))])))
  else small_source false url.

Definition mistyped_leaf_env : env := env_of mistyped_leaf_source.

(** A source with no location at all. *)
Definition empty_env : env := env_of (fun _ => listing []).

(** A world for one leaf goroutine: its group [leaf_group] counts it and
    holds its token, channel 0 is the output channel, empty, of capacity 20. *)
Definition leaf_group : LimitedWaitGroup := mkLimitedWaitGroup 0 1 0.

Definition leaf_world : world :=
  mkWorld [] [1] [mkChan 1 [tt] false] [mkChan 20 [] false] [] [] [] (init_store []) None.

Definition leaf_url : string := baseURL +:+ "11/1101.json".

Definition station (kode : string) : Location := mkLocation kode 1 kode 5.

(** A world for the sink alone: channel 0 holds [rs]. *)
Definition sink_world (ds rs : list TPSData) (closed : bool) : world :=
  mkWorld [] [] [] [mkChan 20 rs closed] [] [] [] (init_store ds) None.

Definition record_of (i : Z) : TPSData := set_Id i (set_StatusSuara true zero_TPSData).

(** Five schedules of the whole program.  In [early_exit_schedule], on
    [small_env], every goroutine moves as soon as it can, the oldest first.
    In [orderly_schedule], on [small_env], the youngest goes first.  In
    [idle_sink_schedule], on [empty_env], the sink runs until it waits for
    a record, then [main] runs to its end.  In [mistyped_leaf_schedule], on
    [mistyped_leaf_env], the youngest goes first.  [lost_record_schedule],
    on [small_env], is [orderly_schedule] without the last three steps of
    goroutine 5 and the last two of the sink: goroutine 5 stops between its
    request and its send. *)
Definition early_exit_schedule : list nat :=
  [0; 0; 0; 0; 0; 0; 0; 1; 1; 1; 2; 2; 2; 2; 2; 2; 2; 3; 3; 3; 3; 3; 3; 3; 3;
   4; 4; 4; 1; 1; 4; 3; 3; 3; 3; 3; 3; 2; 2; 0; 0]%nat.

Definition orderly_schedule : list nat :=
  [0; 0; 0; 0; 1; 1; 1; 0; 0; 0; 2; 2; 2; 2; 2; 2; 2; 3; 3; 3; 3; 3; 3; 3;
   4; 4; 4; 4; 4; 3; 3; 3; 5; 5; 5; 5; 5; 3; 3; 3; 3; 2; 2; 1; 1; 1; 1; 0; 0]%nat.

Definition lost_record_schedule : list nat :=
  [0; 0; 0; 0; 1; 1; 1; 0; 0; 0; 2; 2; 2; 2; 2; 2; 2; 3; 3; 3; 3; 3; 3; 3;
   4; 4; 4; 4; 4; 3; 3; 3; 5; 5; 3; 3; 3; 3; 2; 2; 1; 1; 0; 0]%nat.

Definition idle_sink_schedule : list nat :=
  [0; 0; 0; 0; 1; 1; 1; 0; 0; 0]%nat.

Definition mistyped_leaf_schedule : list nat :=
  [0; 0; 0; 0; 1; 1; 1; 0; 0; 0; 2; 2; 2; 2; 2; 2; 2; 3; 3; 3; 3; 3; 3; 3;
   4; 4; 4; 4; 4; 4; 3; 3; 3; 5; 5; 5; 5; 3; 3; 3; 3; 2; 2; 1; 1; 0; 0]%nat.

(* ===================================================================== *)
(** * Notions for the further properties                                  *)
(* ===================================================================== *)

(** ** The wait group with a limit *)

(** [n] calls of [Done], one after the other. *)
Definition Done_times (n : nat) (lwg : LimitedWaitGroup) : prog unit :=
  for_range (replicate n tt) (fun _ => LWG.Done lwg).

(** ** Programs under a policy

    A policy says which operations are allowed and which answers the
    process can get.  [obeys allowed answers p]: along every path of [p]
    and of the goroutines it starts, each operation is [allowed], as long
    as the operations are answered within [answers]. *)
Fixpoint obeys (allowed : forall X : Type, event X -> Prop)
    (answers : forall X : Type, event X -> X -> Prop)
    {R : Type} (p : prog R) : Prop :=
  match p with
  | Ret _ => True
  | Vis e k => allowed _ e /\ forall x, answers _ e x -> obeys allowed answers (k x)
  | Go child k => obeys allowed answers child /\ obeys allowed answers k
  end.

(** ** The site

    The two prefixes of the URLs that the crawler builds. *)

Definition resultsURL : string := "https://sirekap-obj-data.kpu.go.id/pemilu/hhcw/ppwp/".

(** [url] starts with [baseURL]. *)
Definition rooted (url : string) : bool := String.prefix baseURL url.

(** [url] starts with [baseURL] or with [resultsURL]. *)
Definition on_site (url : string) : bool :=
  String.prefix baseURL url || String.prefix resultsURL url.

(** The operations of the crawl: printing, requests on the site, wait
    groups, semaphores of capacity 1, sends, the shared error variable. *)
Definition crawl_op {X : Type} (e : event X) : bool :=
  match e with
  | EvHttpGet url => on_site url
  | EvMakeSem cap => cap =? 1
  | EvPrintln _ | EvNewWaitGroup | EvWgAdd _ _ | EvWgDone _ | EvWgWait _
  | EvSemSend _ | EvSemRecv _ | EvSend _ _
  | EvNewVar _ | EvSetVar _ _ | EvGetVar _ | EvOutOfFuel => true
  | _ => false
  end.

(** Every answer is possible. *)
Definition any_answer (X : Type) (e : event X) (x : X) : Prop := True.

(** Requests go to the site; everything else is free. *)
Definition site_only (X : Type) (e : event X) : Prop :=
  match e with
  | EvHttpGet url => on_site url = true
  | _ => True
  end.

(** Semaphores have capacity 1, channels of records capacity 20;
    everything else is free. *)
Definition small_buffers (X : Type) (e : event X) : Prop :=
  match e with
  | EvMakeSem cap => cap = 1
  | EvMakeChan cap => cap = 20
  | EvClose _ => False
  | _ => True
  end.

(** Every semaphore holds at most the one token it has room for, every
    channel at most the 20 records it has room for. *)
Definition buffers_bounded (w : world) : Prop :=
  Forall (fun c => ch_cap c = 1%nat /\ within_cap c) (sems w) /\
  Forall (fun c => ch_cap c = 20%nat /\ within_cap c) (chans w).

(** Every URL requested so far is on the site. *)
Definition requests_on_site (w : world) : Prop :=
  Forall (fun url => on_site url = true) (requests w).

(** ** A process that cannot use its collection, or that gives up at once

    Four policies, each with the answers that make the process follow it. *)

(** MongoDB is unreachable: the collection, the connection and the records
    in the channel are left alone. *)
Definition no_store_op (X : Type) (e : event X) : Prop :=
  match e with
  | EvRecv _ | EvInsertOne _ | EvCreateIndex | EvDisconnect => False
  | _ => True
  end.

(** [mongo.Connect] fails. *)
Definition connect_fails (X : Type) (e : event X) : X -> Prop :=
  match e in event X return X -> Prop with
  | EvMongoConnect _ => fun x => x <> None
  | _ => fun _ => True
  end.

(** The unique index cannot be created: no record is received, none
    inserted. *)
Definition no_insert_op (X : Type) (e : event X) : Prop :=
  match e with
  | EvRecv _ | EvInsertOne _ => False
  | _ => True
  end.

(** Creating the index fails. *)
Definition index_fails (X : Type) (e : event X) : X -> Prop :=
  match e in event X return X -> Prop with
  | EvCreateIndex => fun x => x <> None
  | _ => fun _ => True
  end.

(** There is no .env file: loading it, then the panic of [main]. *)
Definition env_panic : out := OStr "Error loading .env file".

Definition env_op (X : Type) (e : event X) : Prop :=
  match e with
  | EvLoadEnv => True
  | EvPanic v => v = env_panic
  | _ => False
  end.

(** [godotenv.Load] fails. *)
Definition env_fails (X : Type) (e : event X) : X -> Prop :=
  match e in event X return X -> Prop with
  | EvLoadEnv => fun x => x <> None
  | _ => fun _ => True
  end.

(** The root listing fails: loading the .env file, the request of the
    root listing, the line that [main] prints. *)
Definition initialURL : string := baseURL +:+ "0.json".

Definition root_op (X : Type) (e : event X) : Prop :=
  match e with
  | EvLoadEnv => True
  | EvHttpGet url => url = initialURL
  | EvPrintln args => exists e', args = [OStr "Error fetching initial locations:"; OErr e']
  | _ => False
  end.

(** The .env file loads; a listing is fetched with an error. *)
Definition root_fails (X : Type) (e : event X) : X -> Prop :=
  match e in event X return X -> Prop with
  | EvLoadEnv => fun x => x = None
  | EvHttpGet url => fun x => (decodeLocations x).2 <> None
  | _ => fun _ => True
  end.

(** ** Credit on a wait group

    A goroutine holds credit on the wait group [r]: the number of calls of
    [Done] on [r] it may still make.  [Add] raises the credit of the caller,
    [Done] uses one up, [go] hands part of it to the new goroutine. *)

Definition own (r r' : wgref) : Z := if decide (r' = r) then 1 else 0.

(** The operation [e] is in order for a goroutine with credit [b] on [r]. *)
Definition in_order (r : wgref) {X : Type} (e : event X) (b : Z) : Prop :=
  match e with
  | EvWgAdd _ d => 0 <= d
  | EvWgDone r' => own r r' <= b
  | EvMakeSem cap => 0 <= cap
  | EvMakeChan cap => 0 <= cap
  | EvPanic _ => False
  | EvClose _ => False
  | _ => True
  end.

(** The credit on [r] after [e]. *)
Definition credit_after (r : wgref) {X : Type} (e : event X) (b : Z) : Z :=
  match e with
  | EvWgAdd r' d => b + own r r' * d
  | EvWgDone r' => b - own r r'
  | _ => b
  end.

(** The answers of a process whose .env file loads and whose collection
    holds no two documents of the same id. *)
Definition sound_answer {X : Type} (e : event X) : X -> Prop :=
  match e in event X return X -> Prop with
  | EvLoadEnv => fun x => x = None
  | EvCreateIndex => fun x => x = None
  | _ => fun _ => True
  end.

(** [within_credit r p b Q]: started with credit [b] on [r], [p] performs
    only operations that are in order, and returns [x] with a credit [m]
    such that [Q x m]; each goroutine it starts gets a part of the credit
    and stays within it. *)
Fixpoint within_credit (r : wgref) {R : Type} (p : prog R) (b : Z)
    (Q : R -> Z -> Prop) : Prop :=
  match p with
  | Ret x => Q x b
  | Vis e k =>
      in_order r e b /\
      forall x, sound_answer e x -> within_credit r (k x) (credit_after r e b) Q
  | Go child k =>
      exists a, 0 <= a <= b /\
        within_credit r child a (fun _ m => 0 <= m) /\
        within_credit r k (b - a) Q
  end.

(** The sum of a list of integers. *)
Fixpoint zsum (l : list Z) : Z :=
  match l with
  | [] => 0
  | x :: l' => x + zsum l'
  end.

(** The counter of the wait group [r]; 0 when [r] does not exist yet. *)
Definition counter (r : wgref) (w : world) : Z := default 0 (wgs w !! r).

(** The goroutines of [w] share a credit on [r] that the counter of [r]
    covers. *)
Definition covered (r : wgref) (w : world) : Prop :=
  exists bs,
    Forall2 (fun p b => 0 <= b /\ within_credit r p b (fun _ m => 0 <= m)) (threads w) bs /\
    zsum bs <= counter r w.

(** What every step of the process keeps when the .env file loads and the
    collection starts without two documents of the same id: semaphores and
    channels are open, ids stay distinct, nothing has panicked, and the
    credit on every wait group is covered. *)
Definition sound_world (w : world) : Prop :=
  Forall (fun c => ch_closed c = false) (sems w) /\
  Forall (fun c => ch_closed c = false) (chans w) /\
  unique_ids (docs (db w)) = true /\
  crashed w = None /\
  forall r, covered r w.

(** A program that gives back the credit it was started with. *)
Definition balanced (r : wgref) {R : Type} (p : prog R) : Prop :=
  forall b, 0 <= b -> within_credit r p b (fun _ m => m = b).

(** An operation that is in order with any credit and leaves it as it is. *)
Definition neutral {X : Type} (e : event X) : bool :=
  match e with
  | EvWgAdd _ _ | EvWgDone _ | EvPanic _ | EvClose _ => false
  | EvMakeSem cap => 0 <=? cap
  | EvMakeChan cap => 0 <=? cap
  | _ => true
  end.

(** ** URLs of numeric codes *)

(** A string of decimal digits and slashes. *)
Definition numeric_path (s : string) : bool :=
  forallb (fun c => bool_decide (is_Some (digit_of c)) || Ascii.eqb c "/")
          (String.list_ascii_of_string s).

(** ** The goroutines of [main] *)

(** The goroutine that [main] starts for a location of the root listing. *)
Definition main_go (depth : nat) (g : wgref) (ch : chref) (loc : Location) : prog unit :=
  err ← processAndStoreLocation depth Background baseURL loc ch;
  if_err err (fun e' =>
    trigger (EvPrintln [OStr "Error processing and storing location:"; OErr e']));;
  trigger (EvWgDone g).

(** The last line that [main] prints. *)
Definition success_line : list out :=
  [OStr "All locations processed and stored successfully!"].

(** ** Bodies in the format of the structs

    The JSON object that carries a value of a struct under the tags of its
    fields, as [json.Marshal] writes it. *)

Definition encode_Location (l : Location) : json :=
  JObj [("nama", JStr (Nama l)); ("id", JNum (NInt (ID l)));
        ("kode", JStr (Kode l)); ("tingkat", JNum (NInt (Tingkat l)))].

Definition encode_Administrasi (a : Administrasi) : json :=
  JObj (map (fun f => (adm_tag f, JNum (NInt (adm_get f a)))) adm_fields).

Definition encode_Chart (c : option (gmap string Z)) : json :=
  match c with
  | None => JNull
  | Some m => JObj (map (fun kz => (kz.1, JNum (NInt kz.2))) (reverse (map_to_list m)))
  end.

Definition encode_Images (i : option (list string)) : json :=
  match i with
  | None => JNull
  | Some l => JArr (map JStr l)
  end.

Definition encode_TPSData (d : TPSData) : json :=
  JObj [("id", JNum (NInt (Id d))); ("mode", JStr (Mode d));
        ("chart", encode_Chart (Chart d)); ("images", encode_Images (Images d));
        ("administrasi", encode_Administrasi (Administrasi_ d));
        ("psu", PSU d); ("ts", JStr (TS d));
        ("status_suara", JBool (StatusSuara d)); ("status_adm", JBool (StatusAdm d))].

(** The integers of a value fit Go's [int] and [int64]. *)
Definition Location_in_range (l : Location) : bool :=
  in_int64 (ID l) && in_int64 (Tingkat l).

Definition Administrasi_in_range (a : Administrasi) : bool :=
  forallb (fun f => in_int64 (adm_get f a)) adm_fields.

Definition Chart_in_range (c : option (gmap string Z)) : Prop :=
  match c with
  | None => True
  | Some m => map_Forall (fun _ z => in_int64 z = true) m
  end.

Definition TPSData_in_range (d : TPSData) : Prop :=
  in_int64 (Id d) = true /\ Chart_in_range (Chart d) /\
  Administrasi_in_range (Administrasi_ d) = true.

(** ** More sources and worlds *)

(** A source that cannot be reached. *)
Definition unreachable_env : env := env_of (fun _ => GetErr).

(** No .env file. *)
Definition no_env_file : env := mkEnv (fun _ => GetErr) false (fun _ => "") true.

(** [small_env true] with MongoDB unreachable. *)
Definition down_env : env :=
  mkEnv (small_source true) true (fun _ => "mongodb://localhost") false.

(** A group of limit 3 with one slot in use, counting one goroutine. *)
Definition wide_group : LimitedWaitGroup := mkLimitedWaitGroup 0 3 0.

Definition wide_world : world :=
  mkWorld [] [1] [mkChan 3 [tt] false] [] [] [] [] (init_store []) None.

(** [leaf_world] with its group idle. *)
Definition idle_world : world :=
  mkWorld [] [0] [mkChan 1 [] false] [mkChan 20 [] false] [] [] [] (init_store []) None.

(** [leaf_world] with a channel of capacity 1 that is full. *)
Definition full_world : world :=
  mkWorld [] [1] [mkChan 1 [tt] false] [mkChan 1 [record_of 9] false] [] [] []
    (init_store []) None.

(** The one location of the root listing of [small_source]. *)
Definition province : Location := mkLocation "11" 1 "11" 1.

(** A result document with an entry in every collection. *)
Definition sample_record : TPSData :=
  mkTPSData 7 "hhcw" (Some {[ "100025" := 72 ]}) (Some ["a.jpg"; "b.jpg"])
    zero_Administrasi (JObj [("ulang", JBool false)]) "2024-02-14 21:00:00" true false.

(** A source that answers every request with [sample_record]. *)
Definition sample_env : env :=
  env_of (fun _ => Resp (Some (Some (encode_TPSData sample_record)))).
Example ParseInt_ex1 : ParseInt "3171011001" = (3171011001, None).
Proof. reflexivity. Qed.
Example ParseInt_ex2 : ParseInt "-12" = (-12, None).
Proof. reflexivity. Qed.
Example ParseInt_ex3 : ParseInt "12a" = (0, Some ErrSyntax).
Proof. reflexivity. Qed.
Example ParseInt_ex4 : ParseInt "9223372036854775808" = (9223372036854775807, Some ErrRange).
Proof. vm_compute. reflexivity. Qed.
Example ParseInt_ex5 : ParseInt "-9223372036854775808" = (-9223372036854775808, None).
Proof. vm_compute. reflexivity. Qed.
Example TrimRight_ex1 : TrimRight "a/11.json" ".json" = "a/11".
Proof. reflexivity. Qed.
Example ReplaceAll_ex1 : ReplaceAll "xabyabz" "ab" "Q" = "xQyQz".
Proof. reflexivity. Qed.

Example Unmarshal_TPS_ex1 :
  Unmarshal store_TPSData
    (Some (JObj [("status_suara", JBool true); ("mode", JStr "hhcw"); ("ts", JStr "t")]))
    zero_TPSData
  = (mkTPSData 0 "hhcw" None None zero_Administrasi JNull "t" true false, None).
Proof. reflexivity. Qed.

Example Unmarshal_Locations_ex1 :
  Unmarshal store_Locations
    (Some (JArr [JObj [("nama", JStr "ACEH"); ("id", JNum (NInt 1)); ("kode", JStr "11");
                       ("tingkat", JNum (NInt 1))]])) []
  = ([mkLocation "ACEH" 1 "11" 1], None).
Proof. reflexivity. Qed.


(* ===================================================================== *)
(** * Properties                                                          *)
(* ===================================================================== *)

(** ** [strconv.ParseInt] *)

Lemma ParseInt_syntax_zero s : (ParseInt s).2 = Some ErrSyntax -> (ParseInt s).1 = 0.
Proof.
  unfold ParseInt. destruct s as [|c s']; [done|].
  destruct (ParseUint _) as [un [[]|]]; simpl; [done| |];
    repeat (match goal with |- context [if ?b then _ else _] => destruct b end; simpl); done.
Qed.

Lemma ParseInt_range_bound s :
  (ParseInt s).2 = Some ErrRange -> (ParseInt s).1 = 2 ^ 63 - 1 \/ (ParseInt s).1 = - 2 ^ 63.
Proof.
  unfold ParseInt. destruct s as [|c s']; [done|].
  destruct (ParseUint _) as [un [[]|]]; simpl; [done| |];
    repeat (match goal with |- context [if ?b then _ else _] => destruct b end; simpl); auto; done.
Qed.

Lemma digit_of_range c d : digit_of c = Some d -> 0 <= d <= 9.
Proof.
  unfold digit_of. destruct (_ && _) eqn:H; [|done].
  intros [= <-]. apply andb_true_iff in H as [H1 H2]. lia.
Qed.

Lemma horner_ge s acc v : 0 <= acc -> horner s acc = Some v -> acc <= v.
Proof.
  revert acc. induction s as [|c s IH]; simpl; intros acc Hacc.
  - intros [= <-]. lia.
  - destruct (digit_of c) as [d|] eqn:Hd; [|done].
    apply digit_of_range in Hd. intros H%IH; lia.
Qed.

Lemma parseUint_loop_horner s n v :
  0 <= n -> horner s n = Some v -> v <= maxUint64 -> parseUint_loop s n = (v, None).
Proof.
  revert n. induction s as [|c s IH]; simpl; intros n Hn.
  - by intros [= <-].
  - destruct (digit_of c) as [d|] eqn:Hd; [|done].
    pose proof (digit_of_range _ _ Hd) as Hr. intros Hh Hv.
    assert (Hge : n * 10 + d <= v) by (apply (horner_ge s); [lia|done]).
    unfold maxUint64 in *.
    change (2 ^ 64) with 18446744073709551616 in *.
    change ((18446744073709551616 - 1) / 10 + 1) with 1844674407370955162.
    destruct (Z.leb_spec 1844674407370955162 n); [lia|].
    rewrite (Z.mod_small (n * 10)) by lia.
    rewrite (Z.mod_small (n * 10 + d)) by lia.
    destruct (Z.ltb_spec (n * 10 + d) (n * 10)); [lia|].
    destruct (Z.ltb_spec (18446744073709551616 - 1) (n * 10 + d)); [lia|].
    simpl. apply IH; [lia|done|lia].
Qed.

Lemma ParseUint_numeral s v :
  unsigned_numeral s = Some v -> v <= maxUint64 -> ParseUint s = (v, None).
Proof.
  destruct s as [|c s]; [done|]. unfold unsigned_numeral, ParseUint.
  apply parseUint_loop_horner. lia.
Qed.

Lemma unsigned_numeral_nonneg s v : unsigned_numeral s = Some v -> 0 <= v.
Proof. destruct s; [done|]. apply horner_ge. lia. Qed.

Lemma ParseInt_numeral s v :
  numeral s = Some v -> - 2 ^ 63 <= v < 2 ^ 63 -> ParseInt s = (v, None).
Proof.
  destruct s as [|c s']; [done|]. unfold numeral, ParseInt.
  destruct (Ascii.eqb c "-") eqn:Hm.
  - rewrite orb_true_r. destruct (unsigned_numeral s') as [u|] eqn:Hu; [|done].
    intros [= <-] Hv. pose proof (unsigned_numeral_nonneg _ _ Hu).
    rewrite (ParseUint_numeral _ _ Hu) by (unfold maxUint64; lia). simpl.
    destruct (Z.ltb_spec (2 ^ 63) u); [lia|]. done.
  - rewrite orb_false_r.
    destruct (Ascii.eqb c "+") eqn:Hp; cbv iota; intros Hu Hv;
      pose proof (unsigned_numeral_nonneg _ _ Hu);
      rewrite (ParseUint_numeral _ _ Hu) by (unfold maxUint64; lia); simpl;
      (destruct (Z.leb_spec (2 ^ 63) v); [lia|]); done.
Qed.


(** ** [strings.TrimRight] against removing a suffix *)

Lemma string_length_app s t :
  String.length (s +:+ t) = (String.length s + String.length t)%nat.
Proof. induction s as [|c s IH]; simpl; [done|by rewrite IH]. Qed.

Lemma TrimSuffix_app s suf : TrimSuffix (s +:+ suf) suf = s.
Proof.
  induction s as [|c s IH].
  - destruct suf; simpl; [done|]. by rewrite Ascii.eqb_refl, String.eqb_refl.
  - change (TrimSuffix (String c s +:+ suf) suf) with
      (if String.eqb (String c (s +:+ suf)) suf then EmptyString
       else String c (TrimSuffix (s +:+ suf) suf)).
    destruct (String.eqb_spec (String c (s +:+ suf)) suf) as [Heq|_].
    + apply (f_equal String.length) in Heq. simpl in Heq.
      rewrite string_length_app in Heq. lia.
    + by rewrite IH.
Qed.

Lemma TrimRight_all_cutset t cutset :
  forallb (in_cutset cutset) (String.list_ascii_of_string t) = true ->
  TrimRight t cutset = EmptyString.
Proof.
  induction t as [|c t IH]; simpl; [done|].
  intros [Hc Ht]%andb_true_iff. by rewrite IH, Hc.
Qed.

Lemma TrimRight_app_cutset s t cutset :
  forallb (in_cutset cutset) (String.list_ascii_of_string t) = true ->
  TrimRight (s +:+ t) cutset = TrimRight s cutset.
Proof.
  intros Ht. induction s as [|c s IH]; simpl.
  - by apply TrimRight_all_cutset.
  - by rewrite IH.
Qed.

Lemma TrimRight_last_kept s c cutset :
  in_cutset cutset c = false ->
  TrimRight (s +:+ String c EmptyString) cutset = s +:+ String c EmptyString.
Proof.
  intros Hc. induction s as [|c' s IH]; simpl.
  - by rewrite Hc.
  - rewrite IH. by destruct s.
Qed.

(** Where [TrimRight] and [TrimSuffix] agree: the stem before ".json" does
    not end in one of the bytes '.', 'j', 's', 'o', 'n'. *)
Lemma tpsURL_agrees u k stem :
  ReplaceAll u "wilayah/pemilu/ppwp" "pemilu/hhcw/ppwp" = stem +:+ ".json" ->
  TrimRight stem ".json" = stem ->
  tpsURL u k = spec_tpsURL u k.
Proof.
  intros Hu Hstem. unfold tpsURL, spec_tpsURL. rewrite Hu.
  rewrite TrimSuffix_app, TrimRight_app_cutset by done. by rewrite Hstem.
Qed.

(** ** The monad and the runner *)

(** Projections of updated worlds, and nothing else. *)
Ltac wsimpl :=
  cbn [threads wgs sems chans vars stdout requests db crashed
       with_threads with_wgs with_sems with_chans with_vars with_stdout
       with_requests with_db with_crashed ch_cap ch_buf ch_closed tail
       docs connected attempts fst snd] in *.

Ltac prog_unfold :=
  unfold mbind, prog_bind, mret, prog_ret, trigger, if_err, go_ in *.

Lemma run_bind {R S : Type} E (p : prog R) (f : R -> prog S) w :
  run E (bind p f) w =
  match run E p w with
  | (Returned r, w') => run E (f r) w'
  | (Stuck, w') => (Stuck, w')
  | (Panicked v, w') => (Panicked v, w')
  end.
Proof.
  revert S f w. induction p as [R r|R X e k IH|R c IHc k IHk]; intros S f w; simpl.
  - reflexivity.
  - destruct (handle E e w); auto.
  - destruct (run E c w) as [[?| |?] w']; auto.
Qed.

Lemma run_mbind {R S : Type} E (p : prog R) (f : R -> prog S) w :
  run E (p ≫= f) w =
  match run E p w with
  | (Returned r, w') => run E (f r) w'
  | (Stuck, w') => (Stuck, w')
  | (Panicked v, w') => (Panicked v, w')
  end.
Proof. apply run_bind. Qed.

Lemma run_mret {R : Type} E (r : R) w : run E (mret r) w = (Returned r, w).
Proof. reflexivity. Qed.

Lemma run_trigger {X : Type} E (e : event X) w :
  run E (trigger e) w =
  match handle E e w with
  | Blocked => (Stuck, w)
  | Crash v => (Panicked v, with_crashed (Some v) w)
  | Next x w' => (Returned x, w')
  end.
Proof. unfold trigger. simpl. by destruct (handle E e w). Qed.

Lemma run_go E (child : prog unit) w :
  run E (go_ child) w =
  match run E child w with
  | (Returned _, w') => (Returned tt, w')
  | (Stuck, w') => (Stuck, w')
  | (Panicked v, w') => (Panicked v, w')
  end.
Proof. unfold go_. simpl. by destruct (run E child w) as [[?| |?] ?]. Qed.

Lemma run_for_range_cons {A : Type} E (x : A) l body w :
  run E (for_range (x :: l) body) w =
  match run E (body x) w with
  | (Returned _, w') => run E (for_range l body) w'
  | (Stuck, w') => (Stuck, w')
  | (Panicked v, w') => (Panicked v, w')
  end.
Proof. simpl. apply run_bind. Qed.

(** ** Operations leave the goroutines alone *)

Lemma handle_with_threads E {X : Type} (e : event X) ts w :
  handle E e (with_threads ts w) = outcome_map (with_threads ts) (handle E e w).
Proof.
  destruct e; simpl; try done; repeat case_match; simplify_eq; done.
Qed.

Lemma handle_frame E {X : Type} (e : event X) w x w' :
  handle E e w = Next x w' -> threads w' = threads w /\ crashed w' = crashed w.
Proof.
  destruct e; simpl; repeat case_match; intros; simplify_eq; done.
Qed.

Lemma with_threads_idem ts ts' w : with_threads ts (with_threads ts' w) = with_threads ts w.
Proof. done. Qed.

Lemma exec_app E s1 s2 w :
  exec E (s1 ++ s2) w = exec E s1 w ≫= exec E s2.
Proof.
  revert w. induction s1 as [|t s1 IH]; intros w; simpl; [done|].
  destruct (step E t w); simpl; auto.
Qed.

Lemma reachable_refl E w : reachable E w w.
Proof. by exists []. Qed.

Lemma reachable_trans E w1 w2 w3 :
  reachable E w1 w2 -> reachable E w2 w3 -> reachable E w1 w3.
Proof.
  intros [s1 H1] [s2 H2]. exists (s1 ++ s2). by rewrite exec_app, H1.
Qed.

Lemma reachable_step E t w w' : step E t w = Some w' -> reachable E w w'.
Proof. intros H. exists [t]. simpl. by rewrite H. Qed.

(** Induction over the steps of an execution. *)
Lemma reachable_ind_steps E (P : world -> Prop) w :
  P w ->
  (forall t w1 w2, P w1 -> step E t w1 = Some w2 -> P w2) ->
  forall w', reachable E w w' -> P w'.
Proof.
  intros H0 Hstep w' [sched Hs]. revert w H0 Hs.
  induction sched as [|t sched IH]; intros w H0; simpl.
  - by intros [= <-].
  - destruct (step E t w) as [w1|] eqn:Ht; [|done]. eauto.
Qed.

(** ** [run] is a schedule

    A goroutine other than [main] that [run] takes to its end gets there in
    the process too: by the schedule that lets it, and each goroutine it
    starts, move without interruption. *)

Lemma run_crashed {R : Type} E (p : prog R) w r w' :
  run E p w = (Returned r, w') -> crashed w' = crashed w.
Proof.
  revert w r w'. induction p as [R r0|R X e k IH|R c IHc k IHk]; intros w r w'; simpl.
  - by intros [= _ ->].
  - destruct (handle E e w) as [|v|x w1] eqn:He; try done.
    destruct (handle_frame _ _ _ _ _ He) as [_ <-]. eauto.
  - destruct (run E c w) as [[u| |v] w1] eqn:Hc; try done.
    intros H. rewrite (IHk _ _ _ H). eauto.
Qed.

Lemma prog_unit_ind (P : prog unit -> Prop) :
  (forall r, P (Ret r)) ->
  (forall X (e : event X) k, (forall x, P (k x)) -> P (Vis e k)) ->
  (forall child k, P child -> P k -> P (Go child k)) ->
  forall p, P p.
Proof.
  intros HR HV HG.
  refine (fix go (p : prog unit) : P p :=
    match p with
    | Ret r => HR r
    | Vis e k => HV _ e k (fun x => go (k x))
    | Go c k => HG c k (go c) (go k)
    end).
Qed.

Lemma run_exec E (p : prog unit) :
  forall w ts t p0 r w',
    run E p w = (Returned r, w') ->
    crashed w = None ->
    ts !! t = Some p -> t <> 0%nat ->
    ts !! 0%nat = Some p0 -> is_ret p0 = false ->
    exists sched m,
      exec E sched (with_threads ts w)
      = Some (with_threads (<[t := Ret r]> ts ++ replicate m (Ret tt)) w').
Proof.
  induction p as [r0|X e k IH|c k IHc IHk] using prog_unit_ind;
    intros w ts t p0 r w' Hrun Hcr Ht Hne H0 Hp0; simpl in Hrun.
  - injection Hrun as -> ->. exists [], 0%nat. simpl.
    by rewrite list_insert_id, app_nil_r.
  - destruct (handle E e w) as [|v|x w1] eqn:He; try done.
    destruct (handle_frame _ _ _ _ _ He) as [_ Hcr1].
    assert (Hlt : (t < length ts)%nat) by (eapply lookup_lt_Some; eauto).
    destruct (IH x w1 (<[t := k x]> ts) t p0 r w' Hrun) as (sched & m & Hex).
    + congruence.
    + by apply list_lookup_insert_eq.
    + done.
    + by rewrite list_lookup_insert_ne.
    + done.
    + exists (t :: sched), m. simpl.
      unfold step, running, main_returned. simpl. rewrite Hcr, H0.
      destruct p0; try done; simpl; rewrite Ht, handle_with_threads, He; simpl;
        rewrite with_threads_idem, Hex; by rewrite list_insert_insert_eq.
  - destruct (run E c w) as [[u| |v] w1] eqn:Hc; try done. destruct u.
    assert (Hlt : (t < length ts)%nat) by (eapply lookup_lt_Some; eauto).
    assert (Hcr1 : crashed w1 = None) by (by rewrite (run_crashed _ _ _ _ _ Hc)).
    set (ts1 := <[t := k]> ts).
    destruct (IHc w (ts1 ++ [c]) (length ts1) p0 tt w1 Hc Hcr) as (s1 & m1 & Hex1).
    + by rewrite lookup_app_r, Nat.sub_diag.
    + unfold ts1. rewrite length_insert. lia.
    + rewrite lookup_app_l by (unfold ts1; rewrite length_insert; lia).
      unfold ts1. by rewrite list_lookup_insert_ne.
    + done.
    + set (ts2 := <[length ts1 := Ret tt]> (ts1 ++ [c]) ++ replicate m1 (Ret tt)) in *.
      assert (Hts2 : ts2 = ts1 ++ replicate (S m1) (Ret tt)).
      { unfold ts2. rewrite insert_app_r_alt, Nat.sub_diag by lia. simpl.
        by rewrite <- app_assoc. }
      destruct (IHk w1 ts2 t p0 r w' Hrun Hcr1) as (s2 & m2 & Hex2).
      * rewrite Hts2, lookup_app_l by (unfold ts1; rewrite length_insert; lia).
        unfold ts1. by apply list_lookup_insert_eq.
      * done.
      * rewrite Hts2, lookup_app_l by (unfold ts1; rewrite length_insert; lia).
        unfold ts1. by rewrite list_lookup_insert_ne.
      * done.
      * exists (t :: s1 ++ s2), (S m1 + m2)%nat. simpl.
        unfold step, running, main_returned. simpl. rewrite Hcr, H0.
        assert (Hgo : exec E (s1 ++ s2) (with_threads (ts1 ++ [c]) w)
                  = Some (with_threads (<[t:=Ret r]> ts ++ replicate (S m1 + m2) (Ret tt)) w')).
        { rewrite exec_app, Hex1. simpl. rewrite Hex2. f_equal. f_equal.
          rewrite Hts2. rewrite insert_app_l by (unfold ts1; rewrite length_insert; lia).
          unfold ts1. rewrite list_insert_insert_eq, <- app_assoc.
          by rewrite <- replicate_add. }
        destruct p0; try done; simpl; by rewrite Ht.
Qed.

(** ** A goroutine follows its own tree *)

Lemma step_thread E t' w w' t p :
  step E t' w = Some w' -> threads w !! t = Some p ->
  exists q, threads w' !! t = Some q /\ (q = p \/ residual p q).
Proof.
  unfold step. destruct (running w); [|done].
  destruct (threads w !! t') as [[r|X e k|c k]|] eqn:Ht'; try done.
  - destruct (handle E e w) as [|v|x w1] eqn:He; try done.
    + intros [= <-] Ht. eauto.
    + destruct (handle_frame _ _ _ _ _ He) as [Hts _].
      intros [= <-] Ht. simpl. rewrite Hts.
      destruct (decide (t = t')) as [->|Hne].
      * rewrite list_lookup_insert_eq by (eapply lookup_lt_Some; eauto).
        eexists; split; [done|]. right. simplify_eq. constructor.
      * rewrite list_lookup_insert_ne by done. eauto.
  - intros [= <-] Ht. simpl.
    rewrite lookup_app_l by (rewrite length_insert; eapply lookup_lt_Some; eauto).
    destruct (decide (t = t')) as [->|Hne].
    + rewrite list_lookup_insert_eq by (eapply lookup_lt_Some; eauto).
      eexists; split; [done|]. right. simplify_eq. constructor.
    + rewrite list_lookup_insert_ne by done. eauto.
Qed.

Lemma residual_follows p q tr r :
  residual p q -> follows q tr r -> exists a, follows p (a :: tr) r.
Proof. intros []; simpl; eauto 10. Qed.

(** Whatever the schedule, a goroutine that has returned has followed a
    path of its tree. *)
Lemma exec_follows E sched : forall w w' t p r,
  exec E sched w = Some w' ->
  threads w !! t = Some p -> threads w' !! t = Some (Ret r) ->
  exists tr, follows p tr r.
Proof.
  induction sched as [|t' sched IH]; intros w w' t p r; simpl.
  - intros [= <-] Hp Hr. simplify_eq. by exists [].
  - destruct (step E t' w) as [w1|] eqn:Hs; [|done]. intros Hex Hp Hr.
    destruct (step_thread _ _ _ _ _ _ Hs Hp) as (q & Hq & [->|Hres]).
    + eauto.
    + destruct (IH _ _ _ _ _ Hex Hq Hr) as [tr Htr].
      destruct (residual_follows _ _ _ _ Hres Htr) as [a Ha]. eauto.
Qed.

(** The same for a call inside a goroutine: when [run] takes the call [p]
    to its end with result [r], some schedule takes a goroutine [p ≫= K]
    of the process to [K r]. *)
Lemma run_exec_bind E {R : Type} (p : prog R) :
  forall (K : R -> prog unit) w ts t p0 r w',
    run E p w = (Returned r, w') ->
    crashed w = None ->
    ts !! t = Some (bind p K) -> t <> 0%nat ->
    ts !! 0%nat = Some p0 -> is_ret p0 = false ->
    exists sched m,
      exec E sched (with_threads ts w)
      = Some (with_threads (<[t := K r]> ts ++ replicate m (Ret tt)) w').
Proof.
  induction p as [R r0|R X e k IH|R c _ k IHk];
    intros K w ts t p0 r w' Hrun Hcr Ht Hne H0 Hp0; simpl in Hrun, Ht.
  - injection Hrun as -> ->. exists [], 0%nat. simpl.
    by rewrite list_insert_id, app_nil_r.
  - destruct (handle E e w) as [|v|x w1] eqn:He; try done.
    destruct (handle_frame _ _ _ _ _ He) as [_ Hcr1].
    assert (Hlt : (t < length ts)%nat) by (eapply lookup_lt_Some; eauto).
    destruct (IH x K w1 (<[t := bind (k x) K]> ts) t p0 r w' Hrun) as (sched & m & Hex).
    + congruence.
    + by apply list_lookup_insert_eq.
    + done.
    + by rewrite list_lookup_insert_ne.
    + done.
    + exists (t :: sched), m. simpl.
      unfold step, running, main_returned. simpl. rewrite Hcr, H0.
      destruct p0; try done; simpl; rewrite Ht, handle_with_threads, He; simpl;
        rewrite with_threads_idem, Hex; by rewrite list_insert_insert_eq.
  - destruct (run E c w) as [[u| |v] w1] eqn:Hc; try done. destruct u.
    assert (Hlt : (t < length ts)%nat) by (eapply lookup_lt_Some; eauto).
    assert (Hcr1 : crashed w1 = None) by (by rewrite (run_crashed _ _ _ _ _ Hc)).
    set (ts1 := <[t := bind k K]> ts).
    destruct (run_exec E c w (ts1 ++ [c]) (length ts1) p0 tt w1 Hc Hcr) as (s1 & m1 & Hex1).
    + by rewrite lookup_app_r, Nat.sub_diag.
    + unfold ts1. rewrite length_insert. lia.
    + rewrite lookup_app_l by (unfold ts1; rewrite length_insert; lia).
      unfold ts1. by rewrite list_lookup_insert_ne.
    + done.
    + set (ts2 := <[length ts1 := Ret tt]> (ts1 ++ [c]) ++ replicate m1 (Ret tt)) in *.
      assert (Hts2 : ts2 = ts1 ++ replicate (S m1) (Ret tt)).
      { unfold ts2. rewrite insert_app_r_alt, Nat.sub_diag by lia. simpl.
        by rewrite <- app_assoc. }
      destruct (IHk K w1 ts2 t p0 r w' Hrun Hcr1) as (s2 & m2 & Hex2).
      * rewrite Hts2, lookup_app_l by (unfold ts1; rewrite length_insert; lia).
        unfold ts1. by apply list_lookup_insert_eq.
      * done.
      * rewrite Hts2, lookup_app_l by (unfold ts1; rewrite length_insert; lia).
        unfold ts1. by rewrite list_lookup_insert_ne.
      * done.
      * exists (t :: s1 ++ s2), (S m1 + m2)%nat. simpl.
        unfold step, running, main_returned. simpl. rewrite Hcr, H0.
        assert (Hgo : exec E (s1 ++ s2) (with_threads (ts1 ++ [c]) w)
                  = Some (with_threads (<[t:=K r]> ts ++ replicate (S m1 + m2) (Ret tt)) w')).
        { rewrite exec_app, Hex1. simpl. rewrite Hex2. f_equal. f_equal.
          rewrite Hts2. rewrite insert_app_l by (unfold ts1; rewrite length_insert; lia).
          unfold ts1. rewrite list_insert_insert_eq, <- app_assoc.
          by rewrite <- replicate_add. }
        destruct p0; try done; simpl; by rewrite Ht.
Qed.

(** ** The leaf goroutine *)

Lemma run_fetchDataTPS E u w :
  run E (fetchDataTPS u) w = (Returned (decodeTPS (remote E u)), after_fetch u w).
Proof. reflexivity. Qed.

Lemma chan_eta {A : Type} (c : chan_state A) :
  mkChan (ch_cap c) (ch_buf c) (ch_closed c) = c.
Proof. by destruct c. Qed.

(** The goroutine of one leaf, run from a world where its semaphore holds a
    token, its wait group counts it, and the channel has room for what it
    sends: it fetches once, sends what [leaf_sends] says, frees its slot. *)
Lemma leaf_run E wg2 url ch subLoc w c s n :
  chans w !! ch = Some c -> ch_closed c = false ->
  (length (ch_buf c) + length (leaf_sends E url subLoc) <= ch_cap c)%nat ->
  sems w !! sem wg2 = Some s -> ch_buf s <> [] ->
  wgs w !! wg wg2 = Some n -> 1 <= n ->
  exists w',
    run E (fetchAndStoreTPS_go wg2 url ch subLoc) w = (Returned tt, w') /\
    chans w' = <[ch := mkChan (ch_cap c) (ch_buf c ++ leaf_sends E url subLoc) false]> (chans w) /\
    sems w' = <[sem wg2 := mkChan (ch_cap s) (tail (ch_buf s)) (ch_closed s)]> (sems w) /\
    wgs w' = <[wg wg2 := n - 1]> (wgs w) /\
    vars w' = vars w /\ db w' = db w /\ crashed w' = crashed w /\
    requests w' = requests w ++ [tpsURL url (Kode subLoc)].
Proof.
  intros Hc Hopen Hroom Hs Htok Hn Hn1.
  unfold fetchAndStoreTPS_go. prog_unfold.
  rewrite run_bind, run_fetchDataTPS.
  unfold leaf_sends, leaf_record in *.
  destruct (decodeTPS (remote E (tpsURL url (Kode subLoc)))) as [data err].
  assert (Hge : (n - 1 <? 0) = false) by (apply Z.ltb_ge; lia).
  destruct s as [scap [|[] sbuf] sclosed]; [done|]. simpl in *.
  destruct err as [e|], (StatusSuara data) eqn:Hflag; simpl in *;
    unfold chan_send, chan_recv; simpl;
    repeat (first [rewrite Hc|rewrite Hopen|rewrite Hs|rewrite Hn|rewrite Hge]; simpl);
    try (destruct (Nat.ltb_spec (length (ch_buf c)) (ch_cap c)); [|lia]); simpl;
    repeat (first [rewrite Hc|rewrite Hopen|rewrite Hs|rewrite Hn|rewrite Hge]; simpl).
  all: eexists; split; [reflexivity|]; simpl.
  all: rewrite ?app_nil_r, <- ?Hopen, ?chan_eta, ?(list_insert_id _ _ _ Hc); done.
Qed.

(** ** [fetchAndStoreTPS], its goroutines run one after the other *)

Lemma run_Add_1 E lwg w :
  limit lwg = 1 ->
  wgs w !! wg lwg = Some 0 ->
  sems w !! sem lwg = Some (mkChan 1 [] false) ->
  run E (LWG.Add lwg 1) w
  = (Returned tt,
     with_sems (<[sem lwg := mkChan 1 [tt] false]> (sems w))
       (with_wgs (<[wg lwg := 1]> (wgs w)) w)).
Proof.
  intros Hl Hw Hs. unfold LWG.Add. rewrite Hl. simpl. prog_unfold. simpl.
  rewrite Hw. simpl. rewrite Hs. reflexivity.
Qed.

Lemma tps_loop E wg2 url ch subLocs : forall w c,
  limit wg2 = 1 ->
  wgs w !! wg wg2 = Some 0 ->
  sems w !! sem wg2 = Some (mkChan 1 [] false) ->
  chans w !! ch = Some c -> ch_closed c = false ->
  (length (ch_buf c) + length (flat_map (leaf_sends E url) subLocs) <= ch_cap c)%nat ->
  exists w',
    run E (for_range subLocs (fun subLoc =>
             LWG.Add wg2 1;; go_ (fetchAndStoreTPS_go wg2 url ch subLoc))) w
    = (Returned tt, w') /\
    chans w' = <[ch := mkChan (ch_cap c) (ch_buf c ++ flat_map (leaf_sends E url) subLocs) false]>
                 (chans w) /\
    sems w' = sems w /\ wgs w' = wgs w /\ vars w' = vars w /\
    db w' = db w /\ crashed w' = crashed w.
Proof.
  induction subLocs as [|subLoc rest IH]; intros w c Hl Hw Hs Hc Hopen Hroom.
  - exists w. simpl. rewrite app_nil_r, <- Hopen, chan_eta, (list_insert_id _ _ _ Hc). done.
  - rewrite run_for_range_cons, run_mbind, run_Add_1, run_go by done.
    set (w2 := with_sems _ _).
    change (flat_map (leaf_sends E url) (subLoc :: rest))
      with (leaf_sends E url subLoc ++ flat_map (leaf_sends E url) rest) in *.
    rewrite length_app in Hroom.
    destruct (leaf_run E wg2 url ch subLoc w2 c (mkChan 1 [tt] false) 1)
      as (w3 & Hrun & Hch3 & Hs3 & Hw3 & Hv3 & Hdb3 & Hcr3 & _); try done.
    { lia. }
    { unfold w2. wsimpl. apply list_lookup_insert_eq. eapply lookup_lt_Some; eauto. }
    { unfold w2. wsimpl. apply list_lookup_insert_eq. eapply lookup_lt_Some; eauto. }
    rewrite Hrun. clear Hrun. subst w2. wsimpl.
    rewrite list_insert_insert_eq in Hs3. rewrite list_insert_insert_eq in Hw3.
    change (1 - 1) with 0 in Hw3.
    rewrite (list_insert_id _ _ _ Hs) in Hs3. rewrite (list_insert_id _ _ _ Hw) in Hw3.
    destruct (IH w3 (mkChan (ch_cap c) (ch_buf c ++ leaf_sends E url subLoc) false))
      as (w' & Hrun' & Hch' & Hs' & Hw' & Hv' & Hdb' & Hcr'); try done.
    { congruence. }
    { congruence. }
    { rewrite Hch3. apply list_lookup_insert_eq. eapply lookup_lt_Some; eauto. }
    { wsimpl. rewrite length_app. lia. }
    exists w'. split; [done|]. wsimpl.
    rewrite Hch', Hch3, list_insert_insert_eq, <- app_assoc.
    repeat split; congruence.
Qed.

Lemma run_NewLimitedWaitGroup_1 E w :
  run E (NewLimitedWaitGroup 1) w
  = (Returned (mkLimitedWaitGroup (length (wgs w)) 1 (length (sems w))),
     with_sems (sems w ++ [mkChan 1 [] false]) (with_wgs (wgs w ++ [0]) w)).
Proof. reflexivity. Qed.

Lemma run_fetchLocations E url w :
  run E (fetchLocations url) w
  = (Returned (decodeLocations (remote E url)), with_requests (requests w ++ [url]) w).
Proof. reflexivity. Qed.

Lemma grows_same ch w w' c :
  chans w !! ch = Some c ->
  chans w' = chans w -> wgs w' = wgs w -> sems w' = sems w ->
  db w' = db w -> crashed w' = crashed w ->
  grows ch [] w w'.
Proof.
  intros Hc Hch Hw Hs Hdb Hcr. repeat split; try done.
  - exists c. by rewrite app_nil_r, chan_eta, (list_insert_id _ _ _ Hc).
  - exists []. by rewrite app_nil_r.
  - exists []. by rewrite app_nil_r.
Qed.

Lemma grows_trans ch r1 r2 w1 w2 w3 :
  grows ch r1 w1 w2 -> grows ch r2 w2 w3 -> grows ch (r1 ++ r2) w1 w3.
Proof.
  intros ((c & Hc & Hch) & (x1 & Hw) & (y1 & Hs) & Hdb & Hcr)
         ((c' & Hc' & Hch') & (x2 & Hw') & (y2 & Hs') & Hdb' & Hcr').
  rewrite Hch, list_lookup_insert_eq in Hc' by (eapply lookup_lt_Some; eauto).
  injection Hc' as <-.
  repeat split; try congruence.
  - exists c. split; [done|]. rewrite Hch', Hch. wsimpl.
    by rewrite list_insert_insert_eq, app_assoc.
  - exists (x1 ++ x2). by rewrite Hw', Hw, app_assoc.
  - exists (y1 ++ y2). by rewrite Hs', Hs, app_assoc.
Qed.

(** A terminal-level location, its leaves fetched one after the other:
    [fetchAndStoreTPS] returns the error of its listing fetch, [nil] when
    that succeeded, and the channel has received [tps_sends]. *)
Lemma fetchAndStoreTPS_run E ctx burl loc ch w c :
  chans w !! ch = Some c -> ch_closed c = false ->
  (length (ch_buf c) + length (tps_sends E burl loc) <= ch_cap c)%nat ->
  exists w',
    run E (fetchAndStoreTPS ctx burl loc ch) w
    = (Returned (decodeLocations (remote E (burl +:+ Kode loc +:+ ".json"))).2, w') /\
    grows ch (tps_sends E burl loc) w w'.
Proof.
  intros Hc Hopen Hroom. unfold fetchAndStoreTPS, tps_sends in *.
  rewrite run_mbind, run_fetchLocations.
  destruct (decodeLocations _) as [subLocs [e|]].
  - rewrite run_mret. eexists. split; [done|]. by apply (grows_same ch _ _ c).
  - rewrite run_mbind, run_NewLimitedWaitGroup_1, run_mbind. wsimpl.
    set (w1 := with_sems _ _).
    destruct (tps_loop E (mkLimitedWaitGroup (length (wgs w)) 1 (length (sems w)))
                (burl +:+ Kode loc +:+ ".json") ch subLocs w1 c)
      as (w' & Hrun & Hch & Hs & Hw & Hv & Hdb & Hcr); try done.
    { unfold w1. wsimpl. by rewrite lookup_app_r, Nat.sub_diag. }
    { unfold w1. wsimpl. by rewrite lookup_app_r, Nat.sub_diag. }
    rewrite Hrun, run_mret. eexists. split; [done|]. subst w1. wsimpl.
    repeat split; try done.
    + exists c. by rewrite Hopen.
    + by exists [0].
    + by eexists.
Qed.

(** ** [processAndStoreLocation], its goroutines run one after the other *)

Lemma run_Done_1 E lwg w :
  wgs w !! wg lwg = Some 1 ->
  sems w !! sem lwg = Some (mkChan 1 [tt] false) ->
  run E (LWG.Done lwg) w
  = (Returned tt,
     with_wgs (<[wg lwg := 0]> (wgs w))
       (with_sems (<[sem lwg := mkChan 1 [] false]> (sems w)) w)).
Proof.
  intros Hw Hs. unfold LWG.Done. prog_unfold. simpl.
  rewrite Hs. simpl. rewrite Hw. reflexivity.
Qed.

Section LocLoop.

Variable E : env.
Variable ch : chref.
Variable call : Location -> prog error.
Variable sends : Location -> option (list TPSData).

Hypothesis call_run : forall subLoc recs w c,
  sends subLoc = Some recs ->
  chans w !! ch = Some c -> ch_closed c = false ->
  (length (ch_buf c) + length recs <= ch_cap c)%nat ->
  exists r w', run E (call subLoc) w = (Returned r, w') /\ grows ch recs w w'.

Variable g : LimitedWaitGroup.
Variable url : string.
Variable errv : varref.

Lemma loc_body subLoc recs w c :
  sends subLoc = Some recs ->
  limit g = 1 ->
  wgs w !! wg g = Some 0 ->
  sems w !! sem g = Some (mkChan 1 [] false) ->
  chans w !! ch = Some c -> ch_closed c = false ->
  (length (ch_buf c) + length recs <= ch_cap c)%nat ->
  exists w',
    run E (LWG.Add g 1;; go_ (loc_go call g url errv subLoc)) w = (Returned tt, w') /\
    grows ch recs w w' /\
    wgs w' !! wg g = Some 0 /\
    sems w' !! sem g = Some (mkChan 1 [] false).
Proof.
  intros Hsends Hl Hw Hs Hc Hopen Hroom.
  rewrite run_mbind, run_Add_1, run_go by done. unfold loc_go.
  rewrite run_mbind, run_trigger. cbn [handle].
  set (w2 := with_stdout _ _).
  destruct (call_run subLoc recs w2 c Hsends) as (r & w3 & Hrun & Hg); try done.
  rewrite run_mbind, Hrun, run_mbind, run_trigger. cbn [handle].
  rewrite run_mbind, run_trigger. cbn [handle].
  destruct Hg as ((c' & Hc' & Hch) & (x & Hwx) & (y & Hsy) & Hdb & Hcr).
  subst w2. wsimpl. simplify_eq.
  assert (Hlw : (wg g < length (wgs w))%nat) by (eapply lookup_lt_Some; eauto).
  assert (Hls : (sem g < length (sems w))%nat) by (eapply lookup_lt_Some; eauto).
  assert (Hd : forall w5, wgs w5 = wgs w3 -> sems w5 = sems w3 -> chans w5 = chans w3 ->
                db w5 = db w3 -> crashed w5 = crashed w3 ->
            exists w', run E (LWG.Done g) w5 = (Returned tt, w') /\
              grows ch recs w w' /\ wgs w' !! wg g = Some 0 /\
              sems w' !! sem g = Some (mkChan 1 [] false)).
  { intros w5 H1 H2 H3 H4 H5. rewrite run_Done_1.
    - eexists. split; [done|]. wsimpl. rewrite H1, H2, Hwx, Hsy.
      rewrite !insert_app_l by (rewrite length_insert; lia).
      rewrite !list_insert_insert_eq.
      rewrite (list_insert_id _ _ _ Hw), (list_insert_id _ _ _ Hs).
      repeat split; wsimpl; try (by eexists); try congruence.
      + exists c. split; [done|]. congruence.
      + by rewrite lookup_app_l.
      + by rewrite lookup_app_l.
    - rewrite H1, Hwx, lookup_app_l by (rewrite length_insert; lia).
      by apply list_lookup_insert_eq.
    - rewrite H2, Hsy, lookup_app_l by (rewrite length_insert; lia).
      by apply list_lookup_insert_eq. }
  rewrite run_mbind. unfold if_err.
  destruct (default nil_error _) as [e'|]; [rewrite run_trigger; cbn [handle]|rewrite run_mret].
  - edestruct Hd as (w' & -> & Hg'); [..|by exists w']; done.
  - edestruct Hd as (w' & -> & Hg'); [..|by exists w']; done.
Qed.

Lemma loc_loop subLocs : forall recs w c,
  collect sends subLocs = Some recs ->
  limit g = 1 ->
  wgs w !! wg g = Some 0 ->
  sems w !! sem g = Some (mkChan 1 [] false) ->
  chans w !! ch = Some c -> ch_closed c = false ->
  (length (ch_buf c) + length recs <= ch_cap c)%nat ->
  exists w',
    run E (for_range subLocs (fun subLoc => LWG.Add g 1;; go_ (loc_go call g url errv subLoc))) w
    = (Returned tt, w') /\
    grows ch recs w w' /\
    wgs w' !! wg g = Some 0 /\
    sems w' !! sem g = Some (mkChan 1 [] false).
Proof.
  induction subLocs as [|subLoc rest IH]; intros recs w c Hcol Hl Hw Hs Hc Hopen Hroom.
  - injection Hcol as <-. exists w. repeat split; try done.
    + exists c. by rewrite app_nil_r, chan_eta, (list_insert_id _ _ _ Hc).
    + exists []. by rewrite app_nil_r.
    + exists []. by rewrite app_nil_r.
  - simpl in Hcol.
    destruct (sends subLoc) as [a|] eqn:Ha; [|done].
    destruct (collect sends rest) as [b|] eqn:Hb; [|done].
    injection Hcol as <-. rewrite length_app in Hroom.
    destruct (loc_body subLoc a w c) as (w1 & Hrun1 & Hg1 & Hw1 & Hs1); try done; [lia|].
    rewrite run_for_range_cons, Hrun1.
    pose proof Hg1 as ((c0 & Hc0 & Hch1) & _). simplify_eq.
    destruct (IH b w1 (mkChan (ch_cap c) (ch_buf c ++ a) (ch_closed c)))
      as (w' & Hrun' & Hg' & Hw' & Hs'); try done.
    { rewrite Hch1. apply list_lookup_insert_eq. eapply lookup_lt_Some; eauto. }
    { wsimpl. rewrite length_app. lia. }
    exists w'. split; [done|]. split; [by eapply grows_trans|done].
Qed.

End LocLoop.

(** A whole subtree, every goroutine run to its end where it is started:
    [processAndStoreLocation] returns the error of its own listing fetch,
    [nil] when that succeeded, and the channel has received what
    [crawl_sends] lists. *)
Lemma crawl_run E ctx ch : forall fuel burl loc recs w c,
  crawl_sends E fuel burl loc = Some recs ->
  chans w !! ch = Some c -> ch_closed c = false ->
  (length (ch_buf c) + length recs <= ch_cap c)%nat ->
  exists w',
    run E (processAndStoreLocation fuel ctx burl loc ch) w
    = (Returned (decodeLocations (remote E (burl +:+ Kode loc +:+ ".json"))).2, w') /\
    grows ch recs w w'.
Proof.
  induction fuel as [|n IH]; intros burl loc recs w c Hsends Hc Hopen Hroom.
  all: cbn [processAndStoreLocation crawl_sends] in *.
  all: rewrite run_mbind, run_fetchLocations.
  all: destruct (decodeLocations _) as [subLocs [e|]].
  all: try (injection Hsends as <-; rewrite run_mret; eexists; split; [done|];
            by apply (grows_same ch _ _ c)).
  all: rewrite run_mbind, run_trigger; cbn [handle].
  all: rewrite run_mbind, run_NewLimitedWaitGroup_1, run_mbind; wsimpl.
  all: set (url := burl +:+ Kode loc +:+ ".json") in *.
  all: set (g := mkLimitedWaitGroup (length (wgs w)) 1 (length (sems w))).
  all: set (w1 := with_sems _ _).
  all: match type of Hsends with collect ?f _ = _ => set (sends := f) in * end.
  - destruct (loc_loop E ch
                (fun subLoc =>
                   if Tingkat subLoc =? 4
                   then fetchAndStoreTPS ctx (TrimRight url ".json" +:+ "/") subLoc ch
                   else out_of_fuel) sends) with
      (g := g) (url := url) (errv := length (vars w)) (subLocs := subLocs)
      (recs := recs) (w := w1) (c := c)
      as (w' & Hrun & Hg & Hw' & Hs'); try done.
    { intros subLoc rs w0 c0 Hrs Hc0 Ho0 Hr0. unfold sends in Hrs.
      destruct (Tingkat subLoc =? 4); [|done]. injection Hrs as <-.
      edestruct fetchAndStoreTPS_run as (w2 & Hrun2 & Hg2); eauto. }
    { unfold w1. wsimpl. by rewrite lookup_app_r, Nat.sub_diag. }
    { unfold w1. wsimpl. by rewrite lookup_app_r, Nat.sub_diag. }
    unfold loc_go in Hrun. rewrite Hrun, run_mbind.
    unfold LWG.Wait. rewrite run_trigger. cbn [handle]. rewrite Hw', run_mret.
    eexists. split; [done|].
    destruct Hg as ((c' & Hc' & Hch) & (x & Hwx) & (y & Hsy) & Hdb & Hcr).
    subst w1. wsimpl. simplify_eq.
    repeat split; try done.
    + by exists c.
    + exists ([0] ++ x). by rewrite Hwx, <- app_assoc.
    + eexists. by rewrite Hsy, <- app_assoc.
  - destruct (loc_loop E ch
                (fun subLoc =>
                   if Tingkat subLoc =? 4
                   then fetchAndStoreTPS ctx (TrimRight url ".json" +:+ "/") subLoc ch
                   else processAndStoreLocation n ctx (TrimRight url ".json" +:+ "/") subLoc ch)
                sends) with
      (g := g) (url := url) (errv := length (vars w)) (subLocs := subLocs)
      (recs := recs) (w := w1) (c := c)
      as (w' & Hrun & Hg & Hw' & Hs'); try done.
    { intros subLoc rs w0 c0 Hrs Hc0 Ho0 Hr0. unfold sends in Hrs.
      destruct (Tingkat subLoc =? 4).
      - injection Hrs as <-.
        edestruct fetchAndStoreTPS_run as (w2 & Hrun2 & Hg2); eauto.
      - edestruct IH as (w2 & Hrun2 & Hg2); eauto. }
    { unfold w1. wsimpl. by rewrite lookup_app_r, Nat.sub_diag. }
    { unfold w1. wsimpl. by rewrite lookup_app_r, Nat.sub_diag. }
    unfold loc_go in Hrun. rewrite Hrun, run_mbind.
    unfold LWG.Wait. rewrite run_trigger. cbn [handle]. rewrite Hw', run_mret.
    eexists. split; [done|].
    destruct Hg as ((c' & Hc' & Hch) & (x & Hwx) & (y & Hsy) & Hdb & Hcr).
    subst w1. wsimpl. simplify_eq.
    repeat split; try done.
    + by exists c.
    + exists ([0] ++ x). by rewrite Hwx, <- app_assoc.
    + eexists. by rewrite Hsy, <- app_assoc.
Qed.

(** ** Channels stay within their capacity *)

Lemma chan_send_within {A : Type} (c c' : chan_state A) x :
  chan_send c x = Some (Some c') ->
  ch_cap c' = ch_cap c /\ ch_buf c' = ch_buf c ++ [x] /\ within_cap c'.
Proof.
  unfold chan_send, within_cap. destruct (ch_closed c); [done|].
  destruct (Nat.ltb_spec (length (ch_buf c)) (ch_cap c)); [|done].
  intros [= <-]. simpl. rewrite length_app. simpl. repeat split; lia.
Qed.

Lemma chan_recv_within {A : Type} (c c' : chan_state A) x :
  chan_recv c = Some (x, c') ->
  ch_cap c' = ch_cap c /\ (length (ch_buf c') <= length (ch_buf c))%nat /\
  ch_closed c' = ch_closed c.
Proof.
  unfold chan_recv. destruct (ch_buf c) as [|y rest] eqn:Hb.
  - destruct (ch_closed c) eqn:Hcl; [|done]. intros ?; simplify_eq. by rewrite Hb.
  - intros ?; simplify_eq. simpl. repeat split; lia.
Qed.

Lemma handle_sem_ok E {X : Type} (e : event X) i N w x w' :
  sem_ok i N w -> handle E e w = Next x w' -> sem_ok i N w'.
Proof.
  intros (c & Hc & Hcap & Hin).
  assert (Hlt : (i < length (sems w))%nat) by (eapply lookup_lt_Some; eauto).
  destruct e; simpl; repeat case_match; intros; simplify_eq; unfold sem_ok; wsimpl.
  all: try (by exists c).
  all: try (exists c; by rewrite lookup_app_l).
  all: try match goal with H : chan_send _ _ = _ |- _ =>
             apply chan_send_within in H as (? & ? & ?) end.
  all: try match goal with H : chan_recv _ = _ |- _ =>
             apply chan_recv_within in H as (? & ? & ?) end.
  all: match goal with |- context [<[?j := _]> (sems _)] =>
         destruct (decide (i = j)) as [->|Hne];
         [simplify_eq; eexists; rewrite list_lookup_insert_eq by done;
          split; [done|]; split; [congruence|]; unfold within_cap in *; lia
         |exists c; by rewrite list_lookup_insert_ne]
       end.
Qed.

Lemma step_sem_ok E t i N w w' :
  sem_ok i N w -> step E t w = Some w' -> sem_ok i N w'.
Proof.
  intros Hok. unfold step. destruct (running w); [|done].
  destruct (threads w !! t) as [[r|X e k|c k]|]; try done.
  - destruct (handle E e w) as [|v|x w1] eqn:He; try done.
    + by intros [= <-].
    + intros [= <-]. by apply (handle_sem_ok _ _ _ _ _ _ _ Hok) in He.
  - by intros [= <-].
Qed.

Lemma reachable_sem_ok E i N w w' :
  sem_ok i N w -> reachable E w w' -> sem_ok i N w'.
Proof.
  intros Hok. apply reachable_ind_steps; [done|].
  intros t w1 w2 H1 Hs. by eapply step_sem_ok.
Qed.

(** ** No channel is ever closed, no completion ever reported *)

Lemma tame_bind {R S : Type} (p : prog R) (f : R -> prog S) :
  tame p -> (forall r, tame (f r)) -> tame (bind p f).
Proof.
  revert S f. induction p as [R r|R X e k IH|R c IHc k IHk]; intros S f; simpl.
  - auto.
  - intros [He Hk] Hf. split; [done|]. intros x Hx. apply IH; auto.
  - intros [Hc Hk] Hf. split; [done|]. apply IHk; auto.
Qed.

Lemma tame_mbind {R S : Type} (p : prog R) (f : R -> prog S) :
  tame p -> (forall r, tame (f r)) -> tame (p ≫= f).
Proof. apply tame_bind. Qed.

Lemma tame_trigger {X : Type} (e : event X) :
  harmless e = true -> tame (trigger e).
Proof. intros He. simpl. split; [done|]. by intros. Qed.

Lemma tame_go child : tame child -> tame (go_ child).
Proof. by split. Qed.

Lemma tame_for_range {A : Type} (l : list A) body :
  (forall x, tame (body x)) -> tame (for_range l body).
Proof.
  intros Hb. induction l as [|x l IH]; simpl; [done|].
  apply tame_bind; auto.
Qed.

Lemma tame_if_err e body :
  (forall e', tame (body e')) -> tame (if_err e body).
Proof. destruct e; simpl; auto. Qed.

Lemma tame_panic {R : Type} v : tame (@panic R v).
Proof. simpl. split; [done|]. by intros []. Qed.

Lemma tame_out_of_fuel {R : Type} : tame (@out_of_fuel R).
Proof. simpl. split; [done|]. by intros []. Qed.

(** One statement of a sequence: the operation is harmless, go on. *)
Ltac qseq := apply tame_mbind; [by apply tame_trigger|].

Lemma tame_acquire n s : tame (LWG.acquire n s).
Proof. induction n; simpl; [done|]. split; [done|]. intros _ _. apply IHn. Qed.

Lemma tame_Add lwg delta : tame (LWG.Add lwg delta).
Proof.
  unfold LWG.Add. destruct (limit lwg <? delta); [exact (tame_panic _)|].
  qseq. intros _. exact (tame_acquire _ _).
Qed.

Lemma tame_Done lwg : tame (LWG.Done lwg).
Proof. unfold LWG.Done. qseq. intros _. by apply tame_trigger. Qed.

Lemma tame_NewLimitedWaitGroup lim : tame (NewLimitedWaitGroup lim).
Proof. unfold NewLimitedWaitGroup. qseq. intros w. qseq. done. Qed.

Lemma tame_fetchLocations url : tame (fetchLocations url).
Proof. unfold fetchLocations. qseq. done. Qed.

Lemma tame_fetchDataTPS url : tame (fetchDataTPS url).
Proof. unfold fetchDataTPS. qseq. intros _. qseq. done. Qed.

Lemma tame_insertData_range fuel ctx ch : tame (insertData_range fuel ctx ch).
Proof.
  induction fuel as [|n IH]; simpl; [split; [done|by intros []]|].
  split; [done|]. intros [d|] Hd; [|done]. simpl.
  split; [done|]. intros [e|] _; [done|]. apply IH.
Qed.

Lemma tame_insertData fuel ctx ch : tame (insertData fuel ctx ch).
Proof.
  unfold insertData. qseq. intros uri. qseq. intros [e|].
  - qseq. done.
  - qseq. intros [e|].
    + qseq. intros _. exact (tame_panic _).
    + apply tame_mbind; [exact (tame_insertData_range _ _ _)|]. intros r. qseq. done.
Qed.

Lemma tame_fetchAndStoreTPS_go wg2 url ch subLoc :
  tame (fetchAndStoreTPS_go wg2 url ch subLoc).
Proof.
  unfold fetchAndStoreTPS_go. apply tame_mbind; [exact (tame_fetchDataTPS _)|]. intros [data err].
  apply tame_mbind; [apply tame_if_err; intros e; by apply tame_trigger|]. intros _.
  apply tame_mbind; [destruct (StatusSuara _) eqn:Hflag; [by apply tame_trigger|done]|].
  intros _.
  exact (tame_Done _).
Qed.

Lemma tame_fetchAndStoreTPS ctx burl loc ch : tame (fetchAndStoreTPS ctx burl loc ch).
Proof.
  unfold fetchAndStoreTPS. apply tame_mbind; [exact (tame_fetchLocations _)|]. intros [subLocs [e|]]; [done|].
  apply tame_mbind; [exact (tame_NewLimitedWaitGroup _)|]. intros wg2.
  apply tame_mbind; [|done]. apply tame_for_range. intros subLoc.
  apply tame_mbind; [exact (tame_Add _ _)|]. intros _.
  apply tame_go. exact (tame_fetchAndStoreTPS_go _ _ _ _).
Qed.

Lemma tame_processAndStoreLocation fuel ctx ch :
  forall burl loc, tame (processAndStoreLocation fuel ctx burl loc ch).
Proof.
  induction fuel as [|n IH]; intros burl loc; cbn [processAndStoreLocation].
  all: apply tame_mbind; [exact (tame_fetchLocations _)|]; intros [subLocs [e|]]; [done|].
  all: qseq; intros errv.
  all: apply tame_mbind; [exact (tame_NewLimitedWaitGroup _)|]; intros g.
  all: apply tame_mbind; [|intros _; qseq; done].
  all: apply tame_for_range; intros subLoc.
  all: apply tame_mbind; [exact (tame_Add _ _)|]; intros _.
  all: apply tame_go.
  all: qseq; intros _.
  all: apply tame_mbind;
    [|intros e0; qseq; intros _; qseq; intros v;
      apply tame_mbind; [apply tame_if_err; intros e'; by apply tame_trigger|];
      intros _; exact (tame_Done _)].
  all: destruct (Tingkat subLoc =? 4);
    first [exact (tame_fetchAndStoreTPS _ _ _ _) | exact tame_out_of_fuel | exact (IH _ _)].
Qed.

Lemma tame_main depth fuel : tame (main depth fuel).
Proof.
  unfold main. qseq. intros [e|]; [exact (tame_panic _)|].
  apply tame_mbind; [exact (tame_fetchLocations _)|]. intros [locs [e|]]; [by apply tame_trigger|].
  qseq. intros dataChannel.
  apply tame_mbind;
    [apply tame_go; apply tame_mbind; [exact (tame_insertData _ _ _)|done]|]. intros _.
  qseq. intros wg0.
  apply tame_mbind; [|intros _; qseq; intros _; by apply tame_trigger].
  apply tame_for_range. intros loc.
  qseq. intros _. apply tame_go.
  apply tame_mbind; [exact (tame_processAndStoreLocation _ _ _ _ _)|]. intros err.
  apply tame_mbind; [apply tame_if_err; intros e'; by apply tame_trigger|]. intros _.
  by apply tame_trigger.
Qed.

Lemma existsb_snoc {A : Type} (f : A -> bool) l x :
  existsb f (l ++ [x]) = existsb f l || f x.
Proof. rewrite existsb_app. simpl. by rewrite orb_false_r. Qed.

Lemma confirmed_snoc ds d : confirmed ds -> StatusSuara d = true -> confirmed (ds ++ [d]).
Proof. intros Hds Hd. apply Forall_app. split; [done|by repeat constructor]. Qed.

(** A harmless operation keeps the channels open, "Ended" unprinted and the
    records confirmed, and its answer is one after which the program stays
    tame. *)
Lemma handle_tame E {X : Type} (e : event X) w x w' :
  harmless e = true ->
  all_open w -> ended_printed w = false -> confirmed_only w ->
  handle E e w = Next x w' ->
  all_open w' /\ ended_printed w' = false /\ confirmed_only w' /\ open_answer e x.
Proof.
  unfold all_open, ended_printed, confirmed_only. intros He Hopen Hend [Hbuf Hatt].
  destruct e; simpl in He |- *.
  all: try solve [intros ?; simplify_eq; wsimpl; done].
  all: try solve [repeat case_match; intros; simplify_eq; wsimpl; done].
  all: try solve [intros ?; simplify_eq; wsimpl; rewrite existsb_snoc, Hend;
                  apply negb_true_iff in He; simpl; by rewrite He].
  - (* make(chan TPSData) *)
    case_match; [done|]. intros; simplify_eq; wsimpl.
    repeat split; try done; apply Forall_app; split; try done; by repeat constructor.
  - (* send *)
    destruct (chans w !! c) as [c0|] eqn:Hc; [|done].
    pose proof (Forall_lookup_1 _ _ _ _ Hopen Hc) as Hco.
    pose proof (Forall_lookup_1 _ _ _ _ Hbuf Hc) as Hcb. simpl in Hco, Hcb.
    unfold chan_send. rewrite Hco. destruct (_ <? _)%nat; [|done].
    intros ?; simplify_eq; wsimpl. repeat split; try done.
    + by apply Forall_insert.
    + apply Forall_insert; [done|]. by apply confirmed_snoc.
  - (* receive *)
    destruct (chans w !! c) as [c0|] eqn:Hc; [|done].
    pose proof (Forall_lookup_1 _ _ _ _ Hopen Hc) as Hco.
    pose proof (Forall_lookup_1 _ _ _ _ Hbuf Hc) as Hcb. simpl in Hco, Hcb.
    unfold chan_recv. rewrite Hco. destruct (ch_buf c0) as [|y rest] eqn:Hb; [done|].
    intros ?; simplify_eq; wsimpl. inversion Hcb; subst. repeat split; try done.
    + by apply Forall_insert.
    + by apply Forall_insert.
  - (* InsertOne *)
    case_match; intros; simplify_eq; wsimpl; repeat split; try done;
      by apply confirmed_snoc.
Qed.

Lemma step_tame E t w w' :
  tame_world w -> step E t w = Some w' -> tame_world w'.
Proof.
  intros (Hopen & Hend & Hconf & Hq). unfold step. destruct (running w); [|done].
  destruct (threads w !! t) as [[r|X e k|c k]|] eqn:Ht; try done.
  - pose proof (Forall_lookup_1 _ _ _ _ Hq Ht) as [He Hk].
    destruct (handle E e w) as [|v|x w1] eqn:Hh; try done.
    + by intros [= <-].
    + destruct (handle_frame _ _ _ _ _ Hh) as [Hts _].
      destruct (handle_tame _ _ _ _ _ He Hopen Hend Hconf Hh) as (? & ? & ? & Hx).
      intros [= <-]. split; [done|]. split; [done|]. split; [done|].
      wsimpl. rewrite Hts. apply Forall_insert; auto.
  - pose proof (Forall_lookup_1 _ _ _ _ Hq Ht) as [Hc Hk].
    intros [= <-]. split; [done|]. split; [done|]. split; [done|]. wsimpl.
    apply Forall_app. split; [by apply Forall_insert|by repeat constructor].
Qed.

Lemma reachable_tame E w w' :
  tame_world w -> reachable E w w' -> tame_world w'.
Proof.
  intros Hw. apply reachable_ind_steps; [done|].
  intros t w1 w2 H1 Hs. by eapply step_tame.
Qed.

(** The process of [main] at its start, on a collection of any content. *)
Lemma tame_init ds depth fuel : tame_world (init_world ds (main depth fuel)).
Proof.
  split; [constructor|]. split; [done|]. split; [split; constructor|].
  constructor; [exact (tame_main _ _)|constructor].
Qed.

(** ** The sink *)

(** The rounds of the loop that insert without error. *)
Lemma insertData_range_fresh E ctx ch : forall pre fuel w c rest,
  chans w !! ch = Some c -> ch_buf c = pre ++ rest ->
  fresh_for (docs (db w)) pre = true ->
  exists w1,
    run E (insertData_range (length pre + fuel) ctx ch) w
    = run E (insertData_range fuel ctx ch) w1 /\
    docs (db w1) = docs (db w) ++ pre /\
    attempts (db w1) = attempts (db w) ++ pre /\
    connected (db w1) = connected (db w) /\
    chans w1 !! ch = Some (mkChan (ch_cap c) rest (ch_closed c)) /\
    stdout w1 = stdout w /\ crashed w1 = crashed w.
Proof.
  induction pre as [|d pre IH]; intros fuel w c rest Hc Hbuf Hfresh.
  - exists w. simpl in *. rewrite !app_nil_r, <- Hbuf, chan_eta. done.
  - simpl in Hfresh. apply andb_true_iff in Hfresh as [Hd Hfresh].
    apply negb_true_iff in Hd.
    cbn [length Nat.add insertData_range].
    rewrite run_mbind, run_trigger. cbn [handle]. rewrite Hc.
    unfold chan_recv. rewrite Hbuf. cbn [app].
    rewrite run_mbind, run_trigger. cbn [handle]. wsimpl. rewrite Hd.
    set (w2 := with_db _ _).
    destruct (IH fuel w2 (mkChan (ch_cap c) (pre ++ rest) (ch_closed c)) rest)
      as (w1 & Hrun & Hdocs & Hatt & Hconn & Hch & Hout & Hcr); try done.
    { unfold w2. wsimpl. apply list_lookup_insert_eq. eapply lookup_lt_Some; eauto. }
    exists w1. subst w2. wsimpl. rewrite <- !app_assoc in *. done.
Qed.

(** A round that meets a duplicate id ends the loop with an error. *)
Lemma insertData_range_duplicate E ctx ch fuel w c d post :
  chans w !! ch = Some c -> ch_buf c = d :: post ->
  has_id (Id d) (docs (db w)) = true ->
  run E (insertData_range (S fuel) ctx ch) w
  = (Returned (Some (Errorf "error inserting document: %v" ErrDuplicateKey)),
     with_db (mkStore (docs (db w)) (connected (db w)) (attempts (db w) ++ [d]))
       (with_chans (<[ch := mkChan (ch_cap c) post (ch_closed c)]> (chans w)) w)).
Proof.
  intros Hc Hbuf Hd. cbn [insertData_range].
  rewrite run_mbind, run_trigger. cbn [handle]. rewrite Hc.
  unfold chan_recv. rewrite Hbuf.
  rewrite run_mbind, run_trigger. cbn [handle]. wsimpl. rewrite Hd.
  by rewrite run_mret.
Qed.

(** A round on a drained channel: the loop ends when the channel is closed,
    and waits otherwise. *)
Lemma insertData_range_drained E ctx ch fuel w c :
  chans w !! ch = Some c -> ch_buf c = [] ->
  run E (insertData_range (S fuel) ctx ch) w
  = if ch_closed c
    then (Returned None,
          with_stdout (stdout w ++ [[OStr "Ended"]])
            (with_chans (<[ch := c]> (chans w)) w))
    else (Stuck, w).
Proof.
  intros Hc Hbuf. cbn [insertData_range].
  rewrite run_mbind, run_trigger. cbn [handle]. rewrite Hc.
  unfold chan_recv. rewrite Hbuf. destruct (ch_closed c); [|done].
  rewrite run_mbind, run_trigger. cbn [handle]. by rewrite run_mret.
Qed.

(** [insertData] up to its loop, when the connection and the index succeed. *)
Lemma insertData_start E fuel ctx ch w :
  mongo_up E = true -> unique_ids (docs (db w)) = true ->
  run E (insertData fuel ctx ch) w
  = match run E (insertData_range fuel ctx ch)
            (with_db (mkStore (docs (db w)) true (attempts (db w))) w) with
    | (Returned r, w') =>
        (Returned r, with_db (mkStore (docs (db w')) false (attempts (db w'))) w')
    | (Stuck, w') => (Stuck, w')
    | (Panicked v, w') => (Panicked v, w')
    end.
Proof.
  intros Hup Hux. unfold insertData.
  rewrite run_mbind, run_trigger. cbn [handle].
  rewrite run_mbind, run_trigger. cbn [handle]. rewrite Hup.
  rewrite run_mbind, run_trigger. cbn [handle]. wsimpl. rewrite Hux.
  rewrite run_mbind.
  by destruct (run E (insertData_range fuel ctx ch) _) as [[r| |v] w'].
Qed.

(* ===================================================================== *)
(** * The claims                                                          *)
(* ===================================================================== *)

(** C1: the code departs from the claim.  An execution of the whole
    program on [small_env], with the goroutines numbered in the order they
    start: 1 is the sink, 3 the one that calls [fetchAndStoreTPS] for
    location "1101", 4 and 5 the two this call starts for the stations "1"
    and "2".  The record of station "2" has a true flag and the id 2.  In
    [lost_record_schedule] goroutine 5 prints its line and makes its
    request, so the record is fetched; then goroutine 3 returns from
    [fetchAndStoreTPS], which has no [wg2.Wait()], its callers return, and
    [main] passes [wg.Wait()], prints its last line and returns.  In the
    state reached, goroutine 5 is not over and the wait group of the call
    still counts 1; the channel is empty, and InsertOne has been called
    for the record of station "1" alone.  The process is over: no
    goroutine takes a step from that state, so the fetched record with a
    true flag is never sent. *)
Theorem C1_confirmed_record_never_sent :
  (StatusSuara (leaf_record (small_env true) leaf_url (station "2")) = true /\
   Id (leaf_record (small_env true) leaf_url (station "2")) = 2) /\
  match exec (small_env true) lost_record_schedule (init_world [] (main 5 10)) with
  | Some w' =>
      requests w'
      = [baseURL +:+ "0.json"; baseURL +:+ "11.json"; baseURL +:+ "11/1101.json";
         "https://sirekap-obj-data.kpu.go.id/pemilu/hhcw/ppwp/11/1101/1.json";
         "https://sirekap-obj-data.kpu.go.id/pemilu/hhcw/ppwp/11/1101/2.json"] /\
      finished 3 w' = true /\ finished 4 w' = true /\ finished 5 w' = false /\
      wgs w' !! 2%nat = Some 1 /\
      buffered 0%nat w' = [] /\
      map Id (attempts (db w')) = [1] /\
      map Id (docs (db w')) = [1] /\
      last (stdout w') = Some [OStr "All locations processed and stored successfully!"] /\
      main_returned w' = true /\ running w' = false
  | None => False
  end /\
  (forall t,
     match exec (small_env true) lost_record_schedule (init_world [] (main 5 10)) with
     | Some w' => step (small_env true) t w' = None
     | None => False
     end).
Proof.
  split; [by vm_compute|]. split; [vm_compute; repeat split|].
  intros t.
  assert (Hover : match exec (small_env true) lost_record_schedule
                          (init_world [] (main 5 10)) with
                  | Some w' => running w'
                  | None => true
                  end = false) by (vm_compute; reflexivity).
  destruct (exec _ _ _) as [w'|]; [|done].
  unfold step. by rewrite Hover.
Qed.

(** C8, as stated, fails for a code outside the range of int64: the parse
    fails, the failure is ignored, and the record sent has the id 2^63 - 1,
    not zero. *)
Lemma C8_counterexample :
  let kode := "9223372036854775808" in
  (ParseInt kode).2 = Some ErrRange /\
  let '(r, w') :=
    run confirmed_env
      (fetchAndStoreTPS_go leaf_group leaf_url 0%nat (station kode)) leaf_world in
  r = Returned tt /\
  map Id (buffered 0%nat w') = [9223372036854775807] /\
  ~ map Id (buffered 0%nat w') = [0].
Proof. vm_compute. repeat split; discriminate. Qed.

(** C8, amended.  The record that a leaf goroutine sends has for id the
    value that [strconv.ParseInt] gives for the code of the leaf, whatever
    id the payload has: the value of the code when it is a decimal numeral
    within int64; zero when [ParseInt] reports a syntax error; and, when it
    reports a range error, the nearest bound of int64, 2^63 - 1 or - 2^63.
    Either error is ignored: the record is sent all the same. *)
Theorem C8_id_from_code E wg2 url ch subLoc w c s n :
  chans w !! ch = Some c -> ch_closed c = false ->
  (length (ch_buf c) < ch_cap c)%nat ->
  sems w !! sem wg2 = Some s -> ch_buf s <> [] ->
  wgs w !! wg wg2 = Some n -> 1 <= n ->
  StatusSuara (decodeTPS (remote E (tpsURL url (Kode subLoc)))).1 = true ->
  exists w' d,
    run E (fetchAndStoreTPS_go wg2 url ch subLoc) w = (Returned tt, w') /\
    buffered ch w' = buffered ch w ++ [d] /\
    Id d = (ParseInt (Kode subLoc)).1 /\
    (forall v, numeral (Kode subLoc) = Some v -> - 2 ^ 63 <= v < 2 ^ 63 -> Id d = v) /\
    ((ParseInt (Kode subLoc)).2 = Some ErrSyntax -> Id d = 0) /\
    ((ParseInt (Kode subLoc)).2 = Some ErrRange -> Id d = 2 ^ 63 - 1 \/ Id d = - 2 ^ 63).
Proof.
  intros Hc Hopen Hroom Hs Htok Hn Hn1 Hflag.
  assert (Hsends : leaf_sends E url subLoc = [leaf_record E url subLoc]).
  { unfold leaf_sends, leaf_record. simpl. by rewrite Hflag. }
  destruct (leaf_run E wg2 url ch subLoc w c s n)
    as (w' & Hrun & Hch & _); try done.
  { rewrite Hsends. simpl. lia. }
  exists w', (leaf_record E url subLoc). split; [done|]. split.
  { unfold buffered. rewrite Hch, Hc, Hsends.
    by rewrite list_lookup_insert_eq by (eapply lookup_lt_Some; eauto). }
  unfold leaf_record. simpl. repeat split.
  - intros v Hv Hr. by rewrite (ParseInt_numeral _ _ Hv Hr).
  - apply ParseInt_syntax_zero.
  - apply ParseInt_range_bound.
Qed.

Lemma C8_witness :
  exists w' d,
    run confirmed_env (fetchAndStoreTPS_go leaf_group leaf_url 0%nat (station "3171011001"))
      leaf_world = (Returned tt, w') /\
    buffered 0%nat w' = buffered 0%nat leaf_world ++ [d] /\
    Id d = (ParseInt "3171011001").1 /\
    (forall v, numeral "3171011001" = Some v -> - 2 ^ 63 <= v < 2 ^ 63 -> Id d = v) /\
    ((ParseInt "3171011001").2 = Some ErrSyntax -> Id d = 0) /\
    ((ParseInt "3171011001").2 = Some ErrRange -> Id d = 2 ^ 63 - 1 \/ Id d = - 2 ^ 63).
Proof.
  apply (C8_id_from_code confirmed_env leaf_group leaf_url 0%nat (station "3171011001")
           leaf_world (mkChan 20 [] false) (mkChan 1 [tt] false) 1).
  - reflexivity.
  - reflexivity.
  - simpl. lia.
  - reflexivity.
  - discriminate.
  - reflexivity.
  - lia.
  - reflexivity.
Defined.

(** C7: the code departs from the claim.  For a listing URL whose code ends
    in one of the bytes of ".json", [strings.TrimRight] removes more than
    the suffix ".json": the leaf goroutine requests a URL under
    ".../papua-pegununga/" where the claim has ".../papua-pegunungan/". *)
Theorem C7_TrimRight_eats_into_the_code :
  let u := baseURL +:+ "papua-pegunungan" +:+ ".json" in
  tpsURL u "001"
  = "https://sirekap-obj-data.kpu.go.id/pemilu/hhcw/ppwp/papua-pegununga/001.json" /\
  spec_tpsURL u "001"
  = "https://sirekap-obj-data.kpu.go.id/pemilu/hhcw/ppwp/papua-pegunungan/001.json" /\
  tpsURL u "001" <> spec_tpsURL u "001" /\
  requests (run confirmed_env (fetchAndStoreTPS_go leaf_group u 0%nat (station "001"))
              leaf_world).2
  = ["https://sirekap-obj-data.kpu.go.id/pemilu/hhcw/ppwp/papua-pegununga/001.json"].
Proof. vm_compute. repeat split; discriminate. Qed.

(** Where the claim holds: when the retrieval itself fails, or the body is
    no JSON text, the record is the zero record and nothing is sent. *)
Lemma leaf_sends_transport_failure E url subLoc :
  remote E (tpsURL url (Kode subLoc)) = GetErr \/
  remote E (tpsURL url (Kode subLoc)) = Resp None \/
  remote E (tpsURL url (Kode subLoc)) = Resp (Some None) ->
  leaf_sends E url subLoc = [].
Proof.
  unfold leaf_sends, leaf_record. by intros [-> | [-> | ->]].
Qed.

(** C5: the code departs from the claim.  The result document of a leaf has
    a number where [mode] wants a string: [json.Unmarshal] reports the
    mismatch, so the fetch has failed and the failure is printed; but the
    goroutine goes on with the record decoded so far, whose flag is true,
    and sends it.  In a run of the whole program on [mistyped_leaf_env] the
    failure is printed and that record is the one document of the store. *)
Theorem C5_failed_fetch_still_sent :
  (decodeTPS (remote mistyped_env (tpsURL leaf_url "1"))).2 = Some (ErrUnmarshalType KNumber) /\
  let '(r, w') :=
    run mistyped_env (fetchAndStoreTPS_go leaf_group leaf_url 0%nat (station "1")) leaf_world in
  (r = Returned tt /\
   last (stdout w') = Some [OStr "Error processing TPS:"; OStr "1"; OErr (ErrUnmarshalType KNumber)] /\
   buffered 0%nat w' = [set_Id 1 (set_StatusSuara true zero_TPSData)]) /\
  match exec mistyped_leaf_env mistyped_leaf_schedule (init_world [] (main 5 10)) with
  | Some w =>
      main_returned w = true /\
      [OStr "Error processing TPS:"; OStr "1"; OErr (ErrUnmarshalType KNumber)] ∈ stdout w /\
      docs (db w) = [set_Id 1 (set_StatusSuara true zero_TPSData)]
  | None => False
  end.
Proof.
  split; [by vm_compute|]. split; [by vm_compute|].
  assert (exists ws,
    exec mistyped_leaf_env mistyped_leaf_schedule (init_world [] (main 5 10)) = Some ws /\
    main_returned ws = true /\ stdout ws !! 2%nat
      = Some [OStr "Error processing TPS:"; OStr "1"; OErr (ErrUnmarshalType KNumber)] /\
    docs (db ws) = [set_Id 1 (set_StatusSuara true zero_TPSData)]) as (ws & -> & ? & Hl & ?).
  { vm_compute. eexists. split; [reflexivity|]. by repeat split. }
  split; [done|]. split; [|done]. by eapply list_elem_of_lookup_2.
Qed.

(** ** Decoding and members that match no field *)

Lemma store_members_app {F T : Type} (tag : F -> string) fields
    (store : F -> json -> T -> T * error) l1 l2 t e :
  store_members tag fields store (l1 ++ l2) t e
  = let '(t', e') := store_members tag fields store l1 t e in
    store_members tag fields store l2 t' e'.
Proof.
  revert t e. induction l1 as [|[k v] l1 IH]; intros t e; simpl; [done|].
  destruct (lookup_field tag fields k); [|done].
  by destruct (store f v t).
Qed.

Lemma store_members_unknown {F T : Type} (tag : F -> string) fields
    (store : F -> json -> T -> T * error) pre k v post t e :
  lookup_field tag fields k = None ->
  store_members tag fields store (pre ++ (k, v) :: post) t e
  = store_members tag fields store (pre ++ post) t e.
Proof.
  intros Hk. rewrite !store_members_app.
  destruct (store_members tag fields store pre t e) as [t' e']. simpl. by rewrite Hk.
Qed.

(** C9, as stated, fails: a member "catatan" that matches no field of
    [TPSData] is accepted, but nothing of it is kept; the auxiliary field
    [PSU] stays nil and the record is the one decoded from the empty
    object. *)
Lemma C9_counterexample :
  let with_unknown := Resp (Some (Some (JObj [("catatan", JStr "x")]))) in
  let without := Resp (Some (Some (JObj []))) in
  (decodeTPS with_unknown).2 = None /\
  PSU (decodeTPS with_unknown).1 = JNull /\
  decodeTPS with_unknown = decodeTPS without.
Proof. vm_compute. repeat split. Qed.

(** C9, amended.  A member of the body whose name matches no field of
    [TPSData] does not make the decoding fail and is discarded: record and
    error are what they are without it.  The auxiliary field [PSU] holds
    the value of the member "psu", and only that. *)
Theorem C9_unknown_members_dropped pre k v post :
  lookup_field tps_tag tps_fields k = None ->
  decodeTPS (Resp (Some (Some (JObj (pre ++ (k, v) :: post)))))
  = decodeTPS (Resp (Some (Some (JObj (pre ++ post))))) /\
  decodeTPS (Resp (Some (Some (JObj [("psu", v)])))) = (set_PSU v zero_TPSData, None).
Proof.
  intros Hk. split; [|done].
  unfold decodeTPS, Unmarshal, store_TPSData, store_struct.
  by apply store_members_unknown.
Qed.

Lemma C9_witness :
  decodeTPS (Resp (Some (Some (JObj ([("mode", JStr "hhcw")] ++ ("catatan", JStr "x")
                                      :: [("status_suara", JBool true)])))))
  = decodeTPS (Resp (Some (Some (JObj ([("mode", JStr "hhcw")]
                                      ++ [("status_suara", JBool true)]))))) /\
  decodeTPS (Resp (Some (Some (JObj [("psu", JStr "x")])))) = (set_PSU (JStr "x") zero_TPSData, None).
Proof.
  apply (C9_unknown_members_dropped [("mode", JStr "hhcw")] "catatan" (JStr "x")
           [("status_suara", JBool true)]).
  reflexivity.
Defined.

(** C4, as stated, fails: the channel holds three records, the second with
    the id of the first.  The sink inserts the first, is refused the second,
    and returns: the third record is never tried and stays in the channel,
    and nothing is printed. *)
Lemma C4_counterexample :
  let '(r, w') :=
    run confirmed_env (insertData 10 Background 0%nat)
      (sink_world [] [record_of 1; record_of 1; record_of 2] true) in
  r = Returned (Some (Errorf "error inserting document: %v" ErrDuplicateKey)) /\
  map Id (attempts (db w')) = [1; 1] /\
  map Id (docs (db w')) = [1] /\
  map Id (buffered 0%nat w') = [2] /\
  stdout w' = [].
Proof. vm_compute. repeat split. Qed.

(** C4, amended.  The sink, connected and with its index made, on a channel
    that holds the records [ch_buf c]: it takes the records in order and
    calls InsertOne once for each record it takes, until an insert fails or
    the channel is drained.
    - A record whose id is already stored (a duplicate key) ends the sink:
      it returns an error, which the [go] statement discards, so nothing is
      printed; it releases the connection; the records after the duplicate
      are left in the channel, never tried.
    - With no duplicate every record is tried and stored; then the sink
      prints "Ended", returns nil and releases the connection if the channel
      is closed, and waits for more if it is not. *)
Theorem C4_sink_stops_at_failed_insert E ctx ch w c fuel :
  mongo_up E = true -> unique_ids (docs (db w)) = true ->
  chans w !! ch = Some c -> (length (ch_buf c) < fuel)%nat ->
  (forall pre d post,
     ch_buf c = pre ++ d :: post ->
     fresh_for (docs (db w)) pre = true ->
     has_id (Id d) (docs (db w) ++ pre) = true ->
     exists w',
       run E (insertData fuel ctx ch) w
       = (Returned (Some (Errorf "error inserting document: %v" ErrDuplicateKey)), w') /\
       attempts (db w') = attempts (db w) ++ pre ++ [d] /\
       docs (db w') = docs (db w) ++ pre /\
       buffered ch w' = post /\
       connected (db w') = false /\
       stdout w' = stdout w) /\
  (fresh_for (docs (db w)) (ch_buf c) = true ->
   exists r w',
     run E (insertData fuel ctx ch) w = (r, w') /\
     attempts (db w') = attempts (db w) ++ ch_buf c /\
     docs (db w') = docs (db w) ++ ch_buf c /\
     buffered ch w' = [] /\
     (ch_closed c = true ->
      r = Returned None /\ stdout w' = stdout w ++ [[OStr "Ended"]] /\
      connected (db w') = false) /\
     (ch_closed c = false -> r = Stuck)).
Proof.
  intros Hup Hux Hc Hfuel.
  set (w0 := with_db (mkStore (docs (db w)) true (attempts (db w))) w).
  assert (Hlt : (ch < length (chans w))%nat) by (eapply lookup_lt_Some; eauto).
  split.
  - intros pre d post Hbuf Hfresh Hdup.
    rewrite Hbuf, length_app in Hfuel. simpl in Hfuel.
    replace fuel with (length pre + S (fuel - length pre - 1))%nat by lia.
    rewrite insertData_start by done. fold w0.
    destruct (insertData_range_fresh E ctx ch pre (S (fuel - length pre - 1)) w0 c (d :: post))
      as (w1 & Hrun & Hdocs & Hatt & Hconn & Hch & Hout & Hcr); try done.
    rewrite Hrun.
    rewrite (insertData_range_duplicate E ctx ch _ w1 _ d post Hch) by (by rewrite ?Hdocs).
    eexists. split; [done|]. unfold buffered. wsimpl.
    rewrite list_lookup_insert_eq by (eapply lookup_lt_Some; eauto).
    rewrite Hatt, Hdocs, Hout. subst w0. wsimpl. by rewrite <- app_assoc.
  - intros Hfresh.
    replace fuel with (length (ch_buf c) + S (fuel - length (ch_buf c) - 1))%nat by lia.
    rewrite insertData_start by done. fold w0.
    destruct (insertData_range_fresh E ctx ch (ch_buf c) (S (fuel - length (ch_buf c) - 1))
                w0 c [])
      as (w1 & Hrun & Hdocs & Hatt & Hconn & Hch & Hout & Hcr); try done.
    { by rewrite app_nil_r. }
    rewrite Hrun, (insertData_range_drained E ctx ch _ w1 _ Hch) by done. wsimpl.
    destruct (ch_closed c) eqn:Hcl.
    + eexists _, _. split; [done|]. unfold buffered. wsimpl.
      rewrite list_lookup_insert_eq by (eapply lookup_lt_Some; eauto).
      rewrite Hatt, Hdocs, Hout. subst w0. wsimpl. done.
    + eexists _, _. split; [done|]. unfold buffered. rewrite Hch.
      rewrite Hatt, Hdocs. subst w0. wsimpl. done.
Qed.

Lemma C4_witness :
  let sw := sink_world [] [record_of 1; record_of 1; record_of 2] true in
  exists w',
    run confirmed_env (insertData 10 Background 0%nat) sw
    = (Returned (Some (Errorf "error inserting document: %v" ErrDuplicateKey)), w') /\
    attempts (db w') = attempts (db sw) ++ [record_of 1] ++ [record_of 1] /\
    docs (db w') = docs (db sw) ++ [record_of 1] /\
    buffered 0%nat w' = [record_of 2] /\
    connected (db w') = false /\
    stdout w' = stdout sw.
Proof.
  intros sw.
  refine (proj1 (C4_sink_stops_at_failed_insert confirmed_env Background 0%nat sw
                   (mkChan 20 [record_of 1; record_of 1; record_of 2] true) 10 _ _ _ _)
            [record_of 1] (record_of 1) [record_of 2] _ _ _).
  - reflexivity.
  - reflexivity.
  - reflexivity.
  - simpl. lia.
  - reflexivity.
  - reflexivity.
  - reflexivity.
Defined.

(** ** The slots of a [LimitedWaitGroup] *)

Lemma slots_sem_ok lwg N w :
  sem_ok (sem lwg) N w -> (slots_in_use lwg w <= N)%nat.
Proof.
  intros (c & Hc & Hcap & Hin). unfold slots_in_use. rewrite Hc.
  unfold within_cap in Hin. lia.
Qed.

(** C6.  A group made by [NewLimitedWaitGroup limit] has a semaphore of
    capacity [limit], with no slot in use.  From then on, whatever the
    goroutines of the process do and in whatever order, the slots in use
    never exceed [limit].  [Add] does not go on while every slot is taken:
    it is blocked at its send on the semaphore.  [Done] frees exactly one
    slot. *)
Theorem C6_slots_never_exceed_limit E lim :
  0 <= lim ->
  (forall w, exists lwg w',
     run E (NewLimitedWaitGroup lim) w = (Returned lwg, w') /\
     limit lwg = lim /\
     sems w' !! sem lwg = Some (mkChan (Z.to_nat lim) [] false) /\
     slots_in_use lwg w' = 0%nat) /\
  (forall lwg w w',
     limit lwg = lim ->
     sem_ok (sem lwg) (Z.to_nat lim) w ->
     reachable E w w' ->
     (slots_in_use lwg w' <= Z.to_nat lim)%nat) /\
  (forall lwg w c n delta,
     limit lwg = lim -> 1 <= delta <= lim ->
     sems w !! sem lwg = Some c -> ch_closed c = false -> ch_cap c = Z.to_nat lim ->
     length (ch_buf c) = Z.to_nat lim ->
     wgs w !! wg lwg = Some n -> 0 <= n ->
     exists w',
       run E (LWG.Add lwg delta) w = (Stuck, w') /\
       slots_in_use lwg w' = slots_in_use lwg w) /\
  (forall lwg w c n,
     sems w !! sem lwg = Some c -> ch_buf c <> [] ->
     wgs w !! wg lwg = Some n -> 1 <= n ->
     exists w',
       run E (LWG.Done lwg) w = (Returned tt, w') /\
       S (slots_in_use lwg w') = slots_in_use lwg w).
Proof.
  intros Hlim. repeat split.
  - intros w. unfold NewLimitedWaitGroup.
    rewrite run_mbind, run_trigger. cbn [handle].
    rewrite run_mbind, run_trigger. cbn [handle].
    destruct (Z.ltb_spec lim 0); [lia|]. rewrite run_mret.
    eexists _, _. split; [done|]. unfold slots_in_use. wsimpl.
    rewrite lookup_app_r, Nat.sub_diag by done. done.
  - intros lwg w w' Hl Hok Hr. apply slots_sem_ok.
    by apply (reachable_sem_ok E _ _ w).
  - intros lwg w c n delta Hl Hd Hc Hopen Hcap Hfull Hn Hn0. unfold LWG.Add.
    destruct (Z.ltb_spec (limit lwg) delta); [lia|].
    rewrite run_mbind, run_trigger. cbn [handle]. rewrite Hn.
    destruct (Z.ltb_spec (n + delta) 0); [lia|].
    destruct (Z.to_nat delta) as [|k] eqn:Hk; [lia|]. cbn [LWG.acquire].
    rewrite run_mbind, run_trigger. cbn [handle]. wsimpl. rewrite Hc.
    unfold chan_send. rewrite Hopen.
    destruct (Nat.ltb_spec (length (ch_buf c)) (ch_cap c)); [lia|].
    eexists. split; [done|]. done.
  - intros lwg w c n Hc Htok Hn Hn1. unfold LWG.Done.
    rewrite run_mbind, run_trigger. cbn [handle]. rewrite Hc.
    unfold chan_recv. destruct (ch_buf c) as [|[] rest] eqn:Hbuf; [done|].
    rewrite run_trigger. cbn [handle]. wsimpl. rewrite Hn.
    destruct (Z.ltb_spec (n - 1) 0); [lia|].
    eexists. split; [done|]. unfold slots_in_use. wsimpl.
    rewrite list_lookup_insert_eq by (eapply lookup_lt_Some; eauto).
    by rewrite Hc, Hbuf.
Qed.

Lemma C6_witness :
  (exists lwg w',
     run confirmed_env (NewLimitedWaitGroup 1) leaf_world = (Returned lwg, w') /\
     limit lwg = 1 /\
     sems w' !! sem lwg = Some (mkChan (Z.to_nat 1) [] false) /\
     slots_in_use lwg w' = 0%nat) /\
  (slots_in_use leaf_group leaf_world <= Z.to_nat 1)%nat.
Proof.
  pose proof (C6_slots_never_exceed_limit confirmed_env 1 ltac:(lia)) as [Ha [Hb _]].
  split.
  - apply (Ha leaf_world).
  - apply (Hb leaf_group leaf_world leaf_world).
    + reflexivity.
    + exists (mkChan 1 [tt] false). unfold within_cap. simpl. repeat split. lia.
    + apply reachable_refl.
Defined.

(** ** What the expanding functions return *)

Lemma follows_bind {R S : Type} (p : prog R) (f : R -> prog S) tr s :
  follows (bind p f) tr s ->
  exists tr1 tr2 r, tr = tr1 ++ tr2 /\ follows p tr1 r /\ follows (f r) tr2 s.
Proof.
  revert S f tr s. induction p as [R r|R X e k IH|R c IHc k IHk]; intros S f tr s; simpl.
  - intros H. by exists [], tr, r.
  - intros (x & tr' & -> & (tr1 & tr2 & r & -> & H1 & H2)%IH).
    exists (Act e x :: tr1), tr2, r. eauto 10.
  - intros (tr' & -> & (tr1 & tr2 & r & -> & H1 & H2)%IHk).
    exists (Spawn c :: tr1), tr2, r. eauto 10.
Qed.

Lemma follows_mbind {R S : Type} (p : prog R) (f : R -> prog S) tr s :
  follows (p ≫= f) tr s ->
  exists tr1 tr2 r, tr = tr1 ++ tr2 /\ follows p tr1 r /\ follows (f r) tr2 s.
Proof. apply follows_bind. Qed.

Lemma follows_fetchLocations url tr r :
  follows (fetchLocations url) tr r ->
  exists resp, tr = [Act (EvHttpGet url) resp] /\ r = decodeLocations resp.
Proof. simpl. intros (resp & tr' & -> & -> & <-). eauto. Qed.

(** A program that ends in [mret r0] returns [r0] on every path. *)
Lemma follows_then_mret {R S : Type} (p : prog R) (r0 : S) tr s :
  follows (p ≫= fun _ => mret r0) tr s -> s = r0.
Proof. intros (tr1 & tr2 & r & _ & _ & [_ H])%follows_mbind. done. Qed.





(** C2: the code departs from the claim.  An execution of the whole
    program on [small_env], in which the goroutines are numbered in the
    order they start: 3 is the one that calls [fetchAndStoreTPS] for
    location "1101", 4 and 5 are the two that this call starts, for the
    stations "1" and "2".  After [early_exit_schedule] goroutine 3 is over,
    so the call has returned, while neither 4 nor 5 is: the wait group of
    the call still counts 2, and station "2" has not been requested.
    [main] has returned as well, which ends the process: the confirmed
    record of station "2" is lost.  ([orderly_schedule] is an execution of
    the same program that stores both records.) *)
Theorem C2_fetchAndStoreTPS_returns_before_its_leaves :
  match exec (small_env true) early_exit_schedule (init_world [] (main 5 10)) with
  | Some w' =>
      finished 3 w' = true /\
      finished 4 w' = false /\ finished 5 w' = false /\
      wgs w' !! 2%nat = Some 2 /\
      requests w'
      = [baseURL +:+ "0.json"; baseURL +:+ "11.json"; baseURL +:+ "11/1101.json";
         "https://sirekap-obj-data.kpu.go.id/pemilu/hhcw/ppwp/11/1101/1.json"] /\
      main_returned w' = true /\
      map Id (docs (db w')) = [1]
  | None => False
  end /\
  match exec (small_env true) orderly_schedule (init_world [] (main 5 10)) with
  | Some w' => main_returned w' = true /\ map Id (docs (db w')) = [1; 2]
  | None => False
  end.
Proof. vm_compute. repeat split. Qed.

(** C3: the code departs from the claim.  From the start of [main], on
    any source, with any schedule, no channel is ever closed and "Ended" is
    never printed: the program has no [close].  And in the execution
    [idle_sink_schedule], [main] prints its last line and returns while the
    sink (goroutine 1) waits on the channel with its connection open. *)
Theorem C3_channel_never_closed :
  (forall E ds depth fuel w',
     reachable E (init_world ds (main depth fuel)) w' ->
     all_open w' /\ ended_printed w' = false) /\
  match exec empty_env idle_sink_schedule (init_world [] (main 5 10)) with
  | Some w' =>
      main_returned w' = true /\
      last (stdout w') = Some [OStr "All locations processed and stored successfully!"] /\
      finished 1 w' = false /\
      map ch_closed (chans w') = [false] /\
      connected (db w') = true
  | None => False
  end.
Proof.
  split.
  - intros E ds depth fuel w' Hr.
    destruct (reachable_tame E _ _ (tame_init ds depth fuel) Hr) as (? & ? & _). done.
  - vm_compute. repeat split.
Qed.

(* ===================================================================== *)
(** * Further properties of the program                                   *)
(* ===================================================================== *)

(** [orderly_schedule] is a schedule of the program on [small_env]. *)
Lemma orderly_schedule_runs :
  is_Some (exec (small_env true) orderly_schedule (init_world [] (main 5 10))).
Proof.
  assert (H : match exec (small_env true) orderly_schedule (init_world [] (main 5 10)) with
              | Some _ => true
              | None => false
              end = true) by (vm_compute; reflexivity).
  destruct (exec _ _ _); [by eexists|done].
Qed.

(** ** [LimitedWaitGroup]: [Add], [Done] and [Wait] together *)

Lemma world_eta w :
  mkWorld (threads w) (wgs w) (sems w) (chans w) (vars w) (stdout w) (requests w)
    (db w) (crashed w) = w.
Proof. by destruct w. Qed.

Lemma with_sems_id w s c :
  sems w !! s = Some c -> with_sems (<[s := c]> (sems w)) w = w.
Proof. intros H. unfold with_sems. rewrite (list_insert_id _ _ _ H). apply world_eta. Qed.

Lemma units_eq (l1 l2 : list unit) : length l1 = length l2 -> l1 = l2.
Proof.
  revert l2. induction l1 as [|[] l1 IH]; intros [|[] l2]; simpl; try done.
  intros [= H]. f_equal. auto.
Qed.

(** The loop of [Add]: [k] tokens go into the semaphore when it has room
    for them. *)
Lemma run_acquire E s : forall k w c,
  sems w !! s = Some c -> ch_closed c = false ->
  (length (ch_buf c) + k <= ch_cap c)%nat ->
  run E (LWG.acquire k s) w
  = (Returned tt,
     with_sems (<[s := mkChan (ch_cap c) (ch_buf c ++ replicate k tt) false]> (sems w)) w).
Proof.
  induction k as [|k IH]; intros w c Hs Hopen Hroom.
  - simpl. rewrite app_nil_r, <- Hopen, chan_eta. by rewrite with_sems_id.
  - cbn [LWG.acquire]. rewrite run_mbind, run_trigger. cbn [handle].
    rewrite Hs. unfold chan_send. rewrite Hopen.
    destruct (Nat.ltb_spec (length (ch_buf c)) (ch_cap c)); [|lia].
    set (c1 := mkChan (ch_cap c) (ch_buf c ++ [tt]) false).
    rewrite (IH _ c1).
    + unfold c1, with_sems. wsimpl.
      by rewrite list_insert_insert_eq, <- app_assoc.
    + wsimpl. apply list_lookup_insert_eq. eapply lookup_lt_Some; eauto.
    + done.
    + unfold c1. wsimpl. rewrite length_app. simpl. lia.
Qed.

(** The same loop when the semaphore has room for fewer than [k] tokens:
    it fills the semaphore and blocks. *)
Lemma run_acquire_stuck E s : forall k w c,
  sems w !! s = Some c -> ch_closed c = false ->
  (length (ch_buf c) <= ch_cap c)%nat ->
  (ch_cap c < length (ch_buf c) + k)%nat ->
  run E (LWG.acquire k s) w
  = (Stuck,
     with_sems (<[s := mkChan (ch_cap c)
                     (ch_buf c ++ replicate (ch_cap c - length (ch_buf c)) tt) false]> (sems w)) w).
Proof.
  induction k as [|k IH]; intros w c Hs Hopen Hin Hfew; [lia|].
  cbn [LWG.acquire]. rewrite run_mbind, run_trigger. cbn [handle].
  rewrite Hs. unfold chan_send. rewrite Hopen.
  destruct (Nat.ltb_spec (length (ch_buf c)) (ch_cap c)) as [Hlt|Hge].
  - set (c1 := mkChan (ch_cap c) (ch_buf c ++ [tt]) false).
    rewrite (IH _ c1).
    + unfold c1, with_sems. wsimpl. rewrite list_insert_insert_eq, <- app_assoc.
      rewrite length_app. simpl.
      replace (ch_cap c - length (ch_buf c))%nat
        with (S (ch_cap c - (length (ch_buf c) + 1)))%nat by lia.
      done.
    + wsimpl. apply list_lookup_insert_eq. eapply lookup_lt_Some; eauto.
    + done.
    + unfold c1. wsimpl. rewrite length_app. simpl. lia.
    + unfold c1. wsimpl. rewrite length_app. simpl. lia.
  - replace (ch_cap c - length (ch_buf c))%nat with 0%nat by lia.
    simpl. rewrite app_nil_r, <- Hopen, chan_eta. by rewrite with_sems_id.
Qed.

(** [Done] on a group with a slot in use and a counter above 0. *)
Lemma run_Done E lwg w c n :
  sems w !! sem lwg = Some c -> ch_buf c <> [] ->
  wgs w !! wg lwg = Some n -> 1 <= n ->
  run E (LWG.Done lwg) w
  = (Returned tt,
     with_wgs (<[wg lwg := n - 1]> (wgs w))
       (with_sems (<[sem lwg := mkChan (ch_cap c) (tail (ch_buf c)) (ch_closed c)]> (sems w)) w)).
Proof.
  intros Hs Hne Hw Hn. unfold LWG.Done. rewrite run_mbind, run_trigger. cbn [handle].
  rewrite Hs. unfold chan_recv. destruct (ch_buf c) as [|[] rest]; [done|].
  rewrite run_trigger. cbn [handle]. wsimpl. rewrite Hw.
  destruct (Z.ltb_spec (n - 1) 0); [lia|]. done.
Qed.

Lemma run_Done_times E lwg : forall k w c n,
  sems w !! sem lwg = Some c -> (k <= length (ch_buf c))%nat ->
  wgs w !! wg lwg = Some n -> Z.of_nat k <= n ->
  run E (Done_times k lwg) w
  = (Returned tt,
     with_wgs (<[wg lwg := n - Z.of_nat k]> (wgs w))
       (with_sems (<[sem lwg := mkChan (ch_cap c) (drop k (ch_buf c)) (ch_closed c)]> (sems w)) w)).
Proof.
  unfold Done_times.
  induction k as [|k IH]; intros w c n Hs Hk Hw Hn.
  - simpl. rewrite drop_0, chan_eta, Z.sub_0_r, with_sems_id by done.
    unfold with_wgs. rewrite (list_insert_id _ _ _ Hw). by rewrite world_eta.
  - cbn [replicate]. rewrite run_for_range_cons.
    assert (Hne : ch_buf c <> []) by (destruct (ch_buf c); simpl in *; [lia|done]).
    rewrite (run_Done E lwg w c n Hs Hne Hw) by lia.
    set (c1 := mkChan _ _ _). set (w1 := with_wgs _ _).
    rewrite (IH w1 c1 (n - 1)).
    + unfold w1, c1. wsimpl. unfold with_wgs, with_sems. wsimpl.
      rewrite !list_insert_insert_eq.
      f_equal. f_equal; [f_equal; lia|].
      f_equal. f_equal. destruct (ch_buf c); simpl; [by rewrite drop_nil|done].
    + unfold w1. wsimpl. apply list_lookup_insert_eq. eapply lookup_lt_Some; eauto.
    + unfold c1. wsimpl. destruct (ch_buf c); simpl in *; lia.
    + unfold w1. wsimpl. apply list_lookup_insert_eq. eapply lookup_lt_Some; eauto.
    + lia.
Qed.

(** X1: [Add(delta)] with [0 <= delta <= limit] on a group whose semaphore
    has room for [delta] tokens returns, with the counter raised by [delta]
    and [delta] more slots in use; [Wait] then blocks unless the counter is
    0; and [delta] calls of [Done] bring the process back to the very
    state it was in before the [Add]. *)
Theorem Add_then_Done_restores E lwg w c n delta :
  wgs w !! wg lwg = Some n -> 0 <= n ->
  sems w !! sem lwg = Some c -> ch_closed c = false ->
  0 <= delta <= limit lwg ->
  (length (ch_buf c) + Z.to_nat delta <= ch_cap c)%nat ->
  exists w1,
    run E (LWG.Add lwg delta) w = (Returned tt, w1) /\
    wgs w1 !! wg lwg = Some (n + delta) /\
    slots_in_use lwg w1 = (slots_in_use lwg w + Z.to_nat delta)%nat /\
    run E (LWG.Wait lwg) w1 = (if n + delta =? 0 then Returned tt else Stuck, w1) /\
    run E (Done_times (Z.to_nat delta) lwg) w1 = (Returned tt, w).
Proof.
  intros Hw Hn Hs Hopen Hd Hroom.
  assert (Hlw : (wg lwg < length (wgs w))%nat) by (eapply lookup_lt_Some; eauto).
  assert (Hls : (sem lwg < length (sems w))%nat) by (eapply lookup_lt_Some; eauto).
  unfold LWG.Add. destruct (Z.ltb_spec (limit lwg) delta); [lia|].
  rewrite run_mbind, run_trigger. cbn [handle]. rewrite Hw.
  destruct (Z.ltb_spec (n + delta) 0); [lia|].
  rewrite (run_acquire E (sem lwg) _ _ c) by done.
  eexists. split; [done|]. wsimpl.
  split; [by apply list_lookup_insert_eq|].
  split.
  { unfold slots_in_use. wsimpl. rewrite Hs, list_lookup_insert_eq by done.
    wsimpl. by rewrite length_app, length_replicate. }
  split.
  { unfold LWG.Wait. rewrite run_trigger. cbn [handle]. wsimpl.
    rewrite list_lookup_insert_eq by done.
    destruct (Z.eqb_spec (n + delta) 0) as [->|Hne]; [done|].
    by destruct (n + delta). }
  set (c1 := mkChan (ch_cap c) (ch_buf c ++ replicate (Z.to_nat delta) tt) false).
  rewrite (run_Done_times E lwg _ _ c1 (n + delta)).
  - unfold c1, with_wgs, with_sems. wsimpl.
    rewrite !list_insert_insert_eq.
    replace (n + delta - Z.of_nat (Z.to_nat delta)) with n by lia.
    rewrite (list_insert_id _ _ _ Hw).
    replace (drop (Z.to_nat delta) (ch_buf c ++ replicate (Z.to_nat delta) tt)) with (ch_buf c).
    + rewrite <- Hopen at 1. rewrite chan_eta, (list_insert_id _ _ _ Hs). by rewrite world_eta.
    + apply units_eq. rewrite length_drop, length_app, length_replicate. lia.
  - wsimpl. by apply list_lookup_insert_eq.
  - unfold c1. wsimpl. rewrite length_app, length_replicate. lia.
  - wsimpl. by apply list_lookup_insert_eq.
  - lia.
Qed.

Lemma Add_then_Done_restores_witness :
  exists w1,
    run confirmed_env (LWG.Add wide_group 2)
      wide_world
    = (Returned tt, w1) /\
    wgs w1 !! 0%nat = Some 3 /\
    run confirmed_env (Done_times 2 wide_group) w1
    = (Returned tt, wide_world).
Proof.
  destruct (Add_then_Done_restores confirmed_env wide_group
              wide_world
              (mkChan 3 [tt] false) 1 2)
    as (w1 & H1 & H2 & _ & _ & H3).
  - reflexivity.
  - lia.
  - reflexivity.
  - reflexivity.
  - simpl. lia.
  - simpl. lia.
  - exists w1. split; [exact H1|]. split; [exact H2|exact H3].
Defined.

(** X2: [Add] is not atomic.  When the semaphore has room for fewer than
    [delta] tokens, [Add(delta)] has already raised the counter by [delta]
    and taken every free slot when it blocks: a [Wait] now waits for
    goroutines that have not been started. *)
Theorem Add_blocks_midway E lwg w c n delta :
  wgs w !! wg lwg = Some n -> 0 <= n ->
  sems w !! sem lwg = Some c -> ch_closed c = false ->
  (length (ch_buf c) <= ch_cap c)%nat ->
  0 <= delta <= limit lwg ->
  (ch_cap c < length (ch_buf c) + Z.to_nat delta)%nat ->
  exists w1,
    run E (LWG.Add lwg delta) w = (Stuck, w1) /\
    wgs w1 !! wg lwg = Some (n + delta) /\
    slots_in_use lwg w1 = ch_cap c /\
    chans w1 = chans w /\ db w1 = db w /\ crashed w1 = crashed w.
Proof.
  intros Hw Hn Hs Hopen Hin Hd Hfew.
  assert (Hlw : (wg lwg < length (wgs w))%nat) by (eapply lookup_lt_Some; eauto).
  assert (Hls : (sem lwg < length (sems w))%nat) by (eapply lookup_lt_Some; eauto).
  unfold LWG.Add. destruct (Z.ltb_spec (limit lwg) delta); [lia|].
  rewrite run_mbind, run_trigger. cbn [handle]. rewrite Hw.
  destruct (Z.ltb_spec (n + delta) 0); [lia|].
  rewrite (run_acquire_stuck E (sem lwg) _ _ c) by done.
  eexists. split; [done|]. wsimpl.
  split; [by apply list_lookup_insert_eq|].
  split; [|done].
  unfold slots_in_use. wsimpl. rewrite list_lookup_insert_eq by done.
  wsimpl. rewrite length_app, length_replicate. lia.
Qed.

Lemma Add_blocks_midway_witness :
  exists w1,
    run confirmed_env (LWG.Add wide_group 3)
      wide_world
    = (Stuck, w1) /\
    wgs w1 !! 0%nat = Some 4 /\
    slots_in_use wide_group w1 = 3%nat.
Proof.
  destruct (Add_blocks_midway confirmed_env wide_group
              wide_world
              (mkChan 3 [tt] false) 1 3)
    as (w1 & H1 & H2 & H3 & _).
  - reflexivity.
  - lia.
  - reflexivity.
  - reflexivity.
  - simpl. lia.
  - simpl. lia.
  - simpl. lia.
  - exists w1. split; [exact H1|]. split; [exact H2|exact H3].
Defined.

(** X3: the group outside its normal use.  [NewLimitedWaitGroup] with a
    negative limit panics in [make]; [Add] with [delta] above the limit
    panics before it touches the group; [Add] with a negative [delta] acts
    on the counter alone, and panics when the counter would fall below 0;
    [Done] on a group with no slot in use blocks, whatever the counter; and
    [Done] with a slot in use but the counter at 0 panics after it has
    freed the slot. *)
Theorem LimitedWaitGroup_misuse E lwg w :
  (forall lim, lim < 0 ->
     exists w', run E (NewLimitedWaitGroup lim) w = (Panicked panic_makechan, w') /\
                sems w' = sems w) /\
  (forall delta, limit lwg < delta ->
     run E (LWG.Add lwg delta) w
     = (Panicked (OStr "delta larger than limit"),
        with_crashed (Some (OStr "delta larger than limit")) w)) /\
  (forall delta n, delta <= limit lwg -> delta < 0 -> wgs w !! wg lwg = Some n ->
     run E (LWG.Add lwg delta) w
     = if n + delta <? 0
       then (Panicked panic_negative, with_crashed (Some panic_negative) w)
       else (Returned tt, with_wgs (<[wg lwg := n + delta]> (wgs w)) w)) /\
  (forall c, sems w !! sem lwg = Some c -> ch_buf c = [] -> ch_closed c = false ->
     run E (LWG.Done lwg) w = (Stuck, w)) /\
  (forall c n, sems w !! sem lwg = Some c -> ch_buf c <> [] ->
     wgs w !! wg lwg = Some n -> n <= 0 ->
     exists w', run E (LWG.Done lwg) w = (Panicked panic_negative, w') /\
                S (slots_in_use lwg w') = slots_in_use lwg w).
Proof.
  split; [|split; [|split; [|split]]].
  - intros lim Hlim. unfold NewLimitedWaitGroup.
    rewrite run_mbind, run_trigger. cbn [handle].
    rewrite run_mbind, run_trigger. cbn [handle].
    destruct (Z.ltb_spec lim 0); [|lia]. by eexists.
  - intros delta Hd. unfold LWG.Add. destruct (Z.ltb_spec (limit lwg) delta); [|lia].
    reflexivity.
  - intros delta n Hd Hneg Hw. unfold LWG.Add.
    destruct (Z.ltb_spec (limit lwg) delta); [lia|].
    rewrite run_mbind, run_trigger. cbn [handle]. rewrite Hw.
    destruct (n + delta <? 0); [done|].
    by destruct delta.
  - intros c Hs Hb Hopen. unfold LWG.Done. rewrite run_mbind, run_trigger. cbn [handle].
    rewrite Hs. unfold chan_recv. by rewrite Hb, Hopen.
  - intros c n Hs Hne Hw Hn.
    assert (Hls : (sem lwg < length (sems w))%nat) by (eapply lookup_lt_Some; eauto).
    unfold LWG.Done. rewrite run_mbind, run_trigger. cbn [handle].
    rewrite Hs. unfold chan_recv. destruct (ch_buf c) as [|[] rest] eqn:Hb; [done|].
    rewrite run_trigger. cbn [handle]. wsimpl. rewrite Hw.
    destruct (Z.ltb_spec (n - 1) 0); [|lia].
    eexists. split; [done|]. unfold slots_in_use. wsimpl.
    rewrite Hs, list_lookup_insert_eq by done. wsimpl. by rewrite Hb.
Qed.

Lemma LimitedWaitGroup_misuse_witness :
  run confirmed_env (LWG.Add leaf_group 2) leaf_world
  = (Panicked (OStr "delta larger than limit"),
     with_crashed (Some (OStr "delta larger than limit")) leaf_world) /\
  run confirmed_env (LWG.Done leaf_group) idle_world = (Stuck, idle_world).
Proof.
  destruct (LimitedWaitGroup_misuse confirmed_env leaf_group leaf_world) as (_ & Ha & _).
  destruct (LimitedWaitGroup_misuse confirmed_env leaf_group idle_world) as (_ & _ & _ & Hd & _).
  split.
  - apply (Ha 2). simpl. lia.
  - apply (Hd (mkChan 1 [] false)); reflexivity.
Defined.

(** ** Processes under a policy

    When every goroutine obeys a policy and the allowed operations keep a
    property of worlds, every world the process reaches has the property. *)

Section Policy.

Variable E : env.
Variable allowed : forall X : Type, event X -> Prop.
Variable answers : forall X : Type, event X -> X -> Prop.

(** A property of worlds that does not depend on the goroutines, and that
    every allowed operation keeps, with an answer within [answers]. *)
Variable I : world -> Prop.
Hypothesis I_threads : forall ts w, I w -> I (with_threads ts w).
Hypothesis I_next : forall X (e : event X) w x w',
  allowed X e -> I w -> handle E e w = Next x w' -> I w' /\ answers X e x.
Hypothesis I_crash : forall X (e : event X) w v,
  allowed X e -> I w -> handle E e w = Crash v -> I (with_crashed (Some v) w).

Lemma obeys_step t w w' :
  I w -> Forall (obeys allowed answers) (threads w) ->
  step E t w = Some w' ->
  I w' /\ Forall (obeys allowed answers) (threads w').
Proof.
  intros HI Hts. unfold step. destruct (running w); [|done].
  destruct (threads w !! t) as [[r|X e k|c k]|] eqn:Ht; try done.
  - pose proof (Forall_lookup_1 _ _ _ _ Hts Ht) as [He Hk].
    destruct (handle E e w) as [|v|x w1] eqn:Hh; try done.
    + intros [= <-]. split; [by eapply I_crash|done].
    + destruct (handle_frame _ _ _ _ _ Hh) as [Hth _].
      destruct (I_next _ _ _ _ _ He HI Hh) as [HI1 Hx].
      intros [= <-]. split; [by apply I_threads|].
      wsimpl. rewrite Hth. apply Forall_insert; auto.
  - pose proof (Forall_lookup_1 _ _ _ _ Hts Ht) as [Hc Hk].
    intros [= <-]. split; [by apply I_threads|]. wsimpl.
    apply Forall_app. split; [by apply Forall_insert|by repeat constructor].
Qed.

Lemma obeys_reachable w w' :
  I w -> Forall (obeys allowed answers) (threads w) ->
  reachable E w w' ->
  I w' /\ Forall (obeys allowed answers) (threads w').
Proof.
  intros HI Hts. apply (reachable_ind_steps E (fun w => I w /\ Forall (obeys allowed answers) (threads w))).
  - done.
  - intros t w1 w2 [H1 H2] Hs. by eapply obeys_step.
Qed.

Lemma obeys_bind {R S : Type} (p : prog R) (f : R -> prog S) :
  obeys allowed answers p -> (forall r, obeys allowed answers (f r)) ->
  obeys allowed answers (bind p f).
Proof.
  revert S f. induction p as [R r|R X e k IH|R c IHc k IHk]; intros S f; simpl.
  - auto.
  - intros [He Hk] Hf. split; [done|]. intros x Hx. apply IH; auto.
  - intros [Hc Hk] Hf. split; [done|]. apply IHk; auto.
Qed.

Lemma obeys_mbind {R S : Type} (p : prog R) (f : R -> prog S) :
  obeys allowed answers p -> (forall r, obeys allowed answers (f r)) ->
  obeys allowed answers (p ≫= f).
Proof. apply obeys_bind. Qed.

Lemma obeys_trigger {X : Type} (e : event X) :
  allowed X e -> obeys allowed answers (trigger e).
Proof. intros He. simpl. split; [done|]. by intros. Qed.

Lemma obeys_then {X S : Type} (e : event X) (f : X -> prog S) :
  allowed X e -> (forall x, answers X e x -> obeys allowed answers (f x)) ->
  obeys allowed answers (trigger e ≫= f).
Proof. intros He Hf. simpl. split; [done|]. done. Qed.

Lemma obeys_go child : obeys allowed answers child -> obeys allowed answers (go_ child).
Proof. by split. Qed.

Lemma obeys_for_range {A : Type} (l : list A) body :
  (forall x, obeys allowed answers (body x)) -> obeys allowed answers (for_range l body).
Proof.
  intros Hb. induction l as [|x l IH]; simpl; [done|].
  apply obeys_bind; auto.
Qed.

Lemma obeys_if_err e body :
  (forall e', obeys allowed answers (body e')) -> obeys allowed answers (if_err e body).
Proof. destruct e; simpl; auto. Qed.

End Policy.

(** ** The URLs of the crawl

    [baseURL] and [resultsURL] end in a slash, which [TrimRight] does not
    remove: every URL built from one of them starts with it. *)

Lemma prefix_app p s : String.prefix p (p +:+ s) = true.
Proof.
  induction p as [|c p IH]; simpl; [by destruct s|].
  by destruct (ascii_dec c c).
Qed.

Lemma prefix_split p u : String.prefix p u = true -> exists s, u = p +:+ s.
Proof.
  revert u. induction p as [|c p IH]; intros u; simpl.
  - by exists u.
  - destruct u as [|b u]; simpl; [done|].
    destruct (ascii_dec c b) as [->|]; [|done].
    intros [s ->]%IH. by exists s.
Qed.

Lemma app_String c (a b : string) : String c a +:+ b = String c (a +:+ b).
Proof. reflexivity. Qed.

Lemma string_app_assoc (a b c : string) : (a +:+ b) +:+ c = a +:+ (b +:+ c).
Proof. induction a as [|x a IH]; [done|]. by rewrite !app_String, IH. Qed.

Lemma prefix_app_l p u s : String.prefix p u = true -> String.prefix p (u +:+ s) = true.
Proof.
  intros [s' ->]%prefix_split. rewrite string_app_assoc. apply prefix_app.
Qed.

(** [TrimRight] stops at a byte outside the cutset: what comes before it
    is kept. *)
Lemma TrimRight_keeps a c s cutset :
  in_cutset cutset c = false ->
  TrimRight (a +:+ String c s) cutset = a +:+ String c (TrimRight s cutset).
Proof.
  intros Hc. induction a as [|x a IH].
  - change (EmptyString +:+ ?t) with t. cbn [TrimRight]. rewrite Hc.
    by destruct (TrimRight s cutset).
  - rewrite !app_String. cbn [TrimRight]. rewrite IH. by destruct a.
Qed.

Lemma TrimRight_baseURL s :
  TrimRight (baseURL +:+ s) ".json" = baseURL +:+ TrimRight s ".json".
Proof.
  exact (TrimRight_keeps
           "https://sirekap-obj-data.kpu.go.id/wilayah/pemilu/ppwp" "/" s ".json" eq_refl).
Qed.

Lemma TrimRight_resultsURL s :
  TrimRight (resultsURL +:+ s) ".json" = resultsURL +:+ TrimRight s ".json".
Proof.
  exact (TrimRight_keeps
           "https://sirekap-obj-data.kpu.go.id/pemilu/hhcw/ppwp" "/" s ".json" eq_refl).
Qed.

Lemma ReplaceAll_baseURL s :
  ReplaceAll (baseURL +:+ s) "wilayah/pemilu/ppwp" "pemilu/hhcw/ppwp"
  = resultsURL +:+ replace_from 0 s "wilayah/pemilu/ppwp" "pemilu/hhcw/ppwp".
Proof. reflexivity. Qed.

Lemma rooted_listing burl kode :
  rooted burl = true -> rooted (burl +:+ kode +:+ ".json") = true.
Proof. intros H. unfold rooted. by apply prefix_app_l. Qed.

Lemma rooted_child url :
  rooted url = true -> rooted (TrimRight url ".json" +:+ "/") = true.
Proof.
  intros [s ->]%prefix_split. unfold rooted.
  rewrite TrimRight_baseURL. apply prefix_app_l, prefix_app.
Qed.

Lemma rooted_on_site url : rooted url = true -> on_site url = true.
Proof. unfold rooted, on_site. by intros ->. Qed.

Lemma tpsURL_on_site url kode : rooted url = true -> on_site (tpsURL url kode) = true.
Proof.
  intros [s ->]%prefix_split. unfold on_site, tpsURL.
  rewrite ReplaceAll_baseURL, TrimRight_resultsURL.
  apply orb_true_iff. right. rewrite !string_app_assoc. apply prefix_app.
Qed.

(** ** The crawl performs crawl operations only

    Under any policy that allows them, the functions of the crawl obey it
    when they start from a base URL on the site. *)

Section Crawl.

Variable allowed : forall X : Type, event X -> Prop.
Variable answers : forall X : Type, event X -> X -> Prop.
Hypothesis crawl_allowed : forall X (e : event X), crawl_op e = true -> allowed X e.

Local Abbreviation ok := (obeys allowed answers).

(** One operation of the crawl, then the rest. *)
Ltac cstep := apply obeys_then; [by apply crawl_allowed|].

Lemma obeys_fetchLocations url : on_site url = true -> ok (fetchLocations url).
Proof. intros Hu. unfold fetchLocations. cstep. done. Qed.

Lemma obeys_fetchDataTPS url : on_site url = true -> ok (fetchDataTPS url).
Proof. intros Hu. unfold fetchDataTPS. cstep. intros _ _. cstep. done. Qed.

Lemma obeys_acquire n s : ok (LWG.acquire n s).
Proof.
  induction n as [|n IH]; [done|]. cbn [LWG.acquire]. cstep. intros _ _. apply IH.
Qed.

Lemma obeys_Add_1 lwg : limit lwg = 1 -> ok (LWG.Add lwg 1).
Proof.
  intros Hl. unfold LWG.Add. rewrite Hl. cbn [Z.ltb Z.compare Pos.compare Pos.compare_cont].
  cstep. intros _ _. apply obeys_acquire.
Qed.

Lemma obeys_Done lwg : ok (LWG.Done lwg).
Proof. unfold LWG.Done. cstep. intros _ _. apply obeys_trigger. by apply crawl_allowed. Qed.

Lemma obeys_NewLimitedWaitGroup_1 {S : Type} (f : LimitedWaitGroup -> prog S) :
  (forall lwg, limit lwg = 1 -> ok (f lwg)) -> ok (NewLimitedWaitGroup 1 ≫= f).
Proof.
  intros Hf. unfold NewLimitedWaitGroup.
  split; [by apply crawl_allowed|]. intros w _.
  split; [by apply crawl_allowed|]. intros s _.
  by apply Hf.
Qed.

Lemma obeys_fetchAndStoreTPS_go wg2 url ch subLoc :
  rooted url = true -> ok (fetchAndStoreTPS_go wg2 url ch subLoc).
Proof.
  intros Hu. unfold fetchAndStoreTPS_go.
  apply obeys_mbind; [by apply obeys_fetchDataTPS, tpsURL_on_site|]. intros [data err].
  apply obeys_mbind.
  { apply obeys_if_err. intros e. apply obeys_trigger. by apply crawl_allowed. }
  intros _. apply obeys_mbind.
  { destruct (StatusSuara _); [|done]. apply obeys_trigger. by apply crawl_allowed. }
  intros _. apply obeys_Done.
Qed.

Lemma obeys_fetchAndStoreTPS ctx burl loc ch :
  rooted burl = true -> ok (fetchAndStoreTPS ctx burl loc ch).
Proof.
  intros Hb. unfold fetchAndStoreTPS.
  pose proof (rooted_listing burl (Kode loc) Hb) as Hu.
  apply obeys_mbind; [by apply obeys_fetchLocations, rooted_on_site|].
  intros [subLocs [e|]]; [done|].
  apply obeys_NewLimitedWaitGroup_1. intros wg2 Hl.
  apply obeys_mbind; [|done]. apply obeys_for_range. intros subLoc.
  apply obeys_mbind; [by apply obeys_Add_1|]. intros _.
  apply obeys_go. by apply obeys_fetchAndStoreTPS_go.
Qed.

Lemma obeys_processAndStoreLocation fuel ctx ch : forall burl loc,
  rooted burl = true -> ok (processAndStoreLocation fuel ctx burl loc ch).
Proof.
  induction fuel as [|n IH]; intros burl loc Hb; cbn [processAndStoreLocation].
  all: pose proof (rooted_listing burl (Kode loc) Hb) as Hu.
  all: apply obeys_mbind; [by apply obeys_fetchLocations, rooted_on_site|].
  all: intros [subLocs [e|]]; [done|].
  all: cstep; intros errv _.
  all: apply obeys_NewLimitedWaitGroup_1; intros g Hl.
  all: apply obeys_mbind; [|intros _; cstep; done].
  all: apply obeys_for_range; intros subLoc.
  all: apply obeys_mbind; [by apply obeys_Add_1|]; intros _.
  all: apply obeys_go.
  all: cstep; intros _ _.
  all: apply obeys_mbind;
    [|intros e0; cstep; intros _ _; cstep; intros v _;
      apply obeys_mbind;
        [apply obeys_if_err; intros e'; apply obeys_trigger; by apply crawl_allowed|];
      intros _; apply obeys_Done].
  all: destruct (Tingkat subLoc =? 4);
    first [by apply obeys_fetchAndStoreTPS, rooted_child
          |by apply IH, rooted_child
          |split; [by apply crawl_allowed|by intros []]].
Qed.

(** The loop of [main] over the locations of the root listing. *)
Lemma obeys_main_loop depth wg ch locations :
  ok (for_range locations (fun loc =>
        trigger (EvWgAdd wg 1);;
        go_ (err ← processAndStoreLocation depth Background baseURL loc ch;
             if_err err (fun e' =>
               trigger (EvPrintln [OStr "Error processing and storing location:"; OErr e']));;
             trigger (EvWgDone wg)))).
Proof.
  apply obeys_for_range. intros loc. cstep. intros _ _. apply obeys_go.
  apply obeys_mbind; [by apply obeys_processAndStoreLocation|]. intros err.
  apply obeys_mbind.
  { apply obeys_if_err. intros e'. apply obeys_trigger. by apply crawl_allowed. }
  intros _. apply obeys_trigger. by apply crawl_allowed.
Qed.

End Crawl.

(** ** [main] under a policy *)

Section Main.

Variable allowed : forall X : Type, event X -> Prop.
Variable answers : forall X : Type, event X -> X -> Prop.
Hypothesis crawl_allowed : forall X (e : event X), crawl_op e = true -> allowed X e.
Hypothesis LoadEnv_allowed : allowed _ EvLoadEnv.
Hypothesis Panic_allowed : forall v, allowed _ (EvPanic v).
Hypothesis MakeChan_allowed : allowed _ (EvMakeChan 20).

(** [main] obeys a policy that allows the operations of the crawl, when its
    sink obeys it. *)
Lemma obeys_main depth fuel :
  (forall ch, obeys allowed answers (insertData fuel Background ch)) ->
  obeys allowed answers (main depth fuel).
Proof.
  intros Hsink. unfold main.
  apply obeys_then; [done|]. intros [e|] _.
  { split; [done|]. by intros []. }
  apply obeys_mbind; [by apply obeys_fetchLocations|].
  intros [locations [e|]].
  { apply obeys_trigger. by apply crawl_allowed. }
  apply obeys_then; [done|]. intros dataChannel _.
  apply obeys_mbind.
  { apply obeys_go. apply obeys_mbind; [apply Hsink|done]. }
  intros _. apply obeys_then; [by apply crawl_allowed|]. intros wg _.
  apply obeys_mbind; [by apply obeys_main_loop|]. intros _.
  apply obeys_then; [by apply crawl_allowed|]. intros _ _.
  apply obeys_trigger. by apply crawl_allowed.
Qed.

End Main.

(** ** Requests stay on the site *)

Lemma site_only_sink fuel ctx ch : obeys site_only any_answer (insertData fuel ctx ch).
Proof.
  assert (Hr : forall fuel, obeys site_only any_answer (insertData_range fuel ctx ch)).
  { clear fuel. induction fuel as [|n IH]; simpl; [split; [done|by intros []]|].
    split; [done|]. intros [d|] _; simpl; [|done].
    split; [done|]. intros [e|] _; [done|]. apply IH. }
  unfold insertData.
  apply obeys_then; [done|]. intros uri _.
  apply obeys_then; [done|]. intros [e|] _.
  - apply obeys_then; [done|]. done.
  - apply obeys_then; [done|]. intros [e|] _.
    + apply obeys_then; [done|]. intros _ _. split; [done|]. by intros [].
    + apply obeys_mbind; [apply Hr|]. intros r. apply obeys_then; [done|]. done.
Qed.

(** X4: whatever the schedule and whatever the source answers, codes of
    the listings included, every URL that the process hands to [http.Get]
    starts with [baseURL] or with [resultsURL]: the host is never another
    one. *)
Theorem requests_stay_on_site E ds depth fuel w' :
  reachable E (init_world ds (main depth fuel)) w' ->
  requests_on_site w'.
Proof.
  intros Hr.
  refine (proj1 (obeys_reachable E site_only any_answer requests_on_site _ _ _ _ _ _ _ Hr)).
  - done.
  - intros X e w x w1 He HI. unfold requests_on_site in *.
    destruct e; simpl in *; repeat case_match; intros; simplify_eq; wsimpl;
      split; try done.
    apply Forall_app. split; [done|]. by repeat constructor.
  - done.
  - constructor.
  - constructor; [|constructor].
    apply obeys_main; try done.
    + intros X e He. destruct e; simpl in *; done.
    + intros ch. apply site_only_sink.
Qed.

Lemma requests_stay_on_site_witness :
  exists w', exec (small_env true) orderly_schedule (init_world [] (main 5 10)) = Some w' /\
             requests_on_site w'.
Proof.
  destruct orderly_schedule_runs as [w' Hw'].
  exists w'. split; [exact Hw'|].
  apply (requests_stay_on_site (small_env true) [] 5 10 w').
  exists orderly_schedule. exact Hw'.
Defined.

(** ** Buffers stay small *)

(** X5: whatever the schedule, every semaphore of the process has
    capacity 1 and holds at most one token, so that of the goroutines
    started under one [LimitedWaitGroup] at most one is between its [Add]
    and its [Done]; and every channel of records has capacity 20 and holds
    at most 20 records. *)
Theorem buffers_stay_bounded E ds depth fuel w' :
  reachable E (init_world ds (main depth fuel)) w' ->
  Forall (fun c => ch_cap c = 1%nat /\ (length (ch_buf c) <= 1)%nat) (sems w') /\
  Forall (fun c => ch_cap c = 20%nat /\ (length (ch_buf c) <= 20)%nat) (chans w').
Proof.
  intros Hr.
  assert (Hb : buffers_bounded w').
  { refine (proj1 (obeys_reachable E small_buffers any_answer buffers_bounded _ _ _ _ _ _ _ Hr)).
    - done.
    - intros X e w x w1 He [Hs Hc]. unfold buffers_bounded.
      destruct e; simpl in He |- *.
      all: try solve [intros ?; simplify_eq; wsimpl; done].
      all: try solve [repeat case_match; intros; simplify_eq; wsimpl; done].
      + (* make(chan struct{}) *)
        subst. simpl. intros ?; simplify_eq; wsimpl. split; [|done]. split; [|done].
        apply Forall_app. split; [done|]. repeat constructor; unfold within_cap; simpl; lia.
      + (* a token into a semaphore *)
        destruct (sems w !! c) as [c0|] eqn:Hc0; [|done].
        destruct (Forall_lookup_1 _ _ _ _ Hs Hc0) as [Hcap _].
        destruct (chan_send c0 ()) as [[c1|]|] eqn:Hsend; try done.
        apply chan_send_within in Hsend as (Hcap1 & _ & Hin).
        intros ?; simplify_eq; wsimpl. split; [|done]. split; [|done].
        apply Forall_insert; [done|]. split; [congruence|done].
      + (* a token out of a semaphore *)
        destruct (sems w !! c) as [c0|] eqn:Hc0; [|done].
        destruct (Forall_lookup_1 _ _ _ _ Hs Hc0) as [Hcap Hin0].
        destruct (chan_recv c0) as [[u c1]|] eqn:Hrecv; try done.
        apply chan_recv_within in Hrecv as (Hcap1 & Hlen & _).
        intros ?; simplify_eq; wsimpl. split; [|done]. split; [|done].
        apply Forall_insert; [done|]. split; [congruence|]. unfold within_cap in *. lia.
      + (* make(chan TPSData) *)
        subst. simpl. intros ?; simplify_eq; wsimpl. split; [|done]. split; [done|].
        apply Forall_app. split; [done|]. repeat constructor; unfold within_cap; simpl; lia.
      + (* send *)
        destruct (chans w !! c) as [c0|] eqn:Hc0; [|done].
        destruct (Forall_lookup_1 _ _ _ _ Hc Hc0) as [Hcap _].
        destruct (chan_send c0 d) as [[c1|]|] eqn:Hsend; try done.
        apply chan_send_within in Hsend as (Hcap1 & _ & Hin).
        intros ?; simplify_eq; wsimpl. split; [|done]. split; [done|].
        apply Forall_insert; [done|]. split; [congruence|done].
      + (* receive *)
        destruct (chans w !! c) as [c0|] eqn:Hc0; [|done].
        destruct (Forall_lookup_1 _ _ _ _ Hc Hc0) as [Hcap Hin0].
        destruct (chan_recv c0) as [[u c1]|] eqn:Hrecv; try done.
        apply chan_recv_within in Hrecv as (Hcap1 & Hlen & _).
        intros ?; simplify_eq; wsimpl. split; [|done]. split; [done|].
        apply Forall_insert; [done|]. split; [congruence|]. unfold within_cap in *. lia.
    - done.
    - split; constructor.
    - constructor; [|constructor].
      apply obeys_main; try done.
      + intros X e He. destruct e; simpl in *; try done. by apply Z.eqb_eq.
      + intros ch. assert (Hrg : forall fuel,
                      obeys small_buffers any_answer (insertData_range fuel Background ch)).
        { clear. induction fuel as [|n IH]; simpl; [split; [done|by intros []]|].
          split; [done|]. intros [d|] _; simpl; [|done].
          split; [done|]. intros [e|] _; [done|]. apply IH. }
        unfold insertData.
        apply obeys_then; [done|]. intros uri _.
        apply obeys_then; [done|]. intros [e|] _.
        * apply obeys_then; [done|]. done.
        * apply obeys_then; [done|]. intros [e|] _.
          -- apply obeys_then; [done|]. intros _ _. split; [done|]. by intros [].
          -- apply obeys_mbind; [apply Hrg|]. intros r. apply obeys_then; [done|]. done. }
  destruct Hb as [Hs Hc]. split.
  - eapply Forall_impl; [exact Hs|]. intros c [Hcap Hin]. unfold within_cap in Hin.
    split; [done|]. lia.
  - eapply Forall_impl; [exact Hc|]. intros c [Hcap Hin]. unfold within_cap in Hin.
    split; [done|]. lia.
Qed.

Lemma buffers_stay_bounded_witness :
  exists w', exec (small_env true) orderly_schedule (init_world [] (main 5 10)) = Some w' /\
             Forall (fun c => ch_cap c = 1%nat /\ (length (ch_buf c) <= 1)%nat) (sems w').
Proof.
  destruct orderly_schedule_runs as [w' Hw'].
  exists w'. split; [exact Hw'|].
  apply (buffers_stay_bounded (small_env true) [] 5 10 w').
  exists orderly_schedule. exact Hw'.
Defined.

(** ** When the collection cannot be used, when [main] gives up *)

(** X6: MongoDB cannot be reached.  [insertData] prints the failure and
    returns it at once: it creates no index and takes nothing from the
    channel.  And whatever the schedule, the collection and the connection
    stay as they were at the start. *)
Theorem mongo_down_nothing_stored E ds depth fuel :
  mongo_up E = false ->
  (forall ctx ch w,
     run E (insertData fuel ctx ch) w
     = (Returned (Some (Errorf "failed to connect to MongoDB: %w" ErrConnect)),
        with_stdout (stdout w ++ [[OStr "Error connecting to MongoDB:"; OErr ErrConnect]]) w)) /\
  (forall w', reachable E (init_world ds (main depth fuel)) w' -> db w' = init_store ds).
Proof.
  intros Hdown. split.
  { intros ctx ch w. unfold insertData.
    rewrite run_mbind, run_trigger. cbn [handle].
    rewrite run_mbind, run_trigger. cbn [handle]. rewrite Hdown.
    rewrite run_mbind, run_trigger. cbn [handle]. by rewrite run_mret. }
  intros w' Hr.
  refine (proj1 (obeys_reachable E no_store_op connect_fails
                   (fun w => db w = init_store ds) _ _ _ _ _ _ _ Hr)).
  - done.
  - intros X e w x w1 He HI.
    destruct e; simpl in *; repeat case_match; intros; simplify_eq; wsimpl; try done.
  - done.
  - done.
  - constructor; [|constructor].
    apply obeys_main; try done.
    + intros X e He. destruct e; simpl in *; done.
    + intros ch. unfold insertData.
      apply obeys_then; [done|]. intros uri _.
      apply obeys_then; [done|]. intros [e|] He; [|done].
      apply obeys_then; [done|]. done.
Qed.

Lemma mongo_down_nothing_stored_witness :
  run down_env (insertData 10 Background 0%nat) (sink_world [] [record_of 1] false)
  = (Returned (Some (Errorf "failed to connect to MongoDB: %w" ErrConnect)),
     with_stdout [[OStr "Error connecting to MongoDB:"; OErr ErrConnect]]
       (sink_world [] [record_of 1] false)) /\
  db (init_world [] (main 5 10)) = init_store [].
Proof.
  destruct (mongo_down_nothing_stored down_env [] 5 10 eq_refl) as [Ha Hb].
  split; [apply Ha|]. apply Hb, reachable_refl.
Defined.

(** X7: the collection holds two documents of the same id.  The unique
    index cannot be created: [insertData] disconnects and panics, and with
    it the process.  Whatever the schedule, no document is inserted and
    [InsertOne] is never called. *)
Theorem duplicate_ids_stop_the_sink E ds depth fuel :
  unique_ids ds = false ->
  (forall ctx ch w, mongo_up E = true -> docs (db w) = ds ->
     run E (insertData fuel ctx ch) w
     = (Panicked (OErr ErrIndex),
        with_crashed (Some (OErr ErrIndex))
          (with_db (mkStore ds false (attempts (db w))) w))) /\
  (forall w', reachable E (init_world ds (main depth fuel)) w' ->
     docs (db w') = ds /\ attempts (db w') = []).
Proof.
  intros Hdup. split.
  { intros ctx ch w Hup Hds. unfold insertData.
    rewrite run_mbind, run_trigger. cbn [handle].
    rewrite run_mbind, run_trigger. cbn [handle]. rewrite Hup.
    rewrite run_mbind, run_trigger. cbn [handle]. wsimpl. rewrite Hds, Hdup.
    rewrite run_mbind, run_trigger. cbn [handle]. wsimpl.
    unfold panic. simpl. done. }
  intros w' Hr.
  refine (proj1 (obeys_reachable E no_insert_op index_fails
                   (fun w => docs (db w) = ds /\ attempts (db w) = []) _ _ _ _ _ _ _ Hr)).
  - done.
  - intros X e w x w1 He [HI1 HI2].
    destruct e; simpl in *; repeat case_match; intros; simplify_eq; wsimpl; try done.
    congruence.
  - done.
  - done.
  - constructor; [|constructor].
    apply obeys_main; try done.
    + intros X e He. destruct e; simpl in *; done.
    + intros ch. unfold insertData.
      apply obeys_then; [done|]. intros uri _.
      apply obeys_then; [done|]. intros [e|] _.
      { apply obeys_then; [done|]. done. }
      apply obeys_then; [done|]. intros [e|] He; [|done].
      apply obeys_then; [done|]. intros _ _. split; [done|]. by intros [].
Qed.

Lemma duplicate_ids_stop_the_sink_witness :
  let ds := [record_of 1; record_of 1] in
  run confirmed_env (insertData 10 Background 0%nat) (sink_world ds [record_of 2] false)
  = (Panicked (OErr ErrIndex),
     with_crashed (Some (OErr ErrIndex))
       (with_db (mkStore ds false []) (sink_world ds [record_of 2] false))) /\
  docs (db (init_world ds (main 5 10))) = ds.
Proof.
  intros ds.
  destruct (duplicate_ids_stop_the_sink confirmed_env ds 5 10 eq_refl) as [Ha Hb].
  split; [by apply Ha|]. exact (proj1 (Hb _ (reachable_refl _ _))).
Defined.

(** X8: the .env file cannot be loaded.  [main] panics with "Error loading
    .env file"; whatever the schedule, nothing is requested, nothing is
    printed, no channel is made and the database is not touched. *)
Theorem env_file_missing E ds depth fuel :
  env_file_ok E = false ->
  run E (main depth fuel) (init_world ds (main depth fuel))
  = (Panicked env_panic, with_crashed (Some env_panic) (init_world ds (main depth fuel))) /\
  (forall w', reachable E (init_world ds (main depth fuel)) w' ->
     requests w' = [] /\ stdout w' = [] /\ chans w' = [] /\ db w' = init_store ds /\
     (crashed w' = None \/ crashed w' = Some env_panic)).
Proof.
  intros Henv. split.
  { unfold main. rewrite run_mbind, run_trigger. cbn [handle]. by rewrite Henv. }
  intros w' Hr.
  refine (proj1 (obeys_reachable E env_op env_fails
                   (fun w => requests w = [] /\ stdout w = [] /\ chans w = [] /\
                             db w = init_store ds /\
                             (crashed w = None \/ crashed w = Some env_panic))
                   _ _ _ _ _ _ _ Hr)).
  - done.
  - intros X e w x w1 He HI.
    destruct e; simpl in *; try done.
    intros; simplify_eq. rewrite Henv. done.
  - intros X e w v He (? & ? & ? & ? & ?).
    destruct e; simpl in *; try done.
    intros; simplify_eq. repeat split; try done. by right.
  - repeat split; try done. by left.
  - constructor; [|constructor]. unfold main.
    apply obeys_then; [done|]. intros [e|] He; [|done].
    split; [done|]. by intros [].
Qed.

Lemma env_file_missing_witness :
  let w0 := init_world [] (main 5 10) in
  run no_env_file (main 5 10) w0 = (Panicked env_panic, with_crashed (Some env_panic) w0) /\
  requests w0 = [].
Proof.
  intros w0.
  destruct (env_file_missing no_env_file [] 5 10 eq_refl) as [Ha Hb].
  split; [exact Ha|]. exact (proj1 (Hb w0 (reachable_refl _ _))).
Defined.

(** X9: the root listing cannot be fetched or decoded.  [main] prints
    "Error fetching initial locations:" with the error and returns;
    whatever the schedule, no channel is made, the database is not touched,
    the process does not panic and requests nothing but the root listing. *)
Theorem root_listing_fails E ds depth fuel e :
  env_file_ok E = true ->
  (decodeLocations (remote E initialURL)).2 = Some e ->
  run E (main depth fuel) (init_world ds (main depth fuel))
  = (Returned tt,
     with_stdout [[OStr "Error fetching initial locations:"; OErr e]]
       (with_requests [initialURL] (init_world ds (main depth fuel)))) /\
  (forall w', reachable E (init_world ds (main depth fuel)) w' ->
     chans w' = [] /\ db w' = init_store ds /\ crashed w' = None /\
     Forall (fun url => url = initialURL) (requests w')).
Proof.
  intros Henv Hroot. split.
  { unfold main. rewrite run_mbind, run_trigger. cbn [handle]. rewrite Henv.
    rewrite run_mbind, run_fetchLocations. fold initialURL.
    destruct (decodeLocations (remote E initialURL)) as [locs err]. simpl in Hroot. subst err.
    by rewrite run_trigger. }
  intros w' Hr.
  refine (proj1 (obeys_reachable E root_op root_fails
                   (fun w => chans w = [] /\ db w = init_store ds /\ crashed w = None /\
                             Forall (fun url => url = initialURL) (requests w))
                   _ _ _ _ _ _ _ Hr)).
  - done.
  - intros X ev w x w1 He (? & ? & ? & ?).
    destruct ev; simpl in *; try done; intros; simplify_eq; wsimpl.
    + by rewrite Henv.
    + repeat split; try done; [|by rewrite Hroot].
      apply Forall_app. split; [done|]. by repeat constructor.
    + done.
  - intros X ev w v He HI. destruct ev; simpl in *; done.
  - repeat split; try done.
  - constructor; [|constructor]. unfold main.
    apply obeys_then; [done|]. intros [e0|] He; [done|].
    unfold fetchLocations. fold initialURL.
    split; [done|]. intros x Hx. simpl in Hx |- *.
    destruct (decodeLocations x) as [locs [e1|]]; [|done].
    simpl. split; [by eexists|done].
Qed.

Lemma root_listing_fails_witness :
  let w0 := init_world [] (main 5 10) in
  run unreachable_env (main 5 10) w0
  = (Returned tt,
     with_stdout [[OStr "Error fetching initial locations:"; OErr ErrGet]]
       (with_requests [initialURL] w0)) /\
  chans w0 = [].
Proof.
  intros w0.
  destruct (root_listing_fails unreachable_env [] 5 10 ErrGet eq_refl eq_refl) as [Ha Hb].
  split; [exact Ha|]. exact (proj1 (Hb w0 (reachable_refl _ _))).
Defined.

(** ** Credit on wait groups: the process never panics

    Every [Done] of the program is paid for by an [Add] made before the
    goroutine that calls it was started.  The credits of the goroutines on
    a wait group add up to at most its counter, so no [Done] meets a
    counter at 0. *)

Lemma zsum_app l1 l2 : zsum (l1 ++ l2) = zsum l1 + zsum l2.
Proof. induction l1 as [|x l1 IH]; simpl; lia. Qed.

Lemma zsum_insert l i x y :
  l !! i = Some y -> zsum (<[i := x]> l) = zsum l - y + x.
Proof.
  revert i. induction l as [|z l IH]; intros [|i]; simpl; try done.
  - intros [= ->]. lia.
  - intros H. rewrite (IH _ H). lia.
Qed.

Lemma zsum_lookup_le l i y :
  Forall (fun b => 0 <= b) l -> l !! i = Some y -> y <= zsum l.
Proof.
  intros Hl. revert i. induction Hl as [|z l Hz Hl IH]; intros [|i]; simpl; try done.
  - intros [= ->]. assert (0 <= zsum l); [|lia].
    clear -Hl. induction Hl; simpl; lia.
  - intros H. specialize (IH _ H). lia.
Qed.

Lemma zsum_nonneg l : Forall (fun b => 0 <= b) l -> 0 <= zsum l.
Proof. induction 1; simpl; lia. Qed.

Lemma within_credit_mono r {R : Type} (p : prog R) :
  forall b (Q Q' : R -> Z -> Prop),
    (forall x m, Q x m -> Q' x m) ->
    within_credit r p b Q -> within_credit r p b Q'.
Proof.
  induction p as [R x|R X e k IH|R c IHc k IHk]; intros b Q Q' HQ; simpl.
  - apply HQ.
  - intros [He Hk]. split; [done|]. intros x Hx. eapply IH; eauto.
  - intros (a & Ha & Hc & Hk). exists a. split; [done|]. split; [done|]. eapply IHk; eauto.
Qed.

Lemma within_credit_bind r {R S : Type} (p : prog R) (f : R -> prog S) :
  forall b Q,
    within_credit r p b (fun x m => within_credit r (f x) m Q) ->
    within_credit r (bind p f) b Q.
Proof.
  induction p as [R x|R X e k IH|R c IHc k IHk]; intros b Q; simpl.
  - done.
  - intros [He Hk]. split; [done|]. intros x Hx. apply IH; auto.
  - intros (a & Ha & Hc & Hk). exists a. split; [done|]. split; [done|]. by apply IHk.
Qed.

Lemma balanced_bind r {R S : Type} (p : prog R) (f : R -> prog S) :
  balanced r p -> (forall x, balanced r (f x)) -> balanced r (bind p f).
Proof.
  intros Hp Hf b Hb. apply within_credit_bind.
  eapply within_credit_mono; [|by apply Hp].
  intros x m ->. simpl. by apply Hf.
Qed.

Lemma balanced_mbind r {R S : Type} (p : prog R) (f : R -> prog S) :
  balanced r p -> (forall x, balanced r (f x)) -> balanced r (p ≫= f).
Proof. apply balanced_bind. Qed.

Lemma balanced_ret r {R : Type} (x : R) : balanced r (Ret x).
Proof. by intros b Hb. Qed.

Lemma neutral_in_order r {X : Type} (e : event X) b :
  neutral e = true -> in_order r e b /\ credit_after r e b = b.
Proof. destruct e; simpl; try done; intros H%Z.leb_le; done. Qed.

Lemma balanced_then r {X S : Type} (e : event X) (f : X -> prog S) :
  neutral e = true -> (forall x, sound_answer e x -> balanced r (f x)) ->
  balanced r (trigger e ≫= f).
Proof.
  intros He Hf b Hb. destruct (neutral_in_order r e b He) as [Ho Hc].
  simpl. split; [done|]. intros x Hx. rewrite Hc. by apply Hf.
Qed.

Lemma balanced_trigger r {X : Type} (e : event X) :
  neutral e = true -> balanced r (trigger e).
Proof.
  intros He b Hb. destruct (neutral_in_order r e b He) as [Ho Hc].
  simpl. split; [done|]. intros x Hx. by rewrite Hc.
Qed.

Lemma balanced_for_range r {A : Type} (l : list A) body :
  (forall x, balanced r (body x)) -> balanced r (for_range l body).
Proof.
  intros Hb. induction l as [|x l IH]; simpl; [apply balanced_ret|].
  apply balanced_bind; auto.
Qed.

Lemma balanced_if_err r e body :
  (forall e', balanced r (body e')) -> balanced r (if_err e body).
Proof. destruct e; simpl; [auto|]. intros _. apply balanced_ret. Qed.

Lemma balanced_out_of_fuel r {R : Type} : balanced r (@out_of_fuel R).
Proof. intros b Hb. simpl. split; [done|]. by intros []. Qed.

(** ** The program stays within its credit *)

Lemma within_credit_seq r {R S : Type} (p : prog R) (f : R -> prog S) b Q :
  balanced r p -> 0 <= b -> (forall x, within_credit r (f x) b Q) ->
  within_credit r (p ≫= f) b Q.
Proof.
  intros Hp Hb Hf. apply within_credit_bind.
  eapply within_credit_mono; [|by apply Hp].
  intros x m ->. apply Hf.
Qed.

Lemma own_range r r' : 0 <= own r r' <= 1.
Proof. unfold own. case_decide; lia. Qed.

Lemma credit_Done r lwg :
  within_credit r (LWG.Done lwg) (own r (wg lwg)) (fun _ m => 0 <= m).
Proof.
  unfold LWG.Done. simpl. split; [done|]. intros _ _.
  split; [lia|]. intros _ _. lia.
Qed.

(** [Add(1)] on a group of limit 1, then [go child()]: the credit that
    [Add] brings goes to the child. *)
Lemma balanced_Add_go r lwg child :
  limit lwg = 1 ->
  within_credit r child (own r (wg lwg)) (fun _ m => 0 <= m) ->
  balanced r (LWG.Add lwg 1;; go_ child).
Proof.
  intros Hl Hc b Hb. pose proof (own_range r (wg lwg)).
  unfold LWG.Add. rewrite Hl. simpl.
  split; [lia|]. intros _ _. split; [done|]. intros _ _.
  exists (own r (wg lwg)). split; [lia|]. split; [done|]. lia.
Qed.

Lemma balanced_WgAdd_go r g child :
  within_credit r child (own r g) (fun _ m => 0 <= m) ->
  balanced r (trigger (EvWgAdd g 1);; go_ child).
Proof.
  intros Hc b Hb. pose proof (own_range r g). simpl.
  split; [lia|]. intros _ _.
  exists (own r g). split; [lia|]. split; [done|]. lia.
Qed.

Lemma balanced_go r child :
  within_credit r child 0 (fun _ m => 0 <= m) -> balanced r (go_ child).
Proof.
  intros Hc b Hb. simpl. exists 0. split; [lia|]. split; [done|]. lia.
Qed.

Lemma balanced_NewLimitedWaitGroup_1 r {S : Type} (f : LimitedWaitGroup -> prog S) :
  (forall lwg, limit lwg = 1 -> balanced r (f lwg)) ->
  balanced r (NewLimitedWaitGroup 1 ≫= f).
Proof.
  intros Hf b Hb. unfold NewLimitedWaitGroup. simpl.
  split; [done|]. intros w _. split; [lia|]. intros s _. by apply Hf.
Qed.

(** One neutral operation, then the rest. *)
Ltac bstep := apply balanced_then; [done|].

Lemma balanced_fetchLocations r url : balanced r (fetchLocations url).
Proof. unfold fetchLocations. bstep. intros x _. apply balanced_ret. Qed.

Lemma balanced_fetchDataTPS r url : balanced r (fetchDataTPS url).
Proof.
  unfold fetchDataTPS. bstep. intros _ _. bstep. intros x _. apply balanced_ret.
Qed.

Lemma credit_fetchAndStoreTPS_go r wg2 url ch subLoc :
  within_credit r (fetchAndStoreTPS_go wg2 url ch subLoc) (own r (wg wg2)) (fun _ m => 0 <= m).
Proof.
  pose proof (own_range r (wg wg2)).
  unfold fetchAndStoreTPS_go.
  apply within_credit_seq; [apply balanced_fetchDataTPS|lia|]. intros [data err].
  apply within_credit_seq; [|lia|].
  { apply balanced_if_err. intros e. by apply balanced_trigger. }
  intros _. apply within_credit_seq; [|lia|].
  { destruct (StatusSuara _); [by apply balanced_trigger|apply balanced_ret]. }
  intros _. apply credit_Done.
Qed.

Lemma balanced_fetchAndStoreTPS r ctx burl loc ch :
  balanced r (fetchAndStoreTPS ctx burl loc ch).
Proof.
  unfold fetchAndStoreTPS.
  apply balanced_mbind; [apply balanced_fetchLocations|].
  intros [subLocs [e|]]; [apply balanced_ret|].
  apply balanced_NewLimitedWaitGroup_1. intros wg2 Hl.
  apply balanced_mbind; [|intros _; apply balanced_ret].
  apply balanced_for_range. intros subLoc.
  apply balanced_Add_go; [done|]. apply credit_fetchAndStoreTPS_go.
Qed.

Lemma balanced_processAndStoreLocation r fuel ctx ch : forall burl loc,
  balanced r (processAndStoreLocation fuel ctx burl loc ch).
Proof.
  induction fuel as [|n IH]; intros burl loc; cbn [processAndStoreLocation].
  all: apply balanced_mbind; [apply balanced_fetchLocations|].
  all: intros [subLocs [e|]]; [apply balanced_ret|].
  all: bstep; intros errv _.
  all: apply balanced_NewLimitedWaitGroup_1; intros g Hl.
  all: apply balanced_mbind; [|intros _; bstep; intros _ _; apply balanced_ret].
  all: apply balanced_for_range; intros subLoc.
  all: apply balanced_Add_go; [done|].
  all: pose proof (own_range r (wg g)).
  all: apply within_credit_seq; [by apply balanced_trigger|lia|]; intros _.
  all: apply within_credit_seq; [|lia|].
  all: try (intros e0;
            apply within_credit_seq; [by apply balanced_trigger|lia|]; intros _;
            apply within_credit_seq; [by apply balanced_trigger|lia|]; intros v;
            apply within_credit_seq;
              [apply balanced_if_err; intros e'; by apply balanced_trigger|lia|];
            intros _; apply credit_Done).
  all: destruct (Tingkat subLoc =? 4);
    first [apply balanced_fetchAndStoreTPS | apply IH | apply balanced_out_of_fuel].
Qed.

Lemma balanced_insertData r fuel ctx ch : balanced r (insertData fuel ctx ch).
Proof.
  assert (Hr : forall fuel, balanced r (insertData_range fuel ctx ch)).
  { clear fuel. induction fuel as [|n IH]; cbn [insertData_range].
    - apply balanced_out_of_fuel.
    - bstep. intros [d|] _.
      + bstep. intros [e|] _; [apply balanced_ret|apply IH].
      + bstep. intros _ _. apply balanced_ret. }
  unfold insertData.
  bstep. intros uri _. bstep. intros [e|] _.
  - bstep. intros _ _. apply balanced_ret.
  - bstep. intros [e|] He; [done|].
    apply balanced_mbind; [apply Hr|]. intros x. bstep. intros _ _. apply balanced_ret.
Qed.

Lemma credit_main r depth fuel :
  within_credit r (main depth fuel) 0 (fun _ m => 0 <= m).
Proof.
  assert (Hm : balanced r (main depth fuel));
    [|eapply within_credit_mono; [|apply Hm; lia]; intros x m ->; lia].
  unfold main. bstep. intros [e|] He; [done|].
  apply balanced_mbind; [apply balanced_fetchLocations|].
  intros [locations [e|]]; [by apply balanced_trigger|].
  bstep. intros dataChannel _.
  apply balanced_mbind.
  { apply balanced_go. apply within_credit_bind.
    eapply within_credit_mono; [|apply balanced_insertData; lia].
    intros x m ->. simpl. lia. }
  intros _. bstep. intros g _.
  apply balanced_mbind; [|intros _; bstep; intros _ _; by apply balanced_trigger].
  apply balanced_for_range. intros loc.
  apply balanced_WgAdd_go.
  pose proof (own_range r g).
  apply within_credit_seq; [apply balanced_processAndStoreLocation|lia|]. intros err.
  apply within_credit_seq; [|lia|].
  { apply balanced_if_err. intros e'. by apply balanced_trigger. }
  intros _. simpl. split; [lia|]. intros _ _. lia.
Qed.

(** ** Every step keeps the process sound *)

Lemma has_id_snoc i ds d : has_id i (ds ++ [d]) = has_id i ds || (Id d =? i).
Proof. unfold has_id. rewrite existsb_app. simpl. by rewrite orb_false_r. Qed.

Lemma unique_ids_snoc ds d :
  unique_ids ds = true -> has_id (Id d) ds = false -> unique_ids (ds ++ [d]) = true.
Proof.
  induction ds as [|x ds IH]; simpl; [done|].
  intros [Hx Hu]%andb_true_iff [Hd Hds]%orb_false_iff.
  rewrite has_id_snoc, IH by done.
  apply negb_true_iff in Hx. rewrite Hx. simpl.
  rewrite Z.eqb_sym, Hd. done.
Qed.

Lemma credit_after_shift r {X : Type} (e : event X) b :
  credit_after r e b = b + credit_after r e 0.
Proof. destruct e; simpl; lia. Qed.

(** The counter of a wait group moves as the credit of the goroutine that
    operates on it. *)
Lemma handle_counter E r {X : Type} (e : event X) w x w' :
  handle E e w = Next x w' -> counter r w' = credit_after r e (counter r w).
Proof.
  unfold counter.
  destruct e; simpl; repeat case_match; intros; simplify_eq; wsimpl; try done.
  - (* a new wait group *)
    destruct (decide (r < length (wgs w))%nat).
    + by rewrite lookup_app_l.
    + rewrite (lookup_ge_None_2 (wgs w)) by lia. simpl.
      destruct (decide (r = length (wgs w))) as [->|].
      * by rewrite lookup_app_r, Nat.sub_diag.
      * rewrite lookup_ge_None_2; [done|]. rewrite length_app. simpl. lia.
  - (* Add *)
    unfold own. case_decide as Hr.
    + subst. rewrite list_lookup_insert_eq by (eapply lookup_lt_Some; eauto).
      simpl. match goal with H : wgs _ !! _ = Some _ |- _ => rewrite H end. simpl. lia.
    + rewrite list_lookup_insert_ne by done. lia.
  - (* Done *)
    unfold own. case_decide as Hr.
    + subst. rewrite list_lookup_insert_eq by (eapply lookup_lt_Some; eauto).
      simpl. match goal with H : wgs _ !! _ = Some _ |- _ => rewrite H end. simpl. lia.
    + rewrite list_lookup_insert_ne by done. lia.
Qed.

Lemma covered_credit r w t p :
  covered r w -> threads w !! t = Some p ->
  exists b, 0 <= b <= counter r w /\ within_credit r p b (fun _ m => 0 <= m).
Proof.
  intros (bs & Hbs & Hsum) Ht.
  destruct (Forall2_lookup_l _ _ _ _ _ Hbs Ht) as (b & Hb & Hb0 & Hp).
  exists b. split; [|done]. split; [done|].
  assert (Forall (fun b => 0 <= b) bs).
  { clear -Hbs. induction Hbs as [|? ? ? ? [? _]]; constructor; auto. }
  pose proof (zsum_lookup_le _ _ _ H Hb). lia.
Qed.

Lemma handle_no_crash E {X : Type} (e : event X) k w t v :
  sound_world w -> threads w !! t = Some (Vis e k) -> handle E e w <> Crash v.
Proof.
  intros (Hsems & Hchans & Huniq & Hcr & Hcov) Ht.
  destruct e; simpl; try done.
  - (* Add *)
    destruct (wgs w !! w0) as [n|] eqn:Hn; [|done].
    destruct (covered_credit _ _ _ _ (Hcov w0) Ht) as (b & Hb & Ho & _).
    simpl in Ho. unfold counter in Hb. rewrite Hn in Hb. simpl in Hb.
    destruct (Z.ltb_spec (n + delta) 0); [lia|done].
  - (* Done *)
    destruct (wgs w !! w0) as [n|] eqn:Hn; [|done].
    destruct (covered_credit _ _ _ _ (Hcov w0) Ht) as (b & Hb & Ho & _).
    simpl in Ho. unfold own in Ho. rewrite decide_True in Ho by done.
    unfold counter in Hb. rewrite Hn in Hb. simpl in Hb.
    destruct (Z.ltb_spec (n - 1) 0); [lia|done].
  - (* Wait *)
    by repeat case_match.
  - (* make(chan struct{}) *)
    destruct (covered_credit _ _ _ _ (Hcov 0%nat) Ht) as (b & Hb & Ho & _).
    simpl in Ho. destruct (Z.ltb_spec cap 0); [lia|done].
  - (* a token into a semaphore *)
    destruct (sems w !! c) as [c0|] eqn:Hc; [|done].
    pose proof (Forall_lookup_1 _ _ _ _ Hsems Hc) as Hco. simpl in Hco.
    unfold chan_send. rewrite Hco. by destruct (_ <? _)%nat.
  - (* a token out of a semaphore *)
    destruct (sems w !! c) as [c0|] eqn:Hc; [|done].
    by destruct (chan_recv c0) as [[]|].
  - (* make(chan TPSData) *)
    destruct (covered_credit _ _ _ _ (Hcov 0%nat) Ht) as (b & Hb & Ho & _).
    simpl in Ho. destruct (Z.ltb_spec cap 0); [lia|done].
  - (* send *)
    destruct (chans w !! c) as [c0|] eqn:Hc; [|done].
    pose proof (Forall_lookup_1 _ _ _ _ Hchans Hc) as Hco. simpl in Hco.
    unfold chan_send. rewrite Hco. by destruct (_ <? _)%nat.
  - (* receive *)
    destruct (chans w !! c) as [c0|] eqn:Hc; [|done].
    by destruct (chan_recv c0) as [[]|].
  - (* close *)
    destruct (covered_credit _ _ _ _ (Hcov 0%nat) Ht) as (b & Hb & Ho & _). done.
  - (* connect *)
    by destruct (mongo_up E).
  - (* InsertOne *)
    by destruct (has_id _ _).
  - (* panic *)
    destruct (covered_credit _ _ _ _ (Hcov 0%nat) Ht) as (b & Hb & Ho & _). done.
Qed.

Lemma handle_sound E r b {X : Type} (e : event X) w x w' :
  env_file_ok E = true ->
  in_order r e b ->
  Forall (fun c => ch_closed c = false) (sems w) ->
  Forall (fun c => ch_closed c = false) (chans w) ->
  unique_ids (docs (db w)) = true ->
  handle E e w = Next x w' ->
  Forall (fun c => ch_closed c = false) (sems w') /\
  Forall (fun c => ch_closed c = false) (chans w') /\
  unique_ids (docs (db w')) = true /\
  sound_answer e x.
Proof.
  intros Henv Ho Hsems Hchans Huniq.
  destruct e; simpl in Ho |- *.
  all: try solve [intros ?; simplify_eq; wsimpl; done].
  all: try solve [repeat case_match; intros; simplify_eq; wsimpl; done].
  - (* make(chan struct{}) *)
    case_match; [done|]. intros; simplify_eq; wsimpl.
    repeat split; try done. apply Forall_app. split; [done|]. by repeat constructor.
  - (* a token into a semaphore *)
    destruct (sems w !! c) as [c0|] eqn:Hc; [|done].
    unfold chan_send. destruct (ch_closed c0); [done|]. destruct (_ <? _)%nat; [|done].
    intros ?; simplify_eq; wsimpl. repeat split; try done. by apply Forall_insert.
  - (* a token out of a semaphore *)
    destruct (sems w !! c) as [c0|] eqn:Hc; [|done].
    pose proof (Forall_lookup_1 _ _ _ _ Hsems Hc) as Hco. simpl in Hco.
    unfold chan_recv. rewrite Hco. destruct (ch_buf c0); [done|].
    intros ?; simplify_eq; wsimpl. repeat split; try done. by apply Forall_insert.
  - (* make(chan TPSData) *)
    case_match; [done|]. intros; simplify_eq; wsimpl.
    repeat split; try done. apply Forall_app. split; [done|]. by repeat constructor.
  - (* send *)
    destruct (chans w !! c) as [c0|] eqn:Hc; [|done].
    unfold chan_send. destruct (ch_closed c0); [done|]. destruct (_ <? _)%nat; [|done].
    intros ?; simplify_eq; wsimpl. repeat split; try done. by apply Forall_insert.
  - (* receive *)
    destruct (chans w !! c) as [c0|] eqn:Hc; [|done].
    pose proof (Forall_lookup_1 _ _ _ _ Hchans Hc) as Hco. simpl in Hco.
    unfold chan_recv. rewrite Hco. destruct (ch_buf c0); [done|].
    intros ?; simplify_eq; wsimpl. repeat split; try done. by apply Forall_insert.
  - (* InsertOne *)
    destruct (has_id _ _) eqn:Hid; intros ?; simplify_eq; wsimpl; repeat split; try done.
    by apply unique_ids_snoc.
Qed.

Lemma Forall2_credit_nonneg r (ts : list (prog unit)) bs :
  Forall2 (fun p b => 0 <= b /\ within_credit r p b (fun _ m => 0 <= m)) ts bs ->
  Forall (fun b => 0 <= b) bs.
Proof. induction 1 as [|? ? ? ? [? _]]; constructor; auto. Qed.

Lemma sound_step E t w w' :
  env_file_ok E = true ->
  sound_world w -> step E t w = Some w' -> sound_world w'.
Proof.
  intros Henv Hw. pose proof Hw as (Hsems & Hchans & Huniq & Hcr & Hcov).
  unfold step. destruct (running w); [|done].
  destruct (threads w !! t) as [[r0|X e k|c k]|] eqn:Ht; try done.
  - destruct (handle E e w) as [|v|x w1] eqn:Hh; try done.
    { by destruct (handle_no_crash E e k w t v Hw Ht). }
    destruct (handle_frame _ _ _ _ _ Hh) as [Hts Hcr1].
    destruct (covered_credit _ _ _ _ (Hcov 0%nat) Ht) as (b0 & _ & Ho0 & _).
    destruct (handle_sound E _ _ _ _ _ _ Henv Ho0 Hsems Hchans Huniq Hh)
      as (Hsems1 & Hchans1 & Huniq1 & Hx).
    intros [= <-]. wsimpl.
    split; [done|]. split; [done|]. split; [done|]. split; [simpl; congruence|].
    intros r. destruct (Hcov r) as (bs & Hbs & Hsum).
    destruct (Forall2_lookup_l _ _ _ _ _ Hbs Ht) as (b & Hb & Hb0 & Ho & Hk).
    exists (<[t := credit_after r e b]> bs). unfold counter in *. wsimpl. split.
    + rewrite Hts. apply Forall2_insert; [done|]. split; [|by apply Hk].
      clear -Ho Hb0. destruct e; simpl in *; try lia.
      unfold own in *. case_decide; lia.
    + rewrite (zsum_insert _ _ _ _ Hb).
      pose proof (handle_counter E r e w x w1 Hh) as Hc. unfold counter in Hc.
      rewrite Hc, (credit_after_shift r e b), (credit_after_shift r e (default 0 _)). lia.
  - intros [= <-]. wsimpl.
    split; [done|]. split; [done|]. split; [done|]. split; [done|].
    intros r. destruct (Hcov r) as (bs & Hbs & Hsum).
    destruct (Forall2_lookup_l _ _ _ _ _ Hbs Ht) as (b & Hb & Hb0 & a & Ha & Hc & Hk).
    exists (<[t := b - a]> bs ++ [a]). unfold counter in *. wsimpl. split.
    + apply Forall2_app.
      * apply Forall2_insert; [done|]. split; [lia|done].
      * repeat constructor; [lia|done].
    + rewrite zsum_app, (zsum_insert _ _ _ _ Hb). simpl. lia.
Qed.

Lemma sound_init ds depth fuel :
  unique_ids ds = true -> sound_world (init_world ds (main depth fuel)).
Proof.
  intros Hu. split; [constructor|]. split; [constructor|]. split; [done|]. split; [done|].
  intros r. exists [0]. split; [|done].
  repeat constructor; [lia|apply credit_main].
Qed.

(** X10: when the .env file loads and the collection holds no two
    documents of the same id, so that the unique index can be created, no
    goroutine ever panics, whatever the schedule and whatever the source
    answers: no [Done] meets a counter at 0, no [Add] exceeds its limit,
    nothing is sent on a closed channel.  (The process can still block.) *)
Theorem main_never_panics E ds depth fuel w' :
  env_file_ok E = true -> unique_ids ds = true ->
  reachable E (init_world ds (main depth fuel)) w' ->
  crashed w' = None.
Proof.
  intros Henv Hu Hr.
  assert (Hs : sound_world w'); [|by destruct Hs as (_ & _ & _ & ? & _)].
  revert w' Hr. apply reachable_ind_steps; [by apply sound_init|].
  intros t w1 w2 H1 Hst. by eapply sound_step.
Qed.

Lemma main_never_panics_witness :
  exists w', exec (small_env true) orderly_schedule (init_world [] (main 5 10)) = Some w' /\
             crashed w' = None.
Proof.
  destruct orderly_schedule_runs as [w' Hw'].
  exists w'. split; [exact Hw'|].
  apply (main_never_panics (small_env true) [] 5 10 w').
  - reflexivity.
  - reflexivity.
  - exists orderly_schedule. exact Hw'.
Defined.

(** ** Failures of single fetches *)

(** X11: a failed listing ends the call.  On every path of
    [processAndStoreLocation] and of [fetchAndStoreTPS], a result other
    than nil is the error of the listing fetch, and the call has then done
    nothing but that one request: no group made, no goroutine started,
    nothing printed.  Run from any world, the call leaves it as it was but
    for the request. *)
Theorem failed_listing_ends_the_call E ctx ch fuel burl loc :
  let url := burl +:+ Kode loc +:+ ".json" in
  (forall tr r,
     follows (processAndStoreLocation fuel ctx burl loc ch) tr r ->
     exists resp, r = (decodeLocations resp).2 /\
       (r <> None -> tr = [Act (EvHttpGet url) resp])) /\
  (forall tr r,
     follows (fetchAndStoreTPS ctx burl loc ch) tr r ->
     exists resp, r = (decodeLocations resp).2 /\
       (r <> None -> tr = [Act (EvHttpGet url) resp])) /\
  (forall e w,
     (decodeLocations (remote E url)).2 = Some e ->
     run E (processAndStoreLocation fuel ctx burl loc ch) w
     = (Returned (Some e), with_requests (requests w ++ [url]) w) /\
     run E (fetchAndStoreTPS ctx burl loc ch) w
     = (Returned (Some e), with_requests (requests w ++ [url]) w)).
Proof.
  intros url. split; [|split].
  - intros tr r. destruct fuel as [|n]; cbn [processAndStoreLocation].
    all: intros (tr1 & tr2 & [subLocs err] & -> &
                 (resp & -> & Hd)%follows_fetchLocations & H)%follows_mbind.
    all: exists resp; rewrite <- Hd; simpl.
    all: destruct err as [e|]; [by destruct H as [-> <-]|].
    all: apply follows_mbind in H as (t1 & t2 & errv & _ & _ & H).
    all: apply follows_mbind in H as (t3 & t4 & g & _ & _ & H).
    all: apply follows_mbind in H as (t5 & t6 & [] & _ & _ & H).
    all: by apply follows_then_mret in H as ->.
  - intros tr r. unfold fetchAndStoreTPS.
    intros (tr1 & tr2 & [subLocs err] & -> &
            (resp & -> & Hd)%follows_fetchLocations & H)%follows_mbind.
    exists resp. rewrite <- Hd. simpl.
    destruct err as [e|]; [by destruct H as [-> <-]|].
    apply follows_mbind in H as (t1 & t2 & wg2 & _ & _ & H).
    by apply follows_then_mret in H as ->.
  - intros e w He. split.
    + destruct fuel as [|n]; cbn [processAndStoreLocation].
      all: rewrite run_mbind, run_fetchLocations; fold url.
      all: destruct (decodeLocations (remote E url)) as [subLocs err]; simpl in He; subst err.
      all: by rewrite run_mret.
    + unfold fetchAndStoreTPS. rewrite run_mbind, run_fetchLocations. fold url.
      destruct (decodeLocations (remote E url)) as [subLocs err]. simpl in He. subst err.
      by rewrite run_mret.
Qed.

Lemma failed_listing_ends_the_call_witness :
  run unreachable_env (processAndStoreLocation 5 Background baseURL province 0%nat)
    (sink_world [] [] false)
  = (Returned (Some ErrGet),
     with_requests [baseURL +:+ "11.json"] (sink_world [] [] false)).
Proof.
  exact (proj1 (proj2 (proj2 (failed_listing_ends_the_call unreachable_env Background 0%nat 5
                                 baseURL province))
                 ErrGet (sink_world [] [] false) eq_refl)).
Defined.

(** X12: a leaf whose fetch fails with an unconfirmed record, as it does on
    every failure of the request, of reading the body and of the JSON
    syntax.  The goroutine prints the failure after the line of
    [fetchDataTPS], leaves the channels and the database alone, frees its
    slot and lowers the counter: the siblings can go on. *)
Theorem failed_leaf_fetch_sends_nothing E wg2 url ch subLoc :
  let u := tpsURL url (Kode subLoc) in
  (remote E u = GetErr \/ remote E u = Resp None \/ remote E u = Resp (Some None) ->
   (decodeTPS (remote E u)).2 <> None /\ StatusSuara (decodeTPS (remote E u)).1 = false) /\
  (forall w s n e,
     (decodeTPS (remote E u)).2 = Some e ->
     StatusSuara (decodeTPS (remote E u)).1 = false ->
     sems w !! sem wg2 = Some s -> ch_buf s <> [] ->
     wgs w !! wg wg2 = Some n -> 1 <= n ->
     exists w',
       run E (fetchAndStoreTPS_go wg2 url ch subLoc) w = (Returned tt, w') /\
       stdout w' = stdout w ++ [[OStr "Fetching data TPS : "; OStr u];
                                [OStr "Error processing TPS:"; OStr (Kode subLoc); OErr e]] /\
       requests w' = requests w ++ [u] /\
       chans w' = chans w /\ db w' = db w /\ crashed w' = crashed w /\
       S (slots_in_use wg2 w') = slots_in_use wg2 w /\
       wgs w' !! wg wg2 = Some (n - 1)).
Proof.
  intros u. split; [by intros [->|[->| ->]]|].
  intros w s n e He Hflag Hs Htok Hn Hn1.
  assert (Hlw : (wg wg2 < length (wgs w))%nat) by (eapply lookup_lt_Some; eauto).
  assert (Hls : (sem wg2 < length (sems w))%nat) by (eapply lookup_lt_Some; eauto).
  unfold fetchAndStoreTPS_go. rewrite run_mbind, run_fetchDataTPS. fold u.
  destruct (decodeTPS (remote E u)) as [data err]. simpl in He, Hflag. subst err.
  rewrite run_mbind. unfold if_err. rewrite run_trigger. cbn [handle].
  rewrite run_mbind. cbn [StatusSuara set_Id]. rewrite Hflag, run_mret.
  rewrite (run_Done E wg2 _ s n) by done.
  eexists. split; [done|]. unfold after_fetch, slots_in_use. wsimpl.
  rewrite <- app_assoc, Hs, !list_lookup_insert_eq by done. wsimpl.
  repeat split; try done. by destruct (ch_buf s).
Qed.

Lemma failed_leaf_fetch_sends_nothing_witness :
  exists w',
    run unreachable_env (fetchAndStoreTPS_go leaf_group leaf_url 0%nat (station "1")) leaf_world
    = (Returned tt, w') /\
    chans w' = chans leaf_world /\
    wgs w' !! 0%nat = Some 0.
Proof.
  destruct (proj2 (failed_leaf_fetch_sends_nothing unreachable_env leaf_group leaf_url 0%nat
                     (station "1"))
              leaf_world (mkChan 1 [tt] false) 1 ErrGet)
    as (w' & Hrun & _ & _ & Hch & _ & _ & _ & Hwg).
  - reflexivity.
  - reflexivity.
  - reflexivity.
  - discriminate.
  - reflexivity.
  - lia.
  - exists w'. split; [exact Hrun|]. split; [exact Hch|exact Hwg].
Defined.

(** X13: a leaf with a confirmed record and a full channel.  The goroutine
    has made its request and then blocks at the send: the channel, the
    semaphore and the counter are as before, so it still holds its slot. *)
Theorem confirmed_leaf_waits_for_room E wg2 url ch subLoc w c :
  StatusSuara (leaf_record E url subLoc) = true ->
  chans w !! ch = Some c -> ch_closed c = false ->
  (ch_cap c <= length (ch_buf c))%nat ->
  exists w',
    run E (fetchAndStoreTPS_go wg2 url ch subLoc) w = (Stuck, w') /\
    requests w' = requests w ++ [tpsURL url (Kode subLoc)] /\
    chans w' = chans w /\ sems w' = sems w /\ wgs w' = wgs w /\
    db w' = db w /\ crashed w' = crashed w.
Proof.
  intros Hflag Hc Hopen Hfull. unfold leaf_record in Hflag.
  unfold fetchAndStoreTPS_go. rewrite run_mbind, run_fetchDataTPS.
  destruct (decodeTPS (remote E (tpsURL url (Kode subLoc)))) as [data err].
  cbn [fst] in Hflag.
  rewrite run_mbind.
  assert (Hsend : forall w1, chans w1 = chans w ->
            run E (trigger (EvSend ch (set_Id (ParseInt (Kode subLoc)).1 data))) w1 = (Stuck, w1)).
  { intros w1 H1. rewrite run_trigger. cbn [handle]. rewrite H1, Hc.
    unfold chan_send. rewrite Hopen.
    by destruct (Nat.ltb_spec (length (ch_buf c)) (ch_cap c)); [lia|]. }
  destruct err as [e|]; unfold if_err.
  - rewrite run_trigger. cbn [handle]. rewrite run_mbind, Hflag, Hsend by done.
    eexists. split; [done|]. by unfold after_fetch.
  - rewrite run_mret, run_mbind, Hflag, Hsend by done.
    eexists. split; [done|]. by unfold after_fetch.
Qed.

Lemma confirmed_leaf_waits_for_room_witness :
  exists w',
    run confirmed_env (fetchAndStoreTPS_go leaf_group leaf_url 0%nat (station "1")) full_world
    = (Stuck, w') /\
    chans w' = chans full_world /\ sems w' = sems full_world.
Proof.
  destruct (confirmed_leaf_waits_for_room confirmed_env leaf_group leaf_url 0%nat (station "1")
              full_world (mkChan 1 [record_of 9] false))
    as (w' & Hrun & _ & Hch & Hs & _).
  - reflexivity.
  - reflexivity.
  - reflexivity.
  - simpl. lia.
  - exists w'. split; [exact Hrun|]. split; [exact Hch|exact Hs].
Defined.

(** ** URLs of numeric codes *)

Lemma replace_from_absent c old new s :
  forallb (fun x => negb (Ascii.eqb x c)) (String.list_ascii_of_string s) = true ->
  replace_from 0 s (String c old) new = s.
Proof.
  induction s as [|x s IH]; simpl; [done|].
  intros [Hx Hs]%andb_true_iff. apply negb_true_iff, Ascii.eqb_neq in Hx.
  destruct (ascii_dec c x); [congruence|]. by rewrite IH.
Qed.

Lemma TrimRight_kept s cutset :
  forallb (fun x => negb (in_cutset cutset x)) (String.list_ascii_of_string s) = true ->
  TrimRight s cutset = s.
Proof.
  induction s as [|x s IH]; simpl; [done|].
  intros [Hx Hs]%andb_true_iff. apply negb_true_iff in Hx.
  rewrite IH, Hx by done. by destruct s.
Qed.

Lemma list_ascii_app s t :
  String.list_ascii_of_string (s +:+ t)
  = String.list_ascii_of_string s ++ String.list_ascii_of_string t.
Proof. induction s as [|x s IH]; [done|]. rewrite app_String. simpl. by rewrite IH. Qed.

Lemma numeric_path_char c :
  bool_decide (is_Some (digit_of c)) || Ascii.eqb c "/" = true ->
  negb (Ascii.eqb c "w") = true /\ negb (in_cutset ".json" c) = true.
Proof.
  intros H. destruct c as [[] [] [] [] [] [] [] []]; try done.
Qed.

Lemma numeric_path_plain s :
  numeric_path s = true ->
  forallb (fun x => negb (Ascii.eqb x "w")) (String.list_ascii_of_string s) = true /\
  forallb (fun x => negb (in_cutset ".json" x)) (String.list_ascii_of_string s) = true.
Proof.
  unfold numeric_path. induction (String.list_ascii_of_string s) as [|c l IH]; simpl; [done|].
  intros [Hc Hl]%andb_true_iff. destruct (numeric_path_char c Hc) as [-> ->].
  by destruct (IH Hl) as [-> ->].
Qed.

(** X14: for a listing URL [baseURL ++ path ++ ".json"] where [path] is
    made of decimal digits and slashes, [TrimRight] removes the suffix
    ".json" and nothing more: the base URL handed to the children is
    [baseURL ++ path ++ "/"], and the URL of a leaf is
    [resultsURL ++ path ++ "/" ++ kode ++ ".json"], which is also what
    removing the suffix gives. *)
Theorem numeric_codes_give_plain_URLs path kode :
  numeric_path path = true ->
  let url := baseURL +:+ path +:+ ".json" in
  TrimRight url ".json" +:+ "/" = baseURL +:+ path +:+ "/" /\
  tpsURL url kode = resultsURL +:+ path +:+ "/" +:+ kode +:+ ".json" /\
  tpsURL url kode = spec_tpsURL url kode.
Proof.
  intros [Hw Hcut]%numeric_path_plain url.
  assert (Hrep : ReplaceAll url "wilayah/pemilu/ppwp" "pemilu/hhcw/ppwp"
                 = resultsURL +:+ path +:+ ".json").
  { unfold url. rewrite ReplaceAll_baseURL. f_equal.
    apply replace_from_absent. rewrite list_ascii_app, forallb_app, Hw. done. }
  assert (Htps : tpsURL url kode = resultsURL +:+ path +:+ "/" +:+ kode +:+ ".json").
  { unfold tpsURL. rewrite Hrep, TrimRight_resultsURL.
    rewrite TrimRight_app_cutset by done. rewrite (TrimRight_kept path) by done.
    by rewrite !string_app_assoc. }
  split; [|split; [done|]].
  - unfold url. rewrite TrimRight_baseURL, TrimRight_app_cutset by done.
    rewrite (TrimRight_kept path) by done. by rewrite !string_app_assoc.
  - rewrite Htps. unfold spec_tpsURL. rewrite Hrep.
    replace (resultsURL +:+ path +:+ ".json") with ((resultsURL +:+ path) +:+ ".json")
      by (by rewrite string_app_assoc).
    rewrite TrimSuffix_app. by rewrite !string_app_assoc.
Qed.

Lemma numeric_codes_give_plain_URLs_witness :
  tpsURL (baseURL +:+ "11/1101/110101/1101012001.json") "1101012001001"
  = "https://sirekap-obj-data.kpu.go.id/pemilu/hhcw/ppwp/11/1101/110101/1101012001/1101012001001.json".
Proof.
  exact (proj1 (proj2 (numeric_codes_give_plain_URLs "11/1101/110101/1101012001"
                         "1101012001001" eq_refl))).
Defined.

(** X15: in a running process, a goroutine (other than [main]) that calls
    [processAndStoreLocation] gets, by some schedule, to the statement
    after the call with the error of the listing fetch for its result; the
    channel has then received the records of the confirmed polling stations
    of the subtree, in the order of the listings, and the database has not
    been touched.  The channel is open with room for these records, and
    the hierarchy below is not deeper than [fuel]. *)
Theorem crawl_delivers_the_subtree E ctx ch fuel burl loc
    (K : error -> prog unit) w ts t p0 c recs :
  let url := burl +:+ Kode loc +:+ ".json" in
  crawl_sends E fuel burl loc = Some recs ->
  chans w !! ch = Some c -> ch_closed c = false ->
  (length (ch_buf c) + length recs <= ch_cap c)%nat ->
  crashed w = None ->
  ts !! t = Some (processAndStoreLocation fuel ctx burl loc ch ≫= K) -> t <> 0%nat ->
  ts !! 0%nat = Some p0 -> is_ret p0 = false ->
  exists sched ts' w',
    exec E sched (with_threads ts w) = Some (with_threads ts' w') /\
    ts' !! t = Some (K (decodeLocations (remote E url)).2) /\
    buffered ch w' = ch_buf c ++ recs /\
    db w' = db w /\ crashed w' = None.
Proof.
  intros url Hsends Hc Hopen Hroom Hcr Ht Hne H0 Hp0.
  destruct (crawl_run E ctx ch fuel burl loc recs w c Hsends Hc Hopen Hroom)
    as (w' & Hrun & (c' & Hc' & Hch) & _ & _ & Hdb & Hcr').
  destruct (run_exec_bind E _ K w ts t p0 _ w' Hrun Hcr Ht Hne H0 Hp0) as (sched & m & Hex).
  exists sched, (<[t := K (decodeLocations (remote E url)).2]> ts ++ replicate m (Ret tt)), w'.
  split; [done|]. split.
  { rewrite lookup_app_l by (rewrite length_insert; eapply lookup_lt_Some; eauto).
    apply list_lookup_insert_eq. eapply lookup_lt_Some; eauto. }
  split; [|split; [done|congruence]].
  unfold buffered. rewrite Hch, list_lookup_insert_eq by (eapply lookup_lt_Some; eauto).
  simplify_eq. done.
Qed.

Lemma crawl_delivers_the_subtree_witness :
  let call := processAndStoreLocation 5 Background baseURL province 0%nat in
  let K := fun _ : error => Ret tt in
  exists sched ts' w',
    exec (small_env true) sched
      (with_threads [trigger (EvWgWait 0%nat); call ≫= K] (sink_world [] [] false))
    = Some (with_threads ts' w') /\
    ts' !! 1%nat = Some (K None) /\
    map Id (buffered 0%nat w') = [1; 2].
Proof.
  intros call K.
  destruct (crawl_delivers_the_subtree (small_env true) Background 0%nat 5 baseURL province K
              (sink_world [] [] false) [trigger (EvWgWait 0%nat); call ≫= K] 1%nat
              (trigger (EvWgWait 0%nat)) (mkChan 20 [] false)
              (default [] (crawl_sends (small_env true) 5 baseURL province)))
    as (sched & ts' & w' & Hex & Ht & Hbuf & _).
  - reflexivity.
  - reflexivity.
  - reflexivity.
  - vm_compute. lia.
  - reflexivity.
  - reflexivity.
  - discriminate.
  - reflexivity.
  - reflexivity.
  - exists sched, ts', w'. split; [exact Hex|]. split; [exact Ht|].
    rewrite Hbuf. reflexivity.
Defined.

(** ** The whole program, in order

    One schedule of [main] when nothing fails: each location of the root
    listing is crawled to its end before the next one is started, then the
    sink stores what the channel holds, then [main] returns. *)

(** A goroutine that [run] takes to a point where it is blocked gets there
    in the process too. *)
Lemma run_exec_stuck E (p : prog unit) :
  forall w ts t p0 w',
    run E p w = (Stuck, w') ->
    crashed w = None ->
    ts !! t = Some p -> t <> 0%nat ->
    ts !! 0%nat = Some p0 -> is_ret p0 = false ->
    exists sched ts',
      exec E sched (with_threads ts w) = Some (with_threads ts' w') /\
      ts' !! 0%nat = Some p0 /\ crashed w' = None.
Proof.
  induction p as [r0|X e k IH|c k IHc IHk] using prog_unit_ind;
    intros w ts t p0 w' Hrun Hcr Ht Hne H0 Hp0; simpl in Hrun.
  - done.
  - destruct (handle E e w) as [|v|x w1] eqn:He; try done.
    + injection Hrun as <-. by exists [], ts.
    + destruct (handle_frame _ _ _ _ _ He) as [_ Hcr1].
      assert (Hlt : (t < length ts)%nat) by (eapply lookup_lt_Some; eauto).
      destruct (IH x w1 (<[t := k x]> ts) t p0 w' Hrun) as (sched & ts' & Hex & H0' & Hcr').
      * congruence.
      * by apply list_lookup_insert_eq.
      * done.
      * by rewrite list_lookup_insert_ne.
      * done.
      * exists (t :: sched), ts'. split; [|done]. simpl.
        unfold step, running, main_returned. simpl. rewrite Hcr, H0.
        destruct p0; try done; simpl; rewrite Ht, handle_with_threads, He; simpl;
          by rewrite with_threads_idem, Hex.
  - assert (Hlt : (t < length ts)%nat) by (eapply lookup_lt_Some; eauto).
    set (ts1 := <[t := k]> ts).
    assert (Hstep : forall s x,
              exec E s (with_threads (ts1 ++ [c]) w) = x ->
              exec E (t :: s) (with_threads ts w) = x).
    { intros s x <-. simpl. unfold step, running, main_returned. simpl. rewrite Hcr, H0.
      destruct p0; try done; simpl; by rewrite Ht. }
    assert (H01 : (ts1 ++ [c]) !! 0%nat = Some p0).
    { rewrite lookup_app_l by (unfold ts1; rewrite length_insert; lia).
      unfold ts1. by rewrite list_lookup_insert_ne. }
    destruct (run E c w) as [[u| |v] w1] eqn:Hc; try done.
    + destruct u.
      assert (Hcr1 : crashed w1 = None) by (by rewrite (run_crashed _ _ _ _ _ Hc)).
      destruct (run_exec E c w (ts1 ++ [c]) (length ts1) p0 tt w1 Hc Hcr) as (s1 & m1 & Hex1).
      * by rewrite lookup_app_r, Nat.sub_diag.
      * unfold ts1. rewrite length_insert. lia.
      * done.
      * done.
      * set (ts2 := <[length ts1 := Ret tt]> (ts1 ++ [c]) ++ replicate m1 (Ret tt)) in *.
        assert (Hts2 : ts2 = ts1 ++ replicate (S m1) (Ret tt)).
        { unfold ts2. rewrite insert_app_r_alt, Nat.sub_diag by lia. simpl.
          by rewrite <- app_assoc. }
        destruct (IHk w1 ts2 t p0 w' Hrun Hcr1) as (s2 & ts' & Hex2 & H0' & Hcr').
        -- rewrite Hts2, lookup_app_l by (unfold ts1; rewrite length_insert; lia).
           unfold ts1. by apply list_lookup_insert_eq.
        -- done.
        -- rewrite Hts2, lookup_app_l by (unfold ts1; rewrite length_insert; lia).
           unfold ts1. by rewrite list_lookup_insert_ne.
        -- done.
        -- exists (t :: s1 ++ s2), ts'. split; [|done].
           apply Hstep. by rewrite exec_app, Hex1.
    + injection Hrun as <-.
      destruct (IHc w (ts1 ++ [c]) (length ts1) p0 w1 Hc Hcr) as (s1 & ts' & Hex1 & H0' & Hcr').
      * by rewrite lookup_app_r, Nat.sub_diag.
      * unfold ts1. rewrite length_insert. lia.
      * done.
      * done.
      * exists (t :: s1), ts'. split; [|done]. by apply Hstep.
Qed.

(** The goroutine of one location of the root listing, taken to its end. *)
Lemma main_go_run E depth g ch loc recs w c n :
  crawl_sends E depth baseURL loc = Some recs ->
  chans w !! ch = Some c -> ch_closed c = false ->
  (length (ch_buf c) + length recs <= ch_cap c)%nat ->
  wgs w !! g = Some n -> 1 <= n ->
  exists w',
    run E (main_go depth g ch loc) w = (Returned tt, w') /\
    chans w' = <[ch := mkChan (ch_cap c) (ch_buf c ++ recs) false]> (chans w) /\
    wgs w' !! g = Some (n - 1) /\
    db w' = db w /\ crashed w' = crashed w.
Proof.
  intros Hsends Hc Hopen Hroom Hg Hn.
  destruct (crawl_run E Background ch depth baseURL loc recs w c Hsends Hc Hopen Hroom)
    as (w1 & Hrun & (c' & Hc' & Hch) & (x & Hwx) & _ & Hdb & Hcr).
  simplify_eq.
  assert (Hlg : (g < length (wgs w))%nat) by (eapply lookup_lt_Some; eauto).
  assert (Hd : forall w2, wgs w2 = wgs w1 -> chans w2 = chans w1 -> db w2 = db w1 ->
             crashed w2 = crashed w1 ->
             exists w', run E (trigger (EvWgDone g)) w2 = (Returned tt, w') /\
               chans w' = <[ch := mkChan (ch_cap c) (ch_buf c ++ recs) false]> (chans w) /\
               wgs w' !! g = Some (n - 1) /\ db w' = db w /\ crashed w' = crashed w).
  { intros w2 H1 H2 H3 H4. rewrite run_trigger. cbn [handle].
    rewrite H1, Hwx, lookup_app_l, Hg by done.
    destruct (Z.ltb_spec (n - 1) 0); [lia|].
    eexists. split; [done|]. wsimpl. rewrite H2, Hch, Hopen.
    repeat split; try congruence.
    apply list_lookup_insert_eq. rewrite length_app. lia. }
  unfold main_go. rewrite run_mbind, Hrun, run_mbind. unfold if_err.
  destruct (decodeLocations _).2 as [e|].
  - rewrite run_trigger. cbn [handle]. edestruct Hd as (w' & -> & Hw'); [..|by exists w']; done.
  - rewrite run_mret. edestruct Hd as (w' & -> & Hw'); [..|by exists w']; done.
Qed.

Lemma is_ret_for_range_bind {A : Type} (l : list A) body (k : unit -> prog unit) :
  (forall x, is_ret (body x) = false) -> is_ret (k tt) = false ->
  is_ret (for_range l body ≫= k) = false.
Proof.
  intros Hb Hk. destruct l as [|x l]; [done|]. simpl.
  specialize (Hb x). by destruct (body x).
Qed.

(** The loop of [main]: each location's goroutine is started and, before
    the next one, taken to its end. *)
Lemma main_loop_exec E depth g ch (k : unit -> prog unit) :
  is_ret (k tt) = false ->
  forall locs recs w ts c,
    collect (crawl_sends E depth baseURL) locs = Some recs ->
    ts !! 0%nat
    = Some (for_range locs (fun loc => trigger (EvWgAdd g 1);; go_ (main_go depth g ch loc)) ≫= k) ->
    wgs w !! g = Some 0 ->
    chans w !! ch = Some c -> ch_closed c = false ->
    (length (ch_buf c) + length recs <= ch_cap c)%nat ->
    crashed w = None ->
    exists sched ts' w',
      exec E sched (with_threads ts w) = Some (with_threads ts' w') /\
      ts' !! 0%nat = Some (k tt) /\
      (forall i, (0 < i < length ts)%nat -> ts' !! i = ts !! i) /\
      wgs w' !! g = Some 0 /\
      chans w' = <[ch := mkChan (ch_cap c) (ch_buf c ++ recs) false]> (chans w) /\
      db w' = db w /\ crashed w' = None.
Proof.
  intros Hk. induction locs as [|loc locs IH]; intros recs w ts c Hcol H0 Hg Hc Hopen Hroom Hcr.
  - injection Hcol as <-. exists [], ts, w. simpl in H0.
    rewrite app_nil_r, <- Hopen, chan_eta, (list_insert_id _ _ _ Hc). done.
  - simpl in Hcol.
    destruct (crawl_sends E depth baseURL loc) as [a|] eqn:Ha; [|done].
    destruct (collect _ locs) as [b|] eqn:Hb; [|done].
    injection Hcol as <-. rewrite length_app in Hroom.
    assert (Hl0 : (0 < length ts)%nat) by (eapply lookup_lt_Some; eauto).
    assert (Hlg : (g < length (wgs w))%nat) by (eapply lookup_lt_Some; eauto).
    set (body := fun loc => trigger (EvWgAdd g 1);; go_ (main_go depth g ch loc)) in *.
    set (rest := for_range locs body ≫= k).
    (* main: wg.Add(1), go *)
    set (w1 := with_wgs (<[g := 1]> (wgs w)) w).
    set (ts1 := <[0%nat := rest]> ts ++ [main_go depth g ch loc]).
    assert (Hex1 : exec E [0%nat; 0%nat] (with_threads ts w) = Some (with_threads ts1 w1)).
    { simpl. unfold step, running, main_returned. simpl. rewrite Hcr, H0. simpl.
      rewrite Hg. simpl. unfold step, running, main_returned. simpl. rewrite Hcr.
      rewrite list_lookup_insert_eq by done. simpl.
      by rewrite list_insert_insert_eq. }
    (* its goroutine, to the end *)
    destruct (main_go_run E depth g ch loc a w1 c 1) as (w2 & Hrun & Hch2 & Hg2 & Hdb2 & Hcr2);
      try done; [lia|by apply list_lookup_insert_eq|].
    assert (Hrest : is_ret rest = false).
    { apply is_ret_for_range_bind; [done|done]. }
    destruct (run_exec E _ w1 ts1 (length ts) rest tt w2 Hrun) as (s2 & m & Hex2); try done.
    { unfold ts1. rewrite lookup_app_r by (by rewrite length_insert).
      by rewrite length_insert, Nat.sub_diag. }
    { lia. }
    { unfold ts1. rewrite lookup_app_l by (rewrite length_insert; lia).
      by apply list_lookup_insert_eq. }
    set (ts2 := <[length ts := Ret tt]> ts1 ++ replicate m (Ret tt)) in *.
    (* the other locations *)
    destruct (IH b w2 ts2 (mkChan (ch_cap c) (ch_buf c ++ a) false) eq_refl)
      as (s3 & ts3 & w3 & Hex3 & H03 & Hoth & Hg3 & Hch3 & Hdb3 & Hcr3).
    { unfold ts2, ts1. rewrite lookup_app_l by (rewrite length_insert, length_app, length_insert; lia).
      rewrite list_lookup_insert_ne by lia.
      rewrite lookup_app_l by (rewrite length_insert; lia).
      by apply list_lookup_insert_eq. }
    { exact Hg2. }
    { rewrite Hch2. apply list_lookup_insert_eq. eapply lookup_lt_Some; eauto. }
    { done. }
    { wsimpl. rewrite length_app. lia. }
    { by rewrite Hcr2. }
    exists ([0%nat; 0%nat] ++ s2 ++ s3), ts3, w3.
    split.
    { rewrite exec_app, Hex1. cbn [mbind option_bind]. rewrite exec_app, Hex2.
      cbn [mbind option_bind]. exact Hex3. }
    split; [done|]. split.
    { intros i Hi. rewrite Hoth.
      - unfold ts2, ts1.
        rewrite lookup_app_l by (rewrite length_insert, length_app, length_insert; lia).
        rewrite list_lookup_insert_ne by lia.
        rewrite lookup_app_l by (rewrite length_insert; lia).
        by rewrite list_lookup_insert_ne by lia.
      - unfold ts2, ts1. rewrite length_app, length_insert, length_app, length_insert. lia. }
    split; [done|]. split; [|split; [by rewrite Hdb3, Hdb2|done]].
    rewrite Hch3, Hch2. wsimpl. by rewrite list_insert_insert_eq, app_assoc.
Qed.

(** The sink on an open channel: it stores what the channel holds, then
    waits. *)
Lemma sink_drains E fuel ctx ch w c :
  mongo_up E = true -> unique_ids (docs (db w)) = true ->
  chans w !! ch = Some c -> ch_closed c = false ->
  fresh_for (docs (db w)) (ch_buf c) = true ->
  (length (ch_buf c) < fuel)%nat ->
  exists w',
    run E (insertData fuel ctx ch;; mret tt) w = (Stuck, w') /\
    docs (db w') = docs (db w) ++ ch_buf c /\
    buffered ch w' = [] /\
    stdout w' = stdout w /\ crashed w' = crashed w.
Proof.
  intros Hup Hu Hc Hopen Hfresh Hfuel.
  rewrite run_mbind, insertData_start by done.
  set (w0 := with_db _ w).
  replace fuel with (length (ch_buf c) + S (fuel - length (ch_buf c) - 1))%nat by lia.
  destruct (insertData_range_fresh E ctx ch (ch_buf c) (S (fuel - length (ch_buf c) - 1)) w0 c [])
    as (w1 & Hrun & Hdocs & _ & _ & Hch & Hout & Hcr); try done.
  { by rewrite app_nil_r. }
  rewrite Hrun, (insertData_range_drained E ctx ch _ w1 _ Hch) by done. wsimpl.
  rewrite Hopen. exists w1. split; [done|]. unfold buffered. rewrite Hch. done.
Qed.

(** X16: the good case.  The .env file loads, MongoDB is up, the root
    listing is fetched, the confirmed records of the whole hierarchy are at
    most 20 (the capacity of the channel) and their ids are new to the
    collection and distinct.  Then some schedule takes [main] to its
    return: the collection holds the old documents followed by these
    records in the order of the listings, the channel is empty, nothing has
    panicked, and the last line printed is the line of success. *)
Theorem main_stores_every_record E ds depth fuel locs recs :
  env_file_ok E = true -> mongo_up E = true ->
  decodeLocations (remote E initialURL) = (locs, None) ->
  collect (crawl_sends E depth baseURL) locs = Some recs ->
  (length recs <= 20)%nat -> (length recs < fuel)%nat ->
  unique_ids ds = true -> fresh_for ds recs = true ->
  exists sched w',
    exec E sched (init_world ds (main depth fuel)) = Some w' /\
    main_returned w' = true /\ crashed w' = None /\
    docs (db w') = ds ++ recs /\
    last (stdout w') = Some success_line /\
    buffered 0%nat w' = [].
Proof.
  intros Henv Hup Hroot Hcol Hlen Hfuel Hu Hfresh.
  set (body := fun loc => trigger (EvWgAdd 0%nat 1);; go_ (main_go depth 0%nat 0%nat loc)).
  set (k := fun _ : unit =>
         trigger (EvWgWait 0%nat);; trigger (EvPrintln success_line)).
  set (sink := insertData fuel Background 0%nat;; mret tt).
  set (w5 := mkWorld [] [0] [] [mkChan 20 [] false] [] [] [initialURL] (init_store ds) None).
  (* main up to its loop *)
  assert (HA : exec E [0; 0; 0; 0; 0]%nat (init_world ds (main depth fuel))
               = Some (with_threads [for_range locs body ≫= k; sink] w5)).
  { unfold main, init_world. simpl. unfold step, running, main_returned. simpl.
    rewrite Henv. simpl. fold initialURL. rewrite Hroot. reflexivity. }
  (* the loop *)
  destruct (main_loop_exec E depth 0%nat 0%nat k eq_refl locs recs w5
              [for_range locs body ≫= k; sink] (mkChan 20 [] false) Hcol)
    as (s2 & ts2 & w6 & Hex2 & H02 & Hoth & Hg6 & Hch6 & Hdb6 & Hcr6); try done.
  (* main passes wg.Wait() *)
  set (p0 := trigger (EvPrintln success_line) : prog unit).
  assert (HD1 : exec E [0%nat] (with_threads ts2 w6) = Some (with_threads (<[0%nat := p0]> ts2) w6)).
  { simpl. unfold step, running, main_returned. simpl. rewrite Hcr6, H02. simpl.
    rewrite Hg6. simpl. done. }
  (* the sink stores the records *)
  assert (Hl2 : (2 <= length ts2)%nat).
  { destruct (ts2 !! 1%nat) eqn:H1; [apply lookup_lt_Some in H1; lia|].
    rewrite Hoth in H1 by (simpl; lia). done. }
  destruct (sink_drains E fuel Background 0%nat w6 (mkChan 20 recs false))
    as (w7 & Hrun7 & Hdocs7 & Hbuf7 & Hout7 & Hcr7); try done.
  { by rewrite Hdb6. }
  { by rewrite Hch6. }
  { by rewrite Hdb6. }
  destruct (run_exec_stuck E sink w6 (<[0%nat := p0]> ts2) 1%nat p0 w7 Hrun7)
    as (s3 & ts3 & Hex3 & H03 & Hcr3); try done.
  { rewrite list_lookup_insert_ne by done. rewrite Hoth by (simpl; lia). done. }
  { apply list_lookup_insert_eq. lia. }
  (* main prints its last line and returns *)
  exists ([0; 0; 0; 0; 0]%nat ++ s2 ++ [0%nat] ++ s3 ++ [0%nat]).
  eexists. split.
  { rewrite exec_app, HA. cbn [mbind option_bind].
    rewrite exec_app, Hex2. cbn [mbind option_bind].
    rewrite exec_app, HD1. cbn [mbind option_bind].
    rewrite exec_app, Hex3. cbn [mbind option_bind].
    simpl. unfold step, running, main_returned. simpl. rewrite Hcr3, H03. simpl. done. }
  simpl. unfold main_returned. simpl.
  rewrite list_lookup_insert_eq by (eapply lookup_lt_Some; eauto).
  split; [done|]. split; [done|]. split; [by rewrite Hdocs7, Hdb6|].
  split; [by rewrite last_snoc|]. done.
Qed.

Lemma main_stores_every_record_witness :
  exists sched w',
    exec (small_env true) sched (init_world [] (main 5 10)) = Some w' /\
    main_returned w' = true /\
    map Id (docs (db w')) = [1; 2].
Proof.
  destruct (main_stores_every_record (small_env true) [] 5 10 [province]
              (default [] (collect (crawl_sends (small_env true) 5 baseURL) [province])))
    as (sched & w' & Hex & Hret & _ & Hdocs & _).
  - reflexivity.
  - reflexivity.
  - reflexivity.
  - reflexivity.
  - vm_compute. lia.
  - vm_compute. lia.
  - reflexivity.
  - reflexivity.
  - exists sched, w'. split; [exact Hex|]. split; [exact Hret|].
    rewrite Hdocs. reflexivity.
Defined.

(** ** Bodies in the format of the structs *)

Lemma store_Location_encode l old :
  Location_in_range l = true ->
  store_Location (encode_Location l) old = (l, None).
Proof.
  unfold Location_in_range. intros [H1 H2]%andb_true_iff.
  destruct l as [nama id kode tingkat]. simpl in *.
  unfold store_Location, store_struct, encode_Location. simpl.
  rewrite H1. simpl. rewrite H2. done.
Qed.

Lemma store_Location_elems_encode locs : forall old,
  forallb Location_in_range locs = true ->
  store_Location_elems (map encode_Location locs) old = (locs, None).
Proof.
  induction locs as [|l locs IH]; intros old; [done|].
  intros [Hl Hlocs]%andb_true_iff.
  cbn [map store_Location_elems]. rewrite store_Location_encode, IH by done. done.
Qed.

Lemma store_Administrasi_encode a old :
  Administrasi_in_range a = true ->
  store_Administrasi (encode_Administrasi a) old = (a, None).
Proof.
  unfold Administrasi_in_range. destruct a. destruct old. simpl.
  intros H. repeat (apply andb_true_iff in H as [?H H]).
  unfold store_Administrasi, store_struct, encode_Administrasi. simpl.
  unfold store_adm_field. simpl.
  repeat match goal with Hx : in_int64 _ = true |- _ => rewrite Hx; clear Hx end.
  reflexivity.
Qed.

Lemma store_entries_encode (l : list (string * Z)) : forall m0,
  Forall (fun kz => in_int64 kz.2 = true) l ->
  store_entries (map (fun kz => (kz.1, JNum (NInt kz.2))) l) m0 None
  = (foldl (fun acc kz => <[kz.1 := kz.2]> acc) m0 l, None).
Proof.
  induction l as [|[k z] l IH]; intros m0 Hl; [done|].
  inversion Hl as [|? ? Hz Hl']; subst. simpl in *. rewrite Hz. simpl. by apply IH.
Qed.

Lemma foldl_reverse_insert (l : list (string * Z)) (m0 : gmap string Z) :
  foldl (fun acc kz => <[kz.1 := kz.2]> acc) m0 (reverse l)
  = foldr (fun kz acc => <[kz.1 := kz.2]> acc) m0 l.
Proof.
  revert m0. induction l as [|kz l IH]; intros m0; [done|].
  rewrite reverse_cons, foldl_app. simpl. by rewrite IH.
Qed.

Lemma store_map_encode c :
  Chart_in_range c -> store_map (encode_Chart c) None = (c, None).
Proof.
  destruct c as [m|]; [|done]. simpl. intros Hm.
  rewrite store_entries_encode.
  - rewrite foldl_reverse_insert.
    change (foldr _ ∅ (map_to_list m)) with (list_to_map (map_to_list m) : gmap string Z).
    by rewrite list_to_map_to_list.
  - apply Forall_reverse. apply Forall_forall. intros [k z] Hkz.
    apply elem_of_map_to_list in Hkz. by apply (Hm k z).
Qed.

Lemma store_elems_encode l : forall old, store_elems (map JStr l) old = (l, None).
Proof.
  induction l as [|s l IH]; intros old; [done|].
  cbn [map store_elems store_string]. by rewrite IH.
Qed.

Lemma store_strings_encode i old : store_strings (encode_Images i) old = (i, None).
Proof.
  destruct i as [l|]; [|done]. simpl. by rewrite store_elems_encode.
Qed.

Lemma decodeLocations_encode locs :
  forallb Location_in_range locs = true ->
  decodeLocations (Resp (Some (Some (JArr (map encode_Location locs))))) = (locs, None).
Proof.
  intros Hlocs. unfold decodeLocations, Unmarshal, store_Locations.
  by rewrite store_Location_elems_encode.
Qed.

Lemma decodeTPS_encode d :
  TPSData_in_range d ->
  decodeTPS (Resp (Some (Some (encode_TPSData d)))) = (d, None).
Proof.
  intros (Hid & Hchart & Hadm). destruct d as [id mode chart images adm psu ts ss sa].
  simpl in Hid, Hchart, Hadm.
  pose proof (store_map_encode chart Hchart) as HC.
  pose proof (store_strings_encode images None) as HI.
  pose proof (store_Administrasi_encode adm zero_Administrasi Hadm) as HA.
  unfold decodeTPS, Unmarshal, store_TPSData, store_struct, encode_TPSData, zero_TPSData.
  cbv [store_members lookup_field List.find tps_fields tps_tag String.eqb Ascii.eqb
       Bool.eqb store_tps_field store_int store_string store_bool first_err
       set_Id set_Mode set_Chart set_Images set_Administrasi set_PSU set_TS
       set_StatusSuara set_StatusAdm
       Id Mode Chart Images Administrasi_ PSU TS StatusSuara StatusAdm].
  rewrite Hid, HC, HI, HA. reflexivity.
Qed.

(** X17: a body in the format of the structs is decoded without loss.
    [fetchLocations] gets back the locations of a listing that carries
    them under the tags of [Location], and [fetchDataTPS] the record of a
    document that carries it under the tags of [TPSData] and
    [Administrasi], when the integers fit their Go types. *)
Theorem decoding_inverts_encoding :
  (forall locs,
     forallb Location_in_range locs = true ->
     decodeLocations (Resp (Some (Some (JArr (map encode_Location locs))))) = (locs, None)) /\
  (forall d,
     TPSData_in_range d ->
     decodeTPS (Resp (Some (Some (encode_TPSData d)))) = (d, None)).
Proof. split; [exact decodeLocations_encode|exact decodeTPS_encode]. Qed.

Lemma decoding_inverts_encoding_witness :
  decodeLocations (Resp (Some (Some (JArr (map encode_Location [province; station "1"])))))
  = ([province; station "1"], None) /\
  decodeTPS (Resp (Some (Some (encode_TPSData sample_record)))) = (sample_record, None).
Proof.
  destruct decoding_inverts_encoding as [Ha Hb]. split.
  - apply Ha. reflexivity.
  - apply Hb. split; [reflexivity|]. split; [|reflexivity].
    apply map_Forall_singleton. reflexivity.
Defined.

(** X18: a leaf whose document is in the format of [TPSData], confirmed,
    and whose code is a decimal numeral within [int64]: the goroutine
    sends the document as it is, but for the id, which is the value of the
    code; it frees its slot and lowers the counter. *)
Theorem leaf_sends_the_document E wg2 url ch subLoc d v w c s n :
  remote E (tpsURL url (Kode subLoc)) = Resp (Some (Some (encode_TPSData d))) ->
  TPSData_in_range d -> StatusSuara d = true ->
  numeral (Kode subLoc) = Some v -> - 2 ^ 63 <= v < 2 ^ 63 ->
  chans w !! ch = Some c -> ch_closed c = false ->
  (length (ch_buf c) < ch_cap c)%nat ->
  sems w !! sem wg2 = Some s -> ch_buf s <> [] ->
  wgs w !! wg wg2 = Some n -> 1 <= n ->
  exists w',
    run E (fetchAndStoreTPS_go wg2 url ch subLoc) w = (Returned tt, w') /\
    buffered ch w' = ch_buf c ++ [set_Id v d] /\
    S (slots_in_use wg2 w') = slots_in_use wg2 w /\
    wgs w' !! wg wg2 = Some (n - 1) /\
    db w' = db w.
Proof.
  intros Hbody Hrange Hflag Hnum Hv Hc Hopen Hroom Hs Htok Hn Hn1.
  assert (Hrec : leaf_record E url subLoc = set_Id v d).
  { unfold leaf_record. rewrite Hbody, (ParseInt_numeral _ _ Hnum Hv).
    by rewrite (decodeTPS_encode d Hrange). }
  assert (Hsends : leaf_sends E url subLoc = [set_Id v d]).
  { unfold leaf_sends. rewrite Hrec. simpl. by rewrite Hflag. }
  assert (Hlw : (wg wg2 < length (wgs w))%nat) by (eapply lookup_lt_Some; eauto).
  assert (Hls : (sem wg2 < length (sems w))%nat) by (eapply lookup_lt_Some; eauto).
  assert (Hlc : (ch < length (chans w))%nat) by (eapply lookup_lt_Some; eauto).
  destruct (leaf_run E wg2 url ch subLoc w c s n Hc Hopen) as
    (w' & Hrun & Hch & Hsem & Hwg & _ & Hdb & _); try done.
  { rewrite Hsends. simpl. lia. }
  exists w'. split; [done|]. unfold buffered, slots_in_use.
  rewrite Hch, Hsem, Hwg, Hs, !list_lookup_insert_eq, Hsends by done. wsimpl.
  repeat split; try done. by destruct (ch_buf s).
Qed.

Lemma leaf_sends_the_document_witness :
  exists w',
    run sample_env (fetchAndStoreTPS_go leaf_group leaf_url 0%nat (station "3171011001"))
      leaf_world = (Returned tt, w') /\
    buffered 0%nat w' = [set_Id 3171011001 sample_record].
Proof.
  destruct (leaf_sends_the_document sample_env leaf_group leaf_url 0%nat (station "3171011001")
              sample_record 3171011001 leaf_world (mkChan 20 [] false) (mkChan 1 [tt] false) 1)
    as (w' & Hrun & Hbuf & _).
  - reflexivity.
  - split; [reflexivity|]. split; [|reflexivity]. apply map_Forall_singleton. reflexivity.
  - reflexivity.
  - reflexivity.
  - lia.
  - reflexivity.
  - reflexivity.
  - simpl. lia.
  - reflexivity.
  - discriminate.
  - reflexivity.
  - lia.
  - exists w'. split; [exact Hrun|exact Hbuf].
Defined.

(** X19: the filter of the leaf goroutine.  A leaf goroutine of
    [fetchAndStoreTPS], run to its end from any world in which the output
    channel has a free place: the record it has fetched (the decoded
    response with its id set from the code) is appended to the channel when
    its [StatusSuara] flag is true, and the channel is left as it was when
    the flag is false.  The flag is the one of the record that
    [fetchDataTPS] returned.  In both cases the goroutine leaves the
    database alone and makes exactly one request: a dropped record is
    neither stored nor fetched again.  And in the whole program, whatever
    the source and the schedule, every record in the channel and every
    record handed to InsertOne has a true flag. *)
Theorem leaf_goroutine_sends_iff_confirmed :
  (forall E wg2 url ch subLoc w c s n,
     chans w !! ch = Some c -> ch_closed c = false ->
     (length (ch_buf c) < ch_cap c)%nat ->
     sems w !! sem wg2 = Some s -> ch_buf s <> [] ->
     wgs w !! wg wg2 = Some n -> 1 <= n ->
     let record := leaf_record E url subLoc in
     (exists data err w1,
        run E (fetchDataTPS (tpsURL url (Kode subLoc))) w = (Returned (data, err), w1) /\
        StatusSuara record = StatusSuara data) /\
     exists w',
       run E (fetchAndStoreTPS_go wg2 url ch subLoc) w = (Returned tt, w') /\
       (StatusSuara record = true -> buffered ch w' = buffered ch w ++ [record]) /\
       (StatusSuara record = false -> buffered ch w' = buffered ch w) /\
       db w' = db w /\
       requests w' = requests w ++ [tpsURL url (Kode subLoc)]) /\
  (forall E ds depth fuel w',
     reachable E (init_world ds (main depth fuel)) w' -> confirmed_only w').
Proof.
  split.
  - intros E wg2 url ch subLoc w c s n Hc Hopen Hroom Hs Htok Hn Hn1 record. split.
    { rewrite run_fetchDataTPS. unfold record, leaf_record.
      destruct (decodeTPS _) as [data err]. by eexists data, err, _. }
    destruct (leaf_run E wg2 url ch subLoc w c s n)
      as (w' & Hrun & Hch & _ & _ & _ & Hdb & _ & Hreq); try done.
    { unfold leaf_sends. destruct (StatusSuara _); simpl; lia. }
    exists w'. split; [done|].
    assert (Hbuf : buffered ch w' = buffered ch w ++ leaf_sends E url subLoc).
    { unfold buffered. rewrite Hch, Hc.
      by rewrite list_lookup_insert_eq by (eapply lookup_lt_Some; eauto). }
    unfold leaf_sends in Hbuf. fold record in Hbuf.
    repeat split; try done.
    + intros Hflag. by rewrite Hbuf, Hflag.
    + intros Hflag. by rewrite Hbuf, Hflag, app_nil_r.
  - intros E ds depth fuel w' Hr.
    destruct (reachable_tame E _ _ (tame_init ds depth fuel) Hr) as (_ & _ & ? & _). done.
Qed.

Lemma leaf_goroutine_sends_iff_confirmed_witness :
  let record := leaf_record confirmed_env leaf_url (station "1") in
  (exists data err w1,
     run confirmed_env (fetchDataTPS (tpsURL leaf_url "1")) leaf_world
     = (Returned (data, err), w1) /\
     StatusSuara record = StatusSuara data) /\
  exists w',
    run confirmed_env (fetchAndStoreTPS_go leaf_group leaf_url 0%nat (station "1")) leaf_world
    = (Returned tt, w') /\
    (StatusSuara record = true -> buffered 0%nat w' = buffered 0%nat leaf_world ++ [record]) /\
    (StatusSuara record = false -> buffered 0%nat w' = buffered 0%nat leaf_world) /\
    db w' = db leaf_world /\
    requests w' = requests leaf_world ++ [tpsURL leaf_url "1"].
Proof.
  apply (proj1 leaf_goroutine_sends_iff_confirmed confirmed_env leaf_group leaf_url 0%nat
           (station "1") leaf_world (mkChan 20 [] false) (mkChan 1 [tt] false) 1).
  - reflexivity.
  - reflexivity.
  - simpl. lia.
  - reflexivity.
  - discriminate.
  - reflexivity.
  - lia.
Defined.
